(** * keyman: the SSH key manager of [main.go]

    A shallow embedding of the config parser and writer, the mapping
    commands ([map], [unmap], [delete]) and the usage analysis ([unused],
    [audit]) of [main.go], with the properties stated about them.

    Go strings are byte strings: [list ascii].  A Go [map[string][]string]
    is a [gmap] from byte strings to lists of byte strings.  The order in
    which a [range] statement visits a Go map is chosen by the runtime; every
    function that contains such a statement takes the visiting order as an
    argument, and the theorems quantify over every order the runtime may
    choose (every permutation of the map's entries). *)

From Stdlib Require Import Ascii String List NArith Lia.
From stdpp Require Import base option list gmap sorting strings.
Import ListNotations.

Local Open Scope list_scope.

(** ** Byte strings *)

Abbreviation gostring := (list ascii).

(** String literals of the source are read as byte strings. *)
Definition str (s : string) : gostring := list_ascii_of_string s.
Coercion str : string >-> list.

Definition byte (c : ascii) : N := N_of_ascii c.

Definition newline : ascii := "010"%char.
Definition slash : ascii := "/"%char.

(** ** Package [strings] of the Go library, as far as [main.go] uses it *)

Module Strings.

(** [strings.HasPrefix(s, prefix)] *)
Fixpoint HasPrefix (s prefix : gostring) : bool :=
  match prefix, s with
  | [], _ => true
  | p :: prefix', c :: s' => if decide (c = p) then HasPrefix s' prefix' else false
  | _ :: _, [] => false
  end.

(** [strings.TrimPrefix(s, prefix)]: [s] without the leading [prefix],
    [s] itself when it does not start with [prefix]. *)
Definition TrimPrefix (s prefix : gostring) : gostring :=
  if HasPrefix s prefix then drop (length prefix) s else s.

(** [strings.HasSuffix(s, suffix)] *)
Definition HasSuffix (s suffix : gostring) : bool :=
  HasPrefix (reverse s) (reverse suffix).

(** [strings.TrimSuffix(s, suffix)] *)
Definition TrimSuffix (s suffix : gostring) : gostring :=
  if HasSuffix s suffix then take (length s - length suffix) s else s.

(** The six ASCII bytes of [unicode.IsSpace]: tab, line feed, vertical
    tab, form feed, carriage return and space. *)
Definition isAsciiSpace (c : ascii) : bool :=
  match c with
  | "009" | "010" | "011" | "012" | "013" | " " => true
  | _ => false
  end%char.

(** The UTF-8 encodings of the other runes of [unicode.IsSpace]:
    U+0085 and U+00A0 on two bytes; U+1680, U+2000 to U+200A, U+2028,
    U+2029, U+202F, U+205F and U+3000 on three. *)
Definition isSpace2 (c1 c2 : ascii) : bool :=
  (byte c1 =? 0xC2)%N && ((byte c2 =? 0x85)%N || (byte c2 =? 0xA0)%N).

Definition isSpace3 (c1 c2 c3 : ascii) : bool :=
  ((byte c1 =? 0xE1)%N && (byte c2 =? 0x9A)%N && (byte c3 =? 0x80)%N)
  || ((byte c1 =? 0xE2)%N && (byte c2 =? 0x80)%N
      && (((0x80 <=? byte c3)%N && (byte c3 <=? 0x8A)%N)
          || (byte c3 =? 0xA8)%N || (byte c3 =? 0xA9)%N || (byte c3 =? 0xAF)%N))
  || ((byte c1 =? 0xE2)%N && (byte c2 =? 0x81)%N && (byte c3 =? 0x9F)%N)
  || ((byte c1 =? 0xE3)%N && (byte c2 =? 0x80)%N && (byte c3 =? 0x80)%N).

(** [strings.TrimLeftFunc(s, unicode.IsSpace)]: drop white-space runes
    from the front, stopping at the first rune that is not one (a byte
    that does not decode is the rune U+FFFD of width one, not a space). *)
Fixpoint trimLeftSpace (s : gostring) : gostring :=
  match s with
  | [] => []
  | c1 :: r1 =>
      if isAsciiSpace c1 then trimLeftSpace r1
      else match r1 with
           | [] => s
           | c2 :: r2 =>
               if isSpace2 c1 c2 then trimLeftSpace r2
               else match r2 with
                    | [] => s
                    | c3 :: r3 => if isSpace3 c1 c2 c3 then trimLeftSpace r3 else s
                    end
           end
  end.

(** The same from the back, on the reversed string: the last rune is a
    white space exactly when the string ends with one of the encodings. *)
Fixpoint trimLeftSpaceRev (s : gostring) : gostring :=
  match s with
  | [] => []
  | c1 :: r1 =>
      if isAsciiSpace c1 then trimLeftSpaceRev r1
      else match r1 with
           | [] => s
           | c2 :: r2 =>
               if isSpace2 c2 c1 then trimLeftSpaceRev r2
               else match r2 with
                    | [] => s
                    | c3 :: r3 => if isSpace3 c3 c2 c1 then trimLeftSpaceRev r3 else s
                    end
           end
  end.

Definition trimRightSpace (s : gostring) : gostring :=
  reverse (trimLeftSpaceRev (reverse s)).

(** [strings.TrimSpace(s)] *)
Definition TrimSpace (s : gostring) : gostring :=
  trimRightSpace (trimLeftSpace s).

(** [strings.Split(s, sep)] for a separator of one byte ([main.go] only
    splits on the line feed): the fields between the separators, one more
    than there are separators. *)
Fixpoint Split (s : gostring) (sep : ascii) : list gostring :=
  match s with
  | [] => [[]]
  | c :: s' =>
      if decide (c = sep) then [] :: Split s' sep
      else match Split s' sep with
           | [] => [[c]]
           | f :: fs => (c :: f) :: fs
           end
  end.

(** [strings.Join(elems, sep)] *)
Fixpoint Join (elems : list gostring) (sep : gostring) : gostring :=
  match elems with
  | [] => []
  | [e] => e
  | e :: es => e ++ sep ++ Join es sep
  end.

End Strings.

(** ** Package [path/filepath] (Unix), as far as [main.go] uses it *)

Module Filepath.

(** [filepath.IsAbs(path)] *)
Definition IsAbs (path : gostring) : bool :=
  match path with
  | c :: _ => bool_decide (c = slash)
  | [] => false
  end.

(** One element of the path read by [Clean], against the elements kept
    so far (most recent first): an empty element and [.] are skipped,
    [..] removes the last kept element when there is one that is not
    itself [..], is dropped at the root, and is kept otherwise. *)
Definition cleanStep (rooted : bool) (kept : list gostring) (elem : gostring)
  : list gostring :=
  if decide (elem = []) then kept
  else if decide (elem = str ".") then kept
  else if decide (elem = str "..") then
    match kept with
    | top :: below =>
        if decide (top = str "..") then (if rooted then kept else elem :: kept)
        else below
    | [] => if rooted then kept else [elem]
    end
  else elem :: kept.

(** [filepath.Clean(path)] *)
Definition Clean (path : gostring) : gostring :=
  match path with
  | [] => str "."
  | _ =>
      let rooted := IsAbs path in
      let kept := foldl (cleanStep rooted) [] (Strings.Split path slash) in
      let out := Strings.Join (reverse kept) [slash] in
      if rooted then slash :: out
      else match out with [] => str "." | _ => out end
  end.

(** [filepath.Join(a, b)]: the elements from the first non-empty one on,
    joined by the separator and cleaned; empty when all are empty. *)
Definition Join (a b : gostring) : gostring :=
  match a, b with
  | [], [] => []
  | [], _ => Clean b
  | _, _ => Clean (a ++ [slash] ++ b)
  end.

Fixpoint dropWhileSlash (s : gostring) : gostring :=
  match s with
  | c :: s' => if decide (c = slash) then dropWhileSlash s' else s
  | [] => []
  end.

Fixpoint takeWhileNotSlash (s : gostring) : gostring :=
  match s with
  | c :: s' => if decide (c = slash) then [] else c :: takeWhileNotSlash s'
  | [] => []
  end.

(** [filepath.Base(path)]: the last element of the path, after the
    trailing separators are removed. *)
Definition Base (path : gostring) : gostring :=
  match path with
  | [] => str "."
  | _ =>
      let stripped := dropWhileSlash (reverse path) in
      match reverse (takeWhileNotSlash stripped) with
      | [] => [slash]
      | last => last
      end
  end.

End Filepath.

(** ** The order of Go strings and [sort.Strings] *)

Module Sort.

(** [a <= b] on Go strings: byte-wise lexicographic. *)
Fixpoint leb (a b : gostring) : bool :=
  match a, b with
  | [], _ => true
  | _ :: _, [] => false
  | x :: a', y :: b' =>
      if (byte x <? byte y)%N then true
      else if (byte x =? byte y)%N then leb a' b'
      else false
  end.

Definition le (a b : gostring) : Prop := leb a b = true.

#[global] Instance le_dec : RelDecision le.
Proof. intros a b. unfold le. apply _. Defined.

(** [sort.Strings(x)]: [x] in ascending order. *)
Definition Strings (x : list gostring) : list gostring := merge_sort le x.

End Sort.

(** ** The runtime's choice of a map iteration order

    A [range] over a Go map visits the entries in an order that the
    runtime picks afresh for every statement.  The choice is a number, the
    seed: [pick seed l] is a permutation of [l], and every permutation of
    [l] is [pick seed l] for some seed. *)

Definition pick {A} (seed : nat) (l : list A) : list A :=
  let all := permutations l in
  default l (all !! (seed mod length all)).

Abbreviation Config := (gmap gostring (list gostring)).

(** The entries of [m] in the order of a [range] statement run with [seed]. *)
Definition rangeMap {V} (seed : nat) (m : gmap gostring V) : list (gostring * V) :=
  pick seed (map_to_list m).

(** ** The process environment: user database, working directory, files *)

Inductive File :=
| Dir (modTime : Z)
| Regular (modTime : Z) (content : gostring).

Record World := {
  homeDir : option gostring;      (* [user.Current()]: the home directory, if the lookup works *)
  workDir : option gostring;      (* [os.Getwd()] *)
  files : gmap gostring File;     (* the files, by path *)
  readOnly : gset gostring;       (* paths that cannot be written *)
  clock : Z                       (* the time stamped on written files *)
}.

Inductive error :=
| ErrUser                         (* [user.Current] failed *)
| ErrGetwd                        (* [os.Getwd] failed *)
| ErrNotExist (path : gostring)
| ErrIsDir (path : gostring)
| ErrNotDir (path : gostring)
| ErrNotEmpty (path : gostring)
| ErrPermission (path : gostring).

(** A Go result [(v, err)]. *)
Inductive Result (A : Type) :=
| Ok (v : A)
| Err (e : error).
Arguments Ok {A} v.
Arguments Err {A} e.

(** [v, err := f(); if err != nil { return err }; k v] is [v ← f; k v]. *)
#[global] Instance Result_bind : MBind Result := λ A B k r,
  match r with
  | Ok v => k v
  | Err e => Err e
  end.

Definition setFiles (w : World) (fs : gmap gostring File) : World :=
  {| homeDir := homeDir w; workDir := workDir w; files := fs;
     readOnly := readOnly w; clock := clock w |}.

Module Os.

Definition userCurrent (w : World) : Result gostring :=
  match homeDir w with Some h => Ok h | None => Err ErrUser end.

Definition Getwd (w : World) : Result gostring :=
  match workDir w with Some d => Ok d | None => Err ErrGetwd end.

(** [os.ReadFile(path)] *)
Definition ReadFile (w : World) (path : gostring) : Result gostring :=
  match files w !! path with
  | Some (Regular _ content) => Ok content
  | Some (Dir _) => Err (ErrIsDir path)
  | None => Err (ErrNotExist path)
  end.

(** [os.WriteFile(path, content, 0644)]: the file is created or
    truncated, and holds [content] afterwards. *)
Definition WriteFile (w : World) (path content : gostring) : Result World :=
  if decide (path ∈ readOnly w) then Err (ErrPermission path)
  else match files w !! path with
       | Some (Dir _) => Err (ErrIsDir path)
       | _ => Ok (setFiles w (<[path := Regular (clock w) content]> (files w)))
       end.

(** [dir] with the separator that precedes the name of an entry. *)
Definition entryPrefix (dir : gostring) : gostring :=
  if Strings.HasSuffix dir [slash] then dir else dir ++ [slash].

(** The name under which [path] is an entry of [dir], if it is one. *)
Definition entryName (dir path : gostring) : option gostring :=
  let pre := entryPrefix dir in
  if Strings.HasPrefix path pre then
    let name := drop (length pre) path in
    if decide (name ≠ [] ∧ slash ∉ name) then Some name else None
  else None.

Record DirEntry := { Name : gostring; IsDir : bool }.

Definition isDirFile (f : File) : bool :=
  match f with Dir _ => true | Regular _ _ => false end.

Definition entryOf (dir : gostring) (pf : gostring * File) : option DirEntry :=
  name ← entryName dir pf.1; Some {| Name := name; IsDir := isDirFile pf.2 |}.

Definition entryLe (a b : DirEntry) : Prop := Sort.le (Name a) (Name b).

#[global] Instance entryLe_dec : RelDecision entryLe.
Proof. intros a b. unfold entryLe. apply _. Defined.

(** [os.ReadDir(dir)]: the entries of the directory, sorted by name. *)
Definition ReadDir (w : World) (dir : gostring) : Result (list DirEntry) :=
  match files w !! dir with
  | Some (Dir _) =>
      Ok (merge_sort entryLe (omap (entryOf dir) (map_to_list (files w))))
  | Some (Regular _ _) => Err (ErrNotDir dir)
  | None => Err (ErrNotExist dir)
  end.

(** [os.Stat(path)], of which [main.go] reads the modification time. *)
Definition StatModTime (w : World) (path : gostring) : Result Z :=
  match files w !! path with
  | Some (Regular t _) | Some (Dir t) => Ok t
  | None => Err (ErrNotExist path)
  end.

(** [os.Remove(path)]: removes the file or the empty directory. *)
Definition Remove (w : World) (path : gostring) : Result World :=
  match files w !! path with
  | None => Err (ErrNotExist path)
  | Some (Regular _ _) => Ok (setFiles w (delete path (files w)))
  | Some (Dir _) =>
      match omap (entryOf path) (map_to_list (files w)) with
      | [] => Ok (setFiles w (delete path (files w)))
      | _ :: _ => Err (ErrNotEmpty path)
      end
  end.

End Os.

(** ** [main.go] *)

Definition sshDir : gostring := ".ssh"%string.
Definition configFile : gostring := "config"%string.
Definition keyFileExt : gostring := ".pub"%string.
Definition commentLine : gostring := "Comment: "%string.

Definition getSSHPath (w : World) : Result gostring :=
  home ← Os.userCurrent w; Ok (Filepath.Join home sshDir).

Definition getConfigPath (w : World) : Result gostring :=
  sshPath ← getSSHPath w; Ok (Filepath.Join sshPath configFile).

(** [filepath.Abs(path)] *)
Definition Abs (w : World) (path : gostring) : Result gostring :=
  if Filepath.IsAbs path then Ok (Filepath.Clean path)
  else wd ← Os.Getwd w; Ok (Filepath.Join wd path).

Definition expandPath (w : World) (path : gostring) : Result gostring :=
  if Strings.HasPrefix path "~"%string then
    home ← Os.userCurrent w; Ok (Filepath.Join home (drop 1 path))
  else Abs w path.

(** [getLastHost]: the host that the [range] over the map visits last,
    the empty string when the map is empty. *)
Definition getLastHost (seed : nat) (config : Config) : gostring :=
  foldl (λ _ entry, entry.1) [] (rangeMap seed config).

(** The body of the loop of [parseConfig], on one line. *)
Definition parseLine (w : World) (seed : nat) (config : Config) (line : gostring)
  : Result Config :=
  let line := Strings.TrimSpace line in
  if Strings.HasPrefix line "Host "%string then
    let host := Strings.TrimSpace (Strings.TrimPrefix line "Host "%string) in
    Ok (<[host := []]> config)
  else if Strings.HasPrefix line "IdentityFile "%string then
    keyPath ← expandPath w
      (Strings.TrimSpace (Strings.TrimPrefix line "IdentityFile "%string));
    let host := getLastHost seed config in
    Ok (<[host := (config !!! host) ++ [keyPath]]> config)
  else Ok config.

(** The loop of [parseConfig] from line [i] on; [seeds i] is the seed of
    the [range] that [getLastHost] runs on line [i]. *)
Fixpoint parseLines (w : World) (seeds : nat → nat) (i : nat)
    (config : Config) (lines : list gostring) : Result Config :=
  match lines with
  | [] => Ok config
  | line :: rest =>
      config' ← parseLine w (seeds i) config line;
      parseLines w seeds (S i) config' rest
  end.

(** The text of a config file, parsed. *)
Definition parseText (w : World) (seeds : nat → nat) (content : gostring)
  : Result Config :=
  parseLines w seeds 0 ∅ (Strings.Split content newline).

Definition parseConfig (w : World) (seeds : nat → nat) : Result Config :=
  configPath ← getConfigPath w;
  content ← Os.ReadFile w configPath;
  parseText w seeds content.

(** [fmt.Sprintf("Host %s", host)] *)
Definition hostLine (host : gostring) : gostring := "Host "%string ++ host.

(** [fmt.Sprintf("  IdentityFile %s", keyPath)] *)
Definition identityLine (keyPath : gostring) : gostring :=
  "  IdentityFile "%string ++ keyPath.

#[global] Arguments hostLine : simpl never.
#[global] Arguments identityLine : simpl never.

(** The lines that [writeConfig] appends for one host. *)
Definition hostLines (config : Config) (host : gostring) : list gostring :=
  hostLine host :: (identityLine <$> (config !!! host)) ++ [[]].

(** The text that [writeConfig] writes. *)
Definition configText (seed : nat) (config : Config) : gostring :=
  let hosts := Sort.Strings ((rangeMap seed config).*1) in
  let lines := hosts ≫= hostLines config in
  Strings.Join lines [newline].

Definition writeConfig (seed : nat) (path : gostring) (config : Config)
    (w : World) : Result World :=
  Os.WriteFile w path (configText seed config).

(** *** Commands

    A command runs on a [World] and ends normally, with the lines it printed,
    or in [log.Fatal]; both leave a world behind. *)

Inductive Outcome :=
| Done (w : World) (out : list gostring)
| Fatal (w : World) (e : error).

(** [v, err := f(); if err != nil { log.Fatal(err) }; k v] *)
Definition orFatal {A} (w : World) (r : Result A) (k : A → Outcome) : Outcome :=
  match r with
  | Ok v => k v
  | Err e => Fatal w e
  end.

Definition alreadyMappedMsg (host : gostring) : gostring :=
  "The host "%string ++ host ++
  " already has a key mapped. Please unmap the current key before mapping a new one."%string
  ++ [newline].

Definition mappedMsg (key host : gostring) : gostring :=
  "Mapped key "%string ++ key ++ " to host "%string ++ host ++ [newline].

Definition unmappedMsg (key host : gostring) : gostring :=
  "Unmapped key "%string ++ key ++ " from host "%string ++ host ++ [newline].

Definition deletedMsg (key : gostring) : gostring :=
  "Deleted key "%string ++ key ++ [newline].

(** [seeds] are the seeds of the parse, [wseed] the one of the write. *)
Definition mapKey (seeds : nat → nat) (wseed : nat) (key host : gostring)
    (w : World) : Outcome :=
  orFatal w (getConfigPath w) (λ configPath,
  orFatal w (parseConfig w seeds) (λ config,
    if decide (1 ≤ length (config !!! host)) then
      Done w [alreadyMappedMsg host]
    else
      let config := <[host := (config !!! host) ++ [key]]> config in
      orFatal w (writeConfig wseed configPath config w) (λ w',
        Done w' [mappedMsg key host]))).

(** The index of the first element of [keyPaths] equal to [key]: where
    the loops of [unmapKey] and [deleteKey] reach their [break]. *)
Fixpoint firstIndex (key : gostring) (keyPaths : list gostring) : option nat :=
  match keyPaths with
  | [] => None
  | keyPath :: rest =>
      if decide (keyPath = key) then Some 0 else S <$> firstIndex key rest
  end.

(** [append(keyPaths[:i], keyPaths[i+1:]...)] *)
Definition removeAt (i : nat) (keyPaths : list gostring) : list gostring :=
  take i keyPaths ++ drop (S i) keyPaths.

(** The mapping that [unmapKey] writes back. *)
Definition unmapConfig (key host : gostring) (config : Config) : Config :=
  let keyPaths := config !!! host in
  match firstIndex key keyPaths with
  | Some i => <[host := removeAt i keyPaths]> config
  | None => config
  end.

Definition unmapKey (seeds : nat → nat) (wseed : nat) (key host : gostring)
    (w : World) : Outcome :=
  orFatal w (getConfigPath w) (λ configPath,
  orFatal w (parseConfig w seeds) (λ config,
    let config := unmapConfig key host config in
    orFatal w (writeConfig wseed configPath config w) (λ w',
      Done w' [unmappedMsg key host]))).

Definition getFullKeyPath (w : World) (key : gostring) : Result gostring :=
  sshPath ← getSSHPath w;
  if Filepath.IsAbs key then Ok key else Ok (Filepath.Join sshPath key).

(** The body of the outer loop of [deleteKey], on one entry of the map. *)
Definition deleteStep (fullKeyPath : gostring) (config : Config)
    (entry : gostring * list gostring) : Config :=
  let '(host, keyPaths) := entry in
  match firstIndex fullKeyPath keyPaths with
  | Some i =>
      let keyPaths := removeAt i keyPaths in
      if decide (length keyPaths = 0) then delete host config
      else <[host := keyPaths]> config
  | None => config
  end.

(** The mapping that [deleteKey] writes back; the loop only changes the
    entry it is visiting, so it visits the entries the map had at first. *)
Definition deleteConfig (seed : nat) (fullKeyPath : gostring) (config : Config)
  : Config :=
  foldl (deleteStep fullKeyPath) config (rangeMap seed config).

(** [dseed] is the seed of the loop over the hosts. *)
Definition deleteKey (seeds : nat → nat) (dseed wseed : nat) (key : gostring)
    (w : World) : Outcome :=
  orFatal w (getFullKeyPath w key) (λ fullKeyPath,
  orFatal w (Os.Remove w fullKeyPath) (λ w1,
  let pubFilePath := fullKeyPath ++ ".pub"%string in
  orFatal w1 (Os.Remove w1 pubFilePath) (λ w2,
  orFatal w2 (getConfigPath w2) (λ configPath,
  orFatal w2 (parseConfig w2 seeds) (λ config,
    let config := deleteConfig dseed fullKeyPath config in
    orFatal w2 (writeConfig wseed configPath config w2) (λ w3,
      Done w3 [deletedMsg key])))))).

(** *** The key inventory *)

Record sshKey := {
  name : gostring;
  path : gostring;
  created : Z;
  comment : gostring
}.

Definition getFileCreationTime (w : World) (path : gostring) : Result Z :=
  Os.StatModTime w path.

(** The first line that starts with [commentLine], without that prefix. *)
Fixpoint firstComment (lines : list gostring) : gostring :=
  match lines with
  | [] => []
  | line :: rest =>
      if Strings.HasPrefix line commentLine then Strings.TrimPrefix line commentLine
      else firstComment rest
  end.

Definition getKeyComment (w : World) (path : gostring) : Result gostring :=
  content ← Os.ReadFile w path;
  Ok (firstComment (Strings.Split content newline)).

(** The loop of [getKeys] over the entries of the SSH directory. *)
Fixpoint scanKeys (w : World) (sshPath : gostring) (entries : list Os.DirEntry)
  : Result (list sshKey) :=
  match entries with
  | [] => Ok []
  | file :: rest =>
      if negb (Os.IsDir file) && Strings.HasSuffix (Os.Name file) keyFileExt then
        let keyName := Strings.TrimSuffix (Os.Name file) keyFileExt in
        let keyPath := Filepath.Join sshPath (Os.Name file) in
        created ← getFileCreationTime w keyPath;
        comment ← getKeyComment w keyPath;
        keys ← scanKeys w sshPath rest;
        Ok ({| name := keyName; path := keyPath;
               created := created; comment := comment |} :: keys)
      else scanKeys w sshPath rest
  end.

Definition getKeys (w : World) : Result (list sshKey) :=
  sshPath ← getSSHPath w;
  entries ← Os.ReadDir w sshPath;
  scanKeys w sshPath entries.

(** *** Usage analysis *)

(** The set [usedKeys] that [listUnusedKeys] builds: the base names of all
    the key paths of the config. *)
Definition usedKeys (seed : nat) (config : Config) : gmap gostring bool :=
  foldl (λ used entry,
           foldl (λ used keyPath, <[Filepath.Base keyPath := true]> used)
                 used entry.2)
        ∅ (rangeMap seed config).

(** [usedKeys[name]]: [false] when the name is not in the map. *)
Definition isUsedName (used : gmap gostring bool) (name : gostring) : bool :=
  default false (used !! name).

(** The slice [unusedKeys] of [listUnusedKeys], whose elements the command
    prints. *)
Definition unusedKeys (seed : nat) (keys : list sshKey) (config : Config)
  : list sshKey :=
  filter (λ key, isUsedName (usedKeys seed config) (name key) = false) keys.

Definition listUnusedKeys (seeds : nat → nat) (useed : nat) (w : World)
  : Result (list sshKey) :=
  keys ← getKeys w;
  config ← parseConfig w seeds;
  Ok (unusedKeys useed keys config).

(** [isKeyUsed]: the loops return [true] at the first stored key path
    whose base name is the key's. *)
Definition isKeyUsed (seed : nat) (key : sshKey) (config : Config) : bool :=
  existsb (λ entry,
             existsb (λ keyPath,
                        let keyBase :=
                          Strings.TrimSuffix (Filepath.Base (path key)) ".pub"%string in
                        bool_decide (keyBase = Filepath.Base keyPath))
                     entry.2)
          (rangeMap seed config).

(** The reverse mapping that [findMultipleMappings] builds first. *)
Definition keyMappings (seed : nat) (config : Config) : Config :=
  foldl (λ mappings entry,
           foldl (λ mappings keyPath,
                    <[keyPath := (mappings !!! keyPath) ++ [entry.1]]> mappings)
                 mappings entry.2)
        ∅ (rangeMap seed config).

(** [seed] is the seed of the loop over the config, [seed'] the one of
    the loop over the reverse mapping. *)
Definition findMultipleMappings (seed seed' : nat) (config : Config) : Config :=
  foldl (λ multiple entry,
           if decide (1 < length entry.2) then <[entry.1 := entry.2]> multiple
           else multiple)
        ∅ (rangeMap seed' (keyMappings seed config)).

(** The slice [unusedKeys] of [audit]: the keys for which [isKeyUsed]
    is false. *)
Definition auditUnusedKeys (seed : nat) (keys : list sshKey) (config : Config)
  : list sshKey :=
  filter (λ key, isKeyUsed seed key config = false) keys.

(** ** Notions used in the statements *)

(** A line that [parseConfig] reads as a host declaration. *)
Definition isHostLine (line : gostring) : bool :=
  Strings.HasPrefix (Strings.TrimSpace line) "Host "%string.

(** A line that [parseConfig] reads as an identity file. *)
Definition isIdentityLine (line : gostring) : bool :=
  negb (isHostLine line)
  && Strings.HasPrefix (Strings.TrimSpace line) "IdentityFile "%string.

(** The argument of an identity-file line, before expansion. *)
Definition identityArg (line : gostring) : gostring :=
  Strings.TrimSpace (Strings.TrimPrefix (Strings.TrimSpace line) "IdentityFile "%string).

(** Some host of the mapping has a key path whose base name is [keyName]. *)
Definition referenced (config : Config) (keyName : gostring) : Prop :=
  ∃ host keyPaths keyPath,
    config !! host = Some keyPaths ∧ keyPath ∈ keyPaths
    ∧ Filepath.Base keyPath = keyName.

(** A host name that the parser reads back as the writer wrote it: not
    empty, within one line, without space at either end. *)
Definition hostOk (host : gostring) : Prop :=
  host ≠ [] ∧ (newline ∉ host) ∧ Strings.TrimSpace host = host.

(** A key path that the parser reads back as the writer wrote it: not
    empty, within one line, without space at either end, and its own
    expansion (an absolute, clean path that does not start with a tilde). *)
Definition keyPathOk (w : World) (keyPath : gostring) : Prop :=
  keyPath ≠ [] ∧ (newline ∉ keyPath) ∧ Strings.TrimSpace keyPath = keyPath
  ∧ expandPath w keyPath = Ok keyPath.

(** A mapping all of whose host names and key paths are such. *)
Definition readsBack (w : World) (config : Config) : Prop :=
  ∀ host keyPaths, config !! host = Some keyPaths →
    hostOk host ∧ Forall (keyPathOk w) keyPaths.

(** No host but the least one has key paths: while the text of such a
    mapping is parsed, [getLastHost] only runs on maps of one host. *)
Definition keysOnFirstHost (config : Config) : Prop :=
  ∀ host host', is_Some (config !! host) → is_Some (config !! host') →
    host ≠ host' → Sort.le host host' → config !!! host' = [].

(** In the run [seeds], while the blocks of [hosts] are parsed from line
    [i] on with [parsed] read so far, every call of [getLastHost] returns
    the host of the block it is in. *)
Fixpoint lastHostRun (seeds : nat → nat) (config : Config) (i : nat)
    (parsed : Config) (hosts : list gostring) : Prop :=
  match hosts with
  | [] => True
  | host :: rest =>
      (∀ j, j < length (config !!! host) →
         getLastHost (seeds (S i + j)) (<[host := take j (config !!! host)]> parsed)
         = host)
      ∧ lastHostRun seeds config (i + length (config !!! host) + 2)
          (<[host := config !!! host]> parsed) rest
  end.

(** The number of entries of [keyPaths] equal to [keyPath]. *)
Definition occurrences (keyPath : gostring) (keyPaths : list gostring) : nat :=
  length (filter (λ entry, entry = keyPath) keyPaths).

(** The hosts of the visited entries, each as many times as its list
    holds [keyPath]. *)
Definition referencesOf (keyPath : gostring)
    (entries : list (gostring * list gostring)) : list gostring :=
  entries ≫= λ entry, replicate (occurrences keyPath entry.2) entry.1.

(** No host lists a key path twice. *)
Definition duplicateFree (config : Config) : Prop :=
  ∀ host keyPaths, config !! host = Some keyPaths → NoDup keyPaths.

(** *** The example of the specification *)

Definition exampleText : gostring :=
  "Host foo"%string ++ [newline] ++
  "  IdentityFile ~/.ssh/id_a"%string ++ [newline] ++
  [newline] ++
  "Host bar"%string ++ [newline] ++
  "  IdentityFile /abs/id_b"%string ++ [newline].

Definition exampleWorld : World :=
  {| homeDir := Some (str "/home/u");
     workDir := Some (str "/tmp");
     files := {[ str "/home/u/.ssh/config" := Regular 0 exampleText ]};
     readOnly := ∅;
     clock := 0 |}.

(** The mapping that the example should parse to. *)
Definition exampleExpected : Config :=
  {[ str "foo" := [str "/home/u/.ssh/id_a"]; str "bar" := [str "/abs/id_b"] ]}.

(** The run in which every [range] takes seed [0]; on the maps of the
    examples below that is the ascending order of the hosts. *)
Definition seeds0 : nat → nat := λ _, 0.

(** *** Further concrete worlds *)

Definition regularFiles (l : list (gostring * gostring)) : gmap gostring File :=
  list_to_map ((λ pc, (pc.1, Regular 0 pc.2)) <$> l).

(** A config with one host and one key. *)
Definition oneHostText : gostring :=
  "Host foo"%string ++ [newline] ++
  "  IdentityFile /abs/id_a"%string ++ [newline].

Definition oneHostWorld : World :=
  {| homeDir := Some (str "/home/u");
     workDir := Some (str "/tmp");
     files := regularFiles [(str "/home/u/.ssh/config", oneHostText)];
     readOnly := ∅;
     clock := 0 |}.

Definition oneHostConfig : Config := {[ str "foo" := [str "/abs/id_a"] ]}.

(** A config in which one host lists the same key twice, next to the
    files of that key. *)
Definition duplicateText : gostring :=
  "Host h"%string ++ [newline] ++
  "  IdentityFile /home/u/.ssh/k"%string ++ [newline] ++
  "  IdentityFile /home/u/.ssh/k"%string ++ [newline].

Definition duplicateWorld : World :=
  {| homeDir := Some (str "/home/u");
     workDir := Some (str "/tmp");
     files := regularFiles [(str "/home/u/.ssh/config", duplicateText);
                            (str "/home/u/.ssh/k", str "private");
                            (str "/home/u/.ssh/k.pub", str "public")];
     readOnly := ∅;
     clock := 0 |}.

Definition duplicateConfig : Config :=
  {[ str "h" := [str "/home/u/.ssh/k"; str "/home/u/.ssh/k"] ]}.

(** An SSH directory with two keys, the first of which is mapped. *)
Definition inventoryWorld : World :=
  {| homeDir := Some (str "/home/u");
     workDir := Some (str "/tmp");
     files :=
       <[str "/home/u/.ssh" := Dir 0]>
         (regularFiles
            [(str "/home/u/.ssh/config",
              "Host h"%string ++ [newline] ++ "  IdentityFile ~/.ssh/id_a"%string);
             (str "/home/u/.ssh/id_a", str "private");
             (str "/home/u/.ssh/id_a.pub", "ssh-ed25519 AAAA"%string ++ [newline]
                                           ++ "Comment: work"%string);
             (str "/home/u/.ssh/id_b", str "private");
             (str "/home/u/.ssh/id_b.pub", str "ssh-ed25519 BBBB")]);
     readOnly := ∅;
     clock := 0 |}.

Definition inventoryKeyA : sshKey :=
  {| name := str "id_a"; path := str "/home/u/.ssh/id_a.pub";
     created := 0; comment := str "work" |}.

Definition inventoryKeyB : sshKey :=
  {| name := str "id_b"; path := str "/home/u/.ssh/id_b.pub";
     created := 0; comment := [] |}.

Definition inventoryConfig : Config := {[ str "h" := [str "/home/u/.ssh/id_a"] ]}.

(** The world after the writer has written [oneHostConfig] back. *)
Definition oneHostWritten : World :=
  setFiles oneHostWorld
    (<[str "/home/u/.ssh/config" := Regular 0 (configText 0 oneHostConfig)]>
       (files oneHostWorld)).

(** A mapping as [map] builds it from a key given by its file name. *)
Definition relativeConfig : Config := {[ str "foo" := [str "id_rsa"] ]}.

(** A config whose first line is an identity file. *)
Definition orphanText : gostring :=
  "IdentityFile /abs/k"%string ++ [newline] ++ "Host a"%string.

Definition orphanWorld : World :=
  {| homeDir := Some (str "/home/u");
     workDir := Some (str "/tmp");
     files := regularFiles [(str "/home/u/.ssh/config", orphanText)];
     readOnly := ∅;
     clock := 0 |}.

(** ** Further notions *)

(** The host name of a line that [parseConfig] reads as a host
    declaration. *)
Definition hostArg (line : gostring) : gostring :=
  Strings.TrimSpace (Strings.TrimPrefix (Strings.TrimSpace line) "Host "%string).

(** The home and the working directory, when they resolve, are absolute
    paths. *)
Definition absoluteEnv (w : World) : Prop :=
  (∀ home, homeDir w = Some home → Filepath.IsAbs home = true)
  ∧ (∀ wd, workDir w = Some wd → Filepath.IsAbs wd = true).

(** [keyPath] is listed under some host of the mapping. *)
Definition listed (config : Config) (keyPath : gostring) : Prop :=
  ∃ host keyPaths, config !! host = Some keyPaths ∧ keyPath ∈ keyPaths.

(** No host has more than one key path. *)
Definition atMostOneKey (config : Config) : Prop :=
  ∀ host keyPaths, config !! host = Some keyPaths → length keyPaths ≤ 1.

(** The seeds of a run over a text from which line [n] was taken out. *)
Definition skipSeed (n : nat) (seeds : nat → nat) : nat → nat :=
  λ k, if decide (k < n) then seeds k else seeds (S k).

(** The expansions of the arguments of the identity-file lines among
    [lines], in order; the first expansion that fails is the result. *)
Fixpoint expandLines (w : World) (lines : list gostring) : Result (list gostring) :=
  match lines with
  | [] => Ok []
  | line :: rest =>
      if isIdentityLine line then
        keyPath ← expandPath w (identityArg line);
        keyPaths ← expandLines w rest;
        Ok (keyPath :: keyPaths)
      else expandLines w rest
  end.

(** The mapping that [mapKey] writes back, when it writes one: none when
    the host has a key already. *)
Definition mapConfig (key host : gostring) (config : Config) : option Config :=
  if decide (1 ≤ length (config !!! host)) then None
  else Some (<[host := (config !!! host) ++ [key]]> config).

(** A key string that a line of the config file carries as it is: not
    empty, within one line, without space at either end. *)
Definition lineSafe (key : gostring) : Prop :=
  key ≠ [] ∧ (newline ∉ key) ∧ Strings.TrimSpace key = key.

(** *** More concrete worlds *)

(** A private key file without its public key file. *)
Definition halfKeyWorld : World :=
  {| homeDir := Some (str "/home/u");
     workDir := Some (str "/tmp");
     files := regularFiles [(str "/home/u/.ssh/config", oneHostText);
                            (str "/home/u/.ssh/k", str "private")];
     readOnly := ∅;
     clock := 0 |}.


(** A config with a host that has no key. *)
Definition emptyHostWorld : World :=
  {| homeDir := Some (str "/home/u");
     workDir := Some (str "/tmp");
     files := regularFiles [(str "/home/u/.ssh/config", hostLine (str "foo"))];
     readOnly := ∅;
     clock := 0 |}.

(** A text that declares host [a] twice. *)
Definition redeclaredText : gostring :=
  "Host a"%string ++ [newline] ++ "  IdentityFile /x"%string ++ [newline]
  ++ "Host a"%string.

(** The one-host text after a comment line. *)
Definition commentedText : gostring :=
  "# keys"%string ++ [newline] ++ oneHostText.

(** A mapping of two hosts with absolute key paths, and the world after
    the writer has written it. *)
Definition twoHostConfig : Config :=
  <[str "bar" := [str "/abs/id_b"; str "/abs/id_c"]]> oneHostConfig.

Definition twoHostWritten : World :=
  setFiles oneHostWorld
    (<[str "/home/u/.ssh/config" := Regular 0 (configText 0 twoHostConfig)]>
       (files oneHostWorld)).

(** * Properties *)

(** ** Iteration orders *)

Lemma pick_Permutation {A} (seed : nat) (l : list A) : pick seed l ≡ₚ l.
Proof.
  unfold pick.
  destruct (permutations l !! (seed mod length (permutations l))) as [l'|] eqn:E;
    simpl; [|done].
  symmetry. apply permutations_Permutation. eapply list_elem_of_lookup_2, E.
Qed.

(** Every order is the choice of some seed. *)
Lemma pick_any {A} (l l' : list A) : l' ≡ₚ l → ∃ seed, pick seed l = l'.
Proof.
  intros Hp. symmetry in Hp.
  apply permutations_Permutation, list_elem_of_lookup_1 in Hp as [i Hi].
  exists i. unfold pick.
  rewrite Nat.mod_small by (eapply lookup_lt_Some, Hi).
  by rewrite Hi.
Qed.

Lemma rangeMap_Permutation {V} (seed : nat) (m : gmap gostring V) :
  rangeMap seed m ≡ₚ map_to_list m.
Proof. apply pick_Permutation. Qed.

Lemma elem_of_rangeMap {V} (seed : nat) (m : gmap gostring V) k v :
  (k, v) ∈ rangeMap seed m ↔ m !! k = Some v.
Proof. by rewrite rangeMap_Permutation, elem_of_map_to_list. Qed.

Lemma rangeMap_empty {V} (seed : nat) : rangeMap seed (∅ : gmap gostring V) = [].
Proof.
  apply Permutation_nil_r. rewrite rangeMap_Permutation. by rewrite map_to_list_empty.
Qed.

Lemma NoDup_rangeMap_keys {V} (seed : nat) (m : gmap gostring V) :
  NoDup (rangeMap seed m).*1.
Proof. rewrite rangeMap_Permutation. apply NoDup_fst_map_to_list. Qed.

(** [getLastHost] returns a host of the map, or the empty string on the
    empty map. *)
Lemma foldl_last_key {V} (l : list (gostring * V)) (h0 : gostring) :
  foldl (λ _ entry, entry.1) h0 l = h0 ∧ l = []
  ∨ ∃ v, (foldl (λ _ entry, entry.1) h0 l, v) ∈ l.
Proof.
  revert h0. induction l as [|[k v] l IH]; intros h0; [by left|right].
  simpl. destruct (IH k) as [[-> ->]|[v' Hv]].
  - exists v. simpl. apply list_elem_of_here.
  - exists v'. by apply list_elem_of_further.
Qed.

Lemma getLastHost_cases (seed : nat) (config : Config) :
  getLastHost seed config = [] ∧ config = ∅
  ∨ is_Some (config !! getLastHost seed config).
Proof.
  unfold getLastHost.
  destruct (foldl_last_key (rangeMap seed config) []) as [[-> Hnil]|[v Hv]].
  - left. split; [done|].
    apply map_to_list_empty_iff, Permutation_nil_r.
    by rewrite <- rangeMap_Permutation, Hnil.
  - right. exists v. by apply elem_of_rangeMap in Hv.
Qed.

(** ** Strings and paths *)

Lemma Split_not_nil s sep : Strings.Split s sep ≠ [].
Proof.
  destruct s as [|c s]; simpl; [done|].
  destruct (decide (c = sep)); [done|]. by destruct (Strings.Split s sep).
Qed.

Lemma Split_app s1 s2 sep :
  Strings.Split (s1 ++ sep :: s2) sep = Strings.Split s1 sep ++ Strings.Split s2 sep.
Proof.
  induction s1 as [|c s1 IH]; simpl.
  - by rewrite decide_True.
  - destruct (decide (c = sep)); [by rewrite IH|].
    rewrite IH. pose proof (Split_not_nil s1 sep).
    by destruct (Strings.Split s1 sep).
Qed.

Lemma Split_no_sep s sep : sep ∉ s → Strings.Split s sep = [s].
Proof.
  induction s as [|c s IH]; simpl; [done|].
  intros [Hne Hs]%not_elem_of_cons. rewrite decide_False by done.
  by rewrite IH.
Qed.

Lemma Join_snoc elems e sep :
  Strings.Join (elems ++ [e]) sep
  = match elems with [] => e | _ => Strings.Join elems sep ++ sep ++ e end.
Proof.
  induction elems as [|x l IH]; [done|].
  destruct l as [|y l]; [done|].
  change (Strings.Join ((x :: y :: l) ++ [e]) sep)
    with (x ++ sep ++ Strings.Join ((y :: l) ++ [e]) sep).
  rewrite IH.
  change (Strings.Join (x :: y :: l) sep) with (x ++ sep ++ Strings.Join (y :: l) sep).
  by rewrite <- !app_assoc.
Qed.

(** The base name of a path that ends with a name after a separator. *)
Lemma Base_name dir name :
  name ≠ [] → slash ∉ name → dir = [] ∨ (∃ dir', dir = dir' ++ [slash]) →
  Filepath.Base (dir ++ name) = name.
Proof.
  intros Hn Hs Hd.
  assert (∃ c r, reverse name = c :: r ∧ c ≠ slash ∧ slash ∉ r) as (c & r & Hr & Hc & Hsr).
  { destruct (reverse name) as [|c r] eqn:E.
    - by apply (f_equal reverse) in E; rewrite reverse_involutive in E.
    - exists c, r. split; [done|].
      assert (slash ∉ c :: r) as Hcr by (rewrite <- E; by rewrite elem_of_reverse).
      by apply not_elem_of_cons in Hcr as [? ?]. }
  assert (∀ l t, slash ∉ l → t = [] ∨ (∃ t', t = slash :: t') →
            Filepath.takeWhileNotSlash (l ++ t) = l) as Htake.
  { intros l t. induction l as [|x l IH]; simpl.
    - by intros _ [->|[t' ->]].
    - intros [Hx Hl]%not_elem_of_cons Ht. rewrite decide_False by done.
      by rewrite IH. }
  unfold Filepath.Base.
  destruct (dir ++ name) as [|x l] eqn:E.
  { apply app_eq_nil in E as [_ ?]. done. }
  rewrite <- E, reverse_app, Hr. simpl. rewrite decide_False by done.
  change (c :: r ++ reverse dir) with ((c :: r) ++ reverse dir).
  rewrite Htake.
  - rewrite <- Hr, reverse_involutive. by destruct name.
  - by apply not_elem_of_cons.
  - destruct Hd as [->|[dir' ->]]; [by left|right].
    rewrite reverse_app. simpl. by eexists.
Qed.

Lemma Clean_not_nil path : Filepath.Clean path ≠ [].
Proof.
  unfold Filepath.Clean. destruct path as [|c path]; [done|].
  destruct (Filepath.IsAbs (c :: path)); [done|].
  by destruct (Strings.Join _ _).
Qed.

(** A cleaned path that ended with a proper name still does. *)
Lemma Clean_name dir name :
  name ≠ [] → slash ∉ name → name ≠ str "." → name ≠ str ".." →
  ∃ pre, Filepath.Clean (dir ++ [slash] ++ name) = pre ++ name
         ∧ (pre = [] ∨ ∃ pre', pre = pre' ++ [slash]).
Proof.
  intros Hn Hs Hd Hdd. unfold Filepath.Clean.
  destruct (dir ++ [slash] ++ name) as [|x l] eqn:E.
  { by destruct dir. }
  rewrite <- E. simpl. rewrite Split_app, (Split_no_sep name) by done.
  rewrite foldl_app. simpl.
  assert (∀ rooted kept, Filepath.cleanStep rooted kept name = name :: kept) as Hstep.
  { intros rooted kept. unfold Filepath.cleanStep. by rewrite !decide_False by done. }
  rewrite Hstep. clear Hstep.
  set (kept := foldl _ [] (Strings.Split dir slash)).
  rewrite reverse_cons, Join_snoc.
  destruct (Filepath.IsAbs (dir ++ slash :: name)).
  - destruct (reverse kept) as [|k ks].
    + exists [slash]. split; [done|]. right. by exists [].
    + exists (slash :: Strings.Join (k :: ks) [slash] ++ [slash]). split.
      * simpl. by rewrite <- app_assoc.
      * right. by eexists (slash :: _).
  - destruct (reverse kept) as [|k ks].
    + exists []. split; [by destruct name|]. by left.
    + exists (Strings.Join (k :: ks) [slash] ++ [slash]). split.
      * rewrite <- !app_assoc.
        destruct (Strings.Join (k :: ks) [slash] ++ [slash] ++ name) eqn:E'; [|done].
        apply app_eq_nil in E' as [_ E']. by apply app_eq_nil in E' as [? _].
      * right. by eexists.
Qed.

Lemma Base_Join_name dir name :
  dir ≠ [] → name ≠ [] → slash ∉ name → name ≠ str "." → name ≠ str ".." →
  Filepath.Base (Filepath.Join dir name) = name.
Proof.
  intros Hdir Hn Hs Hd Hdd. unfold Filepath.Join.
  destruct dir as [|c dir]; [done|].
  destruct (Clean_name (c :: dir) name Hn Hs Hd Hdd) as (pre & -> & Hpre).
  by apply Base_name.
Qed.

(** ** Trimming, prefixes and lines *)

Lemma HasPrefix_app pre s : Strings.HasPrefix (pre ++ s) pre = true.
Proof.
  induction pre as [|c pre IH]; simpl; [by destruct s|]. by rewrite decide_True.
Qed.

Lemma TrimPrefix_app pre s : Strings.TrimPrefix (pre ++ s) pre = s.
Proof. unfold Strings.TrimPrefix. by rewrite HasPrefix_app, drop_app_length. Qed.

Lemma trimLeftSpace_suffix s : Strings.trimLeftSpace s `suffix_of` s.
Proof.
  assert (∀ n s, length s ≤ n → Strings.trimLeftSpace s `suffix_of` s) as H;
    [|by apply (H (length s))].
  clear s. induction n as [|n IH]; intros s Hn.
  { destruct s; [done|simpl in Hn; lia]. }
  destruct s as [|c1 [|c2 [|c3 r3]]]; simpl in *; try done.
  - destruct (Strings.isAsciiSpace c1); [by apply suffix_cons_r|done].
  - destruct (Strings.isAsciiSpace c1).
    { apply suffix_cons_r, (IH [c2]). simpl. lia. }
    destruct (Strings.isSpace2 c1 c2); [by do 2 apply suffix_cons_r|done].
  - destruct (Strings.isAsciiSpace c1).
    { apply suffix_cons_r, (IH (c2 :: c3 :: r3)). simpl. lia. }
    destruct (Strings.isSpace2 c1 c2).
    { do 2 apply suffix_cons_r. apply (IH (c3 :: r3)). simpl. lia. }
    destruct (Strings.isSpace3 c1 c2 c3); [|done].
    do 3 apply suffix_cons_r. apply IH. lia.
Qed.

Lemma trimLeftSpaceRev_suffix s : Strings.trimLeftSpaceRev s `suffix_of` s.
Proof.
  assert (∀ n s, length s ≤ n → Strings.trimLeftSpaceRev s `suffix_of` s) as H;
    [|by apply (H (length s))].
  clear s. induction n as [|n IH]; intros s Hn.
  { destruct s; [done|simpl in Hn; lia]. }
  destruct s as [|c1 [|c2 [|c3 r3]]]; simpl in *; try done.
  - destruct (Strings.isAsciiSpace c1); [by apply suffix_cons_r|done].
  - destruct (Strings.isAsciiSpace c1).
    { apply suffix_cons_r, (IH [c2]). simpl. lia. }
    destruct (Strings.isSpace2 c2 c1); [by do 2 apply suffix_cons_r|done].
  - destruct (Strings.isAsciiSpace c1).
    { apply suffix_cons_r, (IH (c2 :: c3 :: r3)). simpl. lia. }
    destruct (Strings.isSpace2 c2 c1).
    { do 2 apply suffix_cons_r. apply (IH (c3 :: r3)). simpl. lia. }
    destruct (Strings.isSpace3 c3 c2 c1); [|done].
    do 3 apply suffix_cons_r. apply IH. lia.
Qed.

Lemma suffix_same_length {A} (l1 l2 : list A) :
  l1 `suffix_of` l2 → length l2 ≤ length l1 → l1 = l2.
Proof.
  intros [k ->] Hl. rewrite length_app in Hl.
  destruct k; [done|simpl in Hl; lia].
Qed.

Lemma trimRightSpace_length s : length (Strings.trimRightSpace s) ≤ length s.
Proof.
  unfold Strings.trimRightSpace. rewrite length_reverse.
  rewrite <- (length_reverse s). apply suffix_length, trimLeftSpaceRev_suffix.
Qed.

(** A string that [TrimSpace] leaves alone has no space at either end. *)
Lemma TrimSpace_fixed s :
  Strings.TrimSpace s = s →
  Strings.trimLeftSpace s = s ∧ Strings.trimLeftSpaceRev (reverse s) = reverse s.
Proof.
  intros H. unfold Strings.TrimSpace in H.
  assert (Strings.trimLeftSpace s = s) as Hl.
  { apply suffix_same_length; [apply trimLeftSpace_suffix|].
    rewrite <- H at 1. apply trimRightSpace_length. }
  split; [done|]. rewrite Hl in H. unfold Strings.trimRightSpace in H.
  apply (f_equal reverse) in H. by rewrite reverse_involutive in H.
Qed.

Lemma not_isSpace2_ascii c2 c1 : (byte c2 < 128)%N → Strings.isSpace2 c2 c1 = false.
Proof.
  intros H. unfold Strings.isSpace2.
  destruct (N.eqb_spec (byte c2) 194); [lia|done].
Qed.

Lemma not_isSpace3_ascii_1 c3 c2 c1 :
  (byte c3 < 128)%N → Strings.isSpace3 c3 c2 c1 = false.
Proof.
  intros H. unfold Strings.isSpace3.
  destruct (N.eqb_spec (byte c3) 225); [lia|].
  destruct (N.eqb_spec (byte c3) 226); [lia|].
  destruct (N.eqb_spec (byte c3) 227); [lia|]. done.
Qed.

Lemma not_isSpace3_ascii_2 c3 c2 c1 :
  (byte c2 < 128)%N → Strings.isSpace3 c3 c2 c1 = false.
Proof.
  intros H. unfold Strings.isSpace3.
  destruct (N.eqb_spec (byte c2) 154); [lia|].
  destruct (N.eqb_spec (byte c2) 128); [lia|].
  destruct (N.eqb_spec (byte c2) 129); [lia|].
  by rewrite !andb_false_r.
Qed.

(** Text before a string that ends without space is kept by the trim from
    the right, when it ends with an ASCII byte. *)
Lemma trimLeftSpaceRev_app rs rp :
  rs ≠ [] → Strings.trimLeftSpaceRev rs = rs →
  (∀ c r, rp = c :: r → (byte c < 128)%N) →
  Strings.trimLeftSpaceRev (rs ++ rp) = rs ++ rp.
Proof.
  intros Hne Hrs Hrp.
  assert (∀ t, length (Strings.trimLeftSpaceRev t) ≤ length t) as Hlen
    by (intros t; apply suffix_length, trimLeftSpaceRev_suffix).
  destruct rs as [|c1 rs]; [done|].
  simpl in Hrs |- *.
  destruct (Strings.isAsciiSpace c1).
  { pose proof (Hlen rs) as Hl. rewrite Hrs in Hl. simpl in Hl. lia. }
  destruct rs as [|c2 rs]; simpl in Hrs |- *.
  { destruct rp as [|c2 rp]; [done|].
    rewrite not_isSpace2_ascii by eauto.
    destruct rp as [|c3 rp]; [done|].
    by rewrite not_isSpace3_ascii_2 by eauto. }
  destruct (Strings.isSpace2 c2 c1).
  { pose proof (Hlen rs) as Hl. rewrite Hrs in Hl. simpl in Hl. lia. }
  destruct rs as [|c3 rs]; simpl in Hrs |- *.
  { destruct rp as [|c3 rp]; [done|].
    by rewrite not_isSpace3_ascii_1 by eauto. }
  destruct (Strings.isSpace3 c3 c2 c1); [|done].
  pose proof (Hlen rs) as Hl. rewrite Hrs in Hl. simpl in Hl. lia.
Qed.

Lemma trimRightSpace_app pre s :
  s ≠ [] → Strings.trimLeftSpaceRev (reverse s) = reverse s →
  (∀ c r, reverse pre = c :: r → (byte c < 128)%N) →
  Strings.trimRightSpace (pre ++ s) = pre ++ s.
Proof.
  intros Hne Hs Hpre. unfold Strings.trimRightSpace.
  rewrite reverse_app, trimLeftSpaceRev_app; try done.
  - by rewrite <- reverse_app, reverse_involutive.
  - intros E. apply (f_equal reverse) in E. by rewrite reverse_involutive in E.
Qed.

Lemma Join_cons e es sep :
  es ≠ [] → Strings.Join (e :: es) sep = e ++ sep ++ Strings.Join es sep.
Proof. by destruct es. Qed.

(** Lines without line feed are the lines of the text they are joined to. *)
Lemma Split_Join lines :
  lines ≠ [] → Forall (λ line, newline ∉ line) lines →
  Strings.Split (Strings.Join lines [newline]) newline = lines.
Proof.
  induction lines as [|l lines IH]; [done|].
  intros _ [Hl Hls]%Forall_cons. destruct lines as [|l' lines].
  { simpl. by apply Split_no_sep. }
  rewrite Join_cons by done.
  change (l ++ [newline] ++ Strings.Join (l' :: lines) [newline])
    with (l ++ newline :: Strings.Join (l' :: lines) [newline]).
  by rewrite Split_app, IH, Split_no_sep.
Qed.
(** ** The parser *)

Lemma expandPath_ok w home wd path :
  homeDir w = Some home → workDir w = Some wd →
  ∃ keyPath, expandPath w path = Ok keyPath.
Proof.
  intros Hh Hw. unfold expandPath, Abs, Os.userCurrent, Os.Getwd.
  rewrite Hh, Hw.
  destruct (Strings.HasPrefix path "~"%string); simpl; [by eexists|].
  destruct (Filepath.IsAbs path); simpl; by eexists.
Qed.

Lemma parseLines_app w seeds i config lines1 lines2 :
  parseLines w seeds i config (lines1 ++ lines2)
  = config' ← parseLines w seeds i config lines1;
    parseLines w seeds (i + length lines1) config' lines2.
Proof.
  revert i config. induction lines1 as [|l lines1 IH]; intros i config; simpl.
  - by rewrite Nat.add_0_r.
  - destruct (parseLine w (seeds i) config l) as [c|e]; simpl; [|done].
    rewrite IH. by replace (S i + length lines1) with (i + S (length lines1)) by lia.
Qed.

(** A line never removes a host. *)
Lemma parseLine_dom w seed config line config' :
  parseLine w seed config line = Ok config' → dom config ⊆ dom config'.
Proof.
  unfold parseLine. intros H.
  destruct (Strings.HasPrefix _ "Host "%string).
  { injection H as <-. set_solver. }
  destruct (Strings.HasPrefix _ "IdentityFile "%string).
  - destruct (expandPath w _) as [p|e]; simpl in H; [|done].
    injection H as <-. set_solver.
  - by injection H as <-.
Qed.

Lemma parseLines_dom w seeds lines i config config' :
  parseLines w seeds i config lines = Ok config' → dom config ⊆ dom config'.
Proof.
  revert i config. induction lines as [|l lines IH]; intros i config; simpl.
  - intros H. by simplify_eq.
  - destruct (parseLine w (seeds i) config l) as [c|e] eqn:E; simpl; [|done].
    intros H. apply parseLine_dom in E. apply IH in H. set_solver.
Qed.

(** The parser only fails where the path expansion does. *)
Lemma parseLine_ok w home wd seed config line :
  homeDir w = Some home → workDir w = Some wd →
  ∃ config', parseLine w seed config line = Ok config'.
Proof.
  intros Hh Hw. unfold parseLine.
  destruct (Strings.HasPrefix _ "Host "%string); [by eexists|].
  destruct (Strings.HasPrefix _ "IdentityFile "%string); [|by eexists].
  destruct (expandPath_ok w home wd
    (Strings.TrimSpace (Strings.TrimPrefix (Strings.TrimSpace line) "IdentityFile "%string))
    Hh Hw) as [p ->].
  by eexists.
Qed.

Lemma parseLines_ok w home wd seeds lines i config :
  homeDir w = Some home → workDir w = Some wd →
  ∃ config', parseLines w seeds i config lines = Ok config'.
Proof.
  intros Hh Hw. revert i config.
  induction lines as [|l lines IH]; intros i config; simpl; [by eexists|].
  destruct (parseLine_ok w home wd (seeds i) config l Hh Hw) as [c ->]. simpl.
  apply IH.
Qed.

(** While no host is declared the map has no host but the empty string,
    which is then the host that [getLastHost] returns. *)
Lemma getLastHost_no_host (seed : nat) (config : Config) :
  dom config ⊆ {[ [] ]} → getLastHost seed config = [].
Proof.
  intros Hd. destruct (getLastHost_cases seed config) as [[-> _]|Hs]; [done|].
  apply elem_of_dom in Hs. set_solver.
Qed.

Lemma parseLine_identity w seed config line :
  isIdentityLine line = true →
  parseLine w seed config line
  = keyPath ← expandPath w (identityArg line);
    Ok (<[getLastHost seed config :=
            (config !!! getLastHost seed config) ++ [keyPath]]> config).
Proof.
  unfold isIdentityLine, isHostLine, parseLine, identityArg.
  intros [Hh Hi]%andb_true_iff. apply negb_true_iff in Hh.
  by rewrite Hh, Hi.
Qed.

Lemma parseLine_no_host w seed config line config' :
  isHostLine line = false → dom config ⊆ {[ [] ]} →
  parseLine w seed config line = Ok config' → dom config' ⊆ {[ [] ]}.
Proof.
  intros Hh Hd. unfold parseLine. unfold isHostLine in Hh. rewrite Hh.
  destruct (Strings.HasPrefix _ "IdentityFile "%string).
  - destruct (expandPath w _) as [p|e]; simpl; [|done].
    intros [= <-]. rewrite (getLastHost_no_host seed config Hd), dom_insert_L.
    by apply union_least.
  - intros H. by simplify_eq.
Qed.

Lemma parseLines_no_host w seeds lines i config config' :
  Forall (λ line, isHostLine line = false) lines → dom config ⊆ {[ [] ]} →
  parseLines w seeds i config lines = Ok config' → dom config' ⊆ {[ [] ]}.
Proof.
  intros Hl. revert i config. induction Hl as [|l lines Hh Hl' IH];
    intros i config Hd; simpl.
  - intros H. by simplify_eq.
  - destruct (parseLine w (seeds i) config l) as [c|e] eqn:E; simpl; [|done].
    eapply IH, parseLine_no_host; eauto.
Qed.

(** C10.  When the home and the working directory can be resolved and
    the config file can be read, a file in which an [IdentityFile] line
    comes before every [Host] line is parsed without error: the expanded
    path of that line is appended to the key list of the host with the
    empty name, which is the only host of the map at that point, and the
    mapping that [parseConfig] returns has the empty name among its hosts. *)
Theorem parseConfig_identity_before_host
    (w : World) (seeds : nat → nat) (home wd text : gostring)
    (before : list gostring) (line : gostring) (after : list gostring) :
  homeDir w = Some home → workDir w = Some wd →
  Os.ReadFile w (Filepath.Join (Filepath.Join home sshDir) configFile) = Ok text →
  Strings.Split text newline = before ++ line :: after →
  Forall (λ l, isHostLine l = false) before →
  isIdentityLine line = true →
  ∃ (keyPath : gostring) (earlier : list gostring) (config1 config : Config),
    expandPath w (identityArg line) = Ok keyPath
    ∧ parseLines w seeds 0 ∅ (before ++ [line]) = Ok config1
    ∧ config1 !! [] = Some (earlier ++ [keyPath])
    ∧ dom config1 = {[ [] ]}
    ∧ parseConfig w seeds = Ok config
    ∧ is_Some (config !! []).
Proof.
  intros Hh Hw Hr Hs Hb Hl.
  destruct (expandPath_ok w home wd (identityArg line) Hh Hw) as [keyPath Hk].
  destruct (parseLines_ok w home wd seeds before 0 ∅ Hh Hw) as [config0 H0].
  assert (dom config0 ⊆ {[ [] ]}) as Hd0.
  { eapply parseLines_no_host; [exact Hb| |exact H0]. set_solver. }
  pose proof (getLastHost_no_host (seeds (length before)) config0 Hd0) as Hg.
  set (config1 := <[ [] := (config0 !!! []) ++ [keyPath] ]> config0).
  assert (parseLines w seeds 0 ∅ (before ++ [line]) = Ok config1) as H1.
  { rewrite parseLines_app, H0. simpl.
    rewrite (parseLine_identity _ _ _ _ Hl), Hk. simpl. by rewrite Hg. }
  destruct (parseLines_ok w home wd seeds after (0 + length (before ++ [line])) config1 Hh Hw)
    as [config H2].
  exists keyPath, (config0 !!! []), config1, config.
  split; [done|]. split; [done|].
  split; [apply lookup_insert_eq|].
  split.
  { unfold config1. rewrite dom_insert_L, (comm_L (∪)).
    by apply subseteq_union_1_L. }
  split.
  - unfold parseConfig, getConfigPath, getSSHPath, Os.userCurrent.
    rewrite Hh. simpl. rewrite Hr. simpl. unfold parseText. rewrite Hs.
    replace (before ++ line :: after) with ((before ++ [line]) ++ after)
      by (by rewrite <- app_assoc).
    rewrite parseLines_app, H1. simpl. exact H2.
  - apply parseLines_dom in H2. apply elem_of_dom.
    apply H2. unfold config1. set_solver.
Qed.

(** C1.  On the example file, in the run whose [range] statements visit
    the hosts in ascending order, [getLastHost] returns [foo] after [bar]
    was declared: the identity file of [bar] is appended to the keys of
    [foo], and the result is not the mapping of the example. *)
Theorem parseConfig_example_misplaced :
  (rangeMap 0 ({[ str "foo" := [str "/home/u/.ssh/id_a"]; str "bar" := [] ]} : Config)).*1
    = [str "bar"; str "foo"]
  ∧ parseConfig exampleWorld seeds0
    = Ok {[ str "foo" := [str "/home/u/.ssh/id_a"; str "/abs/id_b"];
            str "bar" := [] ]}
  ∧ parseConfig exampleWorld seeds0 ≠ Ok exampleExpected.
Proof.
  split; [vm_compute; reflexivity|].
  assert (parseConfig exampleWorld seeds0
    = Ok {[ str "foo" := [str "/home/u/.ssh/id_a"; str "/abs/id_b"];
            str "bar" := [] ]}) as E.
  { vm_compute. reflexivity. }
  rewrite E. split; [done|].
  intros H. vm_compute in H. discriminate H.
Qed.

(** ** The order of strings and the writer *)

Lemma byte_inj (x y : ascii) : byte x = byte y → x = y.
Proof.
  unfold byte. intros H.
  by rewrite <- (ascii_N_embedding x), <- (ascii_N_embedding y), H.
Qed.

#[global] Instance Sort_le_refl : Reflexive Sort.le.
Proof.
  intros a. unfold Sort.le. induction a as [|x a IH]; simpl; [done|].
  by rewrite N.ltb_irrefl, N.eqb_refl.
Qed.

#[global] Instance Sort_le_trans : Transitive Sort.le.
Proof.
  unfold Sort.le. intros a. induction a as [|x a IH]; intros [|y b] [|z c]; simpl;
    try done.
  destruct (N.ltb_spec (byte x) (byte y)), (N.ltb_spec (byte y) (byte z)),
    (N.ltb_spec (byte x) (byte z)); try done; try lia;
    destruct (N.eqb_spec (byte x) (byte y)), (N.eqb_spec (byte y) (byte z)),
      (N.eqb_spec (byte x) (byte z)); try done; try lia.
  apply IH.
Qed.

#[global] Instance Sort_le_antisym : AntiSymm (=) Sort.le.
Proof.
  unfold Sort.le. intros a. induction a as [|x a IH]; intros [|y b]; simpl; try done.
  destruct (N.ltb_spec (byte x) (byte y)), (N.ltb_spec (byte y) (byte x));
    try lia;
    destruct (N.eqb_spec (byte x) (byte y)), (N.eqb_spec (byte y) (byte x));
    try done; try lia.
  intros H1 H2. f_equal; [by apply byte_inj|by apply IH].
Qed.

#[global] Instance Sort_le_total : Total Sort.le.
Proof.
  unfold Sort.le. intros a. induction a as [|x a IH]; intros [|y b]; simpl;
    try (by left); try (by right).
  destruct (N.ltb_spec (byte x) (byte y)), (N.ltb_spec (byte y) (byte x));
    try lia; try (by left); try (by right).
  destruct (N.eqb_spec (byte x) (byte y)), (N.eqb_spec (byte y) (byte x));
    try lia. apply IH.
Qed.

Lemma Sort_Strings_Permutation (x : list gostring) : Sort.Strings x ≡ₚ x.
Proof. apply merge_sort_Permutation. Qed.

Lemma Sort_Strings_Sorted (x : list gostring) : Sorted Sort.le (Sort.Strings x).
Proof. apply (Sorted_merge_sort _). Qed.

(** The sorted slice does not depend on the order of the input. *)
Lemma Sort_Strings_order (x y : list gostring) :
  x ≡ₚ y → Sort.Strings x = Sort.Strings y.
Proof.
  intros Hp. apply (Sorted_unique Sort.le); try apply Sort_Strings_Sorted.
  by rewrite !Sort_Strings_Permutation.
Qed.

Lemma configText_seed (seed seed' : nat) (config : Config) :
  configText seed' config = configText seed config.
Proof.
  unfold configText. f_equal. f_equal.
  apply Sort_Strings_order. by rewrite !rangeMap_Permutation.
Qed.

(** C3.  The text that the writer produces is the lines, joined by line
    feeds, of one block per host of the mapping: the hosts without
    repetition in ascending byte-wise order, each block made of the line
    [Host <name>], one line [  IdentityFile <path>] per key path of the
    host in the order of its list, and an empty line.  The text does not
    depend on the order in which the map is visited.  A write that succeeds
    leaves the file with exactly this text, whatever it held before, and
    all other files as they were; a write only fails on a path that cannot
    be written. *)
Theorem writeConfig_spec (seed : nat) (path : gostring) (config : Config) (w : World) :
  ∃ hosts : list gostring,
    (∀ host, host ∈ hosts ↔ is_Some (config !! host))
    ∧ NoDup hosts
    ∧ Sorted Sort.le hosts
    ∧ configText seed config
      = Strings.Join
          (hosts ≫= λ host,
             ("Host "%string ++ host)
             :: ((λ keyPath, "  IdentityFile "%string ++ keyPath) <$> (config !!! host))
             ++ [[]])
          [newline]
    ∧ (∀ seed', configText seed' config = configText seed config)
    ∧ match writeConfig seed path config w with
      | Ok w' =>
          Os.ReadFile w' path = Ok (configText seed config)
          ∧ ∀ other, other ≠ path → files w' !! other = files w !! other
      | Err _ => path ∈ readOnly w ∨ ∃ t, files w !! path = Some (Dir t)
      end.
Proof.
  exists (Sort.Strings ((rangeMap seed config).*1)).
  assert (Sort.Strings ((rangeMap seed config).*1) ≡ₚ (map_to_list config).*1) as Hp.
  { by rewrite Sort_Strings_Permutation, rangeMap_Permutation. }
  split; [|split; [|split; [|split; [|split]]]].
  - intros host. rewrite Hp, list_elem_of_fmap. split.
    + intros [[k v] [-> Hkv]]. exists v. by apply elem_of_map_to_list.
    + intros [v Hv]. exists (host, v). split; [done|]. by apply elem_of_map_to_list.
  - rewrite Hp. apply NoDup_fst_map_to_list.
  - apply Sort_Strings_Sorted.
  - reflexivity.
  - intros seed'. apply configText_seed.
  - unfold writeConfig, Os.WriteFile.
    destruct (decide (path ∈ readOnly w)); [by left|].
    destruct (files w !! path) as [[t|t c]|] eqn:E; [right; by eexists| |].
    all: split; [unfold Os.ReadFile; simpl; by rewrite lookup_insert_eq|].
    all: intros other Ho; simpl; by rewrite lookup_insert_ne.
Qed.

(** ** The mapping commands *)

(** A config that was parsed is a regular file at the config path. *)
Lemma parseConfig_inv w seeds config :
  parseConfig w seeds = Ok config →
  ∃ configPath t content,
    getConfigPath w = Ok configPath
    ∧ files w !! configPath = Some (Regular t content)
    ∧ parseText w seeds content = Ok config.
Proof.
  unfold parseConfig. destruct (getConfigPath w) as [configPath|e]; simpl; [|done].
  unfold Os.ReadFile.
  destruct (files w !! configPath) as [[t|t content]|] eqn:E; simpl; try done.
  intros H. by exists configPath, t, content.
Qed.

(** Writing over a regular file only fails when the path is read-only. *)
Lemma writeConfig_regular seed path config w t content :
  files w !! path = Some (Regular t content) →
  writeConfig seed path config w
  = if decide (path ∈ readOnly w) then Err (ErrPermission path)
    else Ok (setFiles w (<[path := Regular (clock w) (configText seed config)]> (files w))).
Proof.
  intros H. unfold writeConfig, Os.WriteFile. rewrite H.
  by destruct (decide (path ∈ readOnly w)).
Qed.

(** C4.  After a successful parse: when the host has a key, [map] prints
    the conflict and stops, in the world it started in (nothing is
    written); when it has none, the key, whatever string it is, is appended
    to the host's list and the config file is replaced by the text of that
    mapping, or the command is fatal when the file cannot be written. *)
Theorem mapKey_spec (seeds : nat → nat) (wseed : nat) (key host : gostring)
    (w : World) (config : Config) :
  parseConfig w seeds = Ok config →
  ∃ configPath,
    getConfigPath w = Ok configPath
    ∧ (1 ≤ length (config !!! host) →
       mapKey seeds wseed key host w = Done w [alreadyMappedMsg host])
    ∧ (length (config !!! host) = 0 →
       let config' := <[host := (config !!! host) ++ [key]]> config in
       config' !! host = Some [key]
       ∧ mapKey seeds wseed key host w
         = if decide (configPath ∈ readOnly w) then Fatal w (ErrPermission configPath)
           else Done (setFiles w (<[configPath := Regular (clock w) (configText wseed config')]>
                                    (files w)))
                     [mappedMsg key host]).
Proof.
  intros Hp. destruct (parseConfig_inv _ _ _ Hp) as (configPath & t & content & Hc & Hf & _).
  exists configPath. split; [done|]. unfold mapKey. rewrite Hc, Hp. simpl. split.
  - intros Hl. by rewrite decide_True.
  - intros Hl. split.
    { apply length_zero_iff_nil in Hl. rewrite Hl. apply lookup_insert_eq. }
    rewrite decide_False by lia.
    rewrite (writeConfig_regular _ _ _ _ _ _ Hf).
    by destruct (decide (configPath ∈ readOnly w)).
Qed.

Lemma firstIndex_None key keyPaths :
  key ∉ keyPaths → firstIndex key keyPaths = None.
Proof.
  induction keyPaths as [|p l IH]; simpl; [done|].
  intros [Hne Hl]%not_elem_of_cons. rewrite decide_False by done.
  by rewrite IH.
Qed.

Lemma firstIndex_first key before after :
  key ∉ before → firstIndex key (before ++ key :: after) = Some (length before).
Proof.
  induction before as [|p l IH]; simpl.
  - intros _. by rewrite decide_True.
  - intros [Hne Hl]%not_elem_of_cons. rewrite decide_False by done.
    by rewrite IH.
Qed.

Lemma removeAt_middle before key after :
  removeAt (length before) (before ++ key :: after) = before ++ after.
Proof.
  unfold removeAt. rewrite take_app_length.
  replace (S (length before)) with (length before + 1) by lia.
  by rewrite drop_app_add.
Qed.

(** C5.  After a successful parse, the mapping that [unmap] writes back
    is the parsed one with, under the given host, the first entry equal to
    the key (as a byte string) removed: entries after it, equal or not, and
    the other hosts stay.  When no entry is equal it is the parsed mapping
    itself.  In both cases the config file is replaced by the text of that
    mapping and the success message is printed, or the command is fatal
    when the file cannot be written. *)
Theorem unmapKey_spec (seeds : nat → nat) (wseed : nat) (key host : gostring)
    (w : World) (config : Config) :
  parseConfig w seeds = Ok config →
  ∃ (configPath : gostring) (config' : Config),
    getConfigPath w = Ok configPath
    ∧ (∀ before after,
         config !!! host = before ++ key :: after → key ∉ before →
         config' = <[host := before ++ after]> config)
    ∧ (key ∉ config !!! host → config' = config)
    ∧ (∀ other, other ≠ host → config' !! other = config !! other)
    ∧ unmapKey seeds wseed key host w
      = if decide (configPath ∈ readOnly w) then Fatal w (ErrPermission configPath)
        else Done (setFiles w (<[configPath := Regular (clock w) (configText wseed config')]>
                                 (files w)))
                  [unmappedMsg key host].
Proof.
  intros Hp. destruct (parseConfig_inv _ _ _ Hp) as (configPath & t & content & Hc & Hf & _).
  exists configPath, (unmapConfig key host config).
  split; [done|]. split; [|split; [|split]].
  - intros before after Hl Hb. unfold unmapConfig.
    by rewrite Hl, firstIndex_first, removeAt_middle.
  - intros Hn. unfold unmapConfig. by rewrite firstIndex_None.
  - intros other Ho. unfold unmapConfig.
    destruct (firstIndex key (config !!! host)); [|done].
    by rewrite lookup_insert_ne.
  - unfold unmapKey. rewrite Hc, Hp. simpl.
    rewrite (writeConfig_regular _ _ _ _ _ _ Hf).
    by destruct (decide (configPath ∈ readOnly w)).
Qed.

(** ** The key inventory and the usage analysis *)

Lemma getSSHPath_not_nil w sshPath : getSSHPath w = Ok sshPath → sshPath ≠ [].
Proof.
  unfold getSSHPath, Os.userCurrent. destruct (homeDir w) as [home|]; simpl; [|done].
  intros [= <-]. unfold Filepath.Join.
  destruct home; [by vm_compute|apply Clean_not_nil].
Qed.

(** The names of the entries of a directory are proper names. *)
Lemma ReadDir_names w dir entries :
  Os.ReadDir w dir = Ok entries →
  Forall (λ file, Os.Name file ≠ [] ∧ slash ∉ Os.Name file) entries.
Proof.
  unfold Os.ReadDir. destruct (files w !! dir) as [[t|t c]|]; try done.
  intros [= <-]. rewrite merge_sort_Permutation.
  apply Forall_forall. intros file [pf [_ Hf]]%list_elem_of_omap.
  unfold Os.entryOf, Os.entryName in Hf.
  destruct (Strings.HasPrefix _ _); simpl in Hf; [|done].
  destruct (decide _) as [Hn|]; simpl in Hf; [|done].
  by injection Hf as <-.
Qed.

(** Every key of the inventory comes from a public-key file of the SSH
    directory: its name is the file name without the extension, its path
    the file name under the directory. *)
Lemma scanKeys_keys w sshPath entries keys :
  scanKeys w sshPath entries = Ok keys →
  Forall (λ key, ∃ file, file ∈ entries
            ∧ Strings.HasSuffix (Os.Name file) keyFileExt = true
            ∧ name key = Strings.TrimSuffix (Os.Name file) keyFileExt
            ∧ path key = Filepath.Join sshPath (Os.Name file)) keys.
Proof.
  revert keys. induction entries as [|file rest IH]; intros keys; simpl.
  { intros [= <-]. constructor. }
  destruct (negb (Os.IsDir file) && Strings.HasSuffix (Os.Name file) keyFileExt) eqn:E.
  - destruct (getFileCreationTime w _) as [t|]; simpl; [|done].
    destruct (getKeyComment w _) as [c|]; simpl; [|done].
    destruct (scanKeys w sshPath rest) as [keys'|]; simpl; [|done].
    intros [= <-]. apply andb_true_iff in E as [_ E]. constructor.
    + exists file. split; [left|done].
    + eapply Forall_impl; [by apply IH|].
      intros key (f & Hf & H). exists f. split; [by right|done].
  - intros H. eapply Forall_impl; [by apply IH|].
    intros key (f & Hf & H'). exists f. split; [by right|done].
Qed.

Lemma pub_name_proper fname :
  Strings.HasSuffix fname keyFileExt = true → fname ≠ str "." ∧ fname ≠ str "..".
Proof. intros H. split; intros ->; vm_compute in H; discriminate H. Qed.

(** The base name of the path of a key is the name of its file. *)
Lemma getKeys_keys w keys :
  getKeys w = Ok keys →
  Forall (λ key, ∃ fname,
            Strings.HasSuffix fname keyFileExt = true
            ∧ name key = Strings.TrimSuffix fname keyFileExt
            ∧ Filepath.Base (path key) = fname) keys.
Proof.
  unfold getKeys. destruct (getSSHPath w) as [sshPath|] eqn:Hs; simpl; [|done].
  destruct (Os.ReadDir w sshPath) as [entries|] eqn:Hr; simpl; [|done].
  intros Hk. apply scanKeys_keys in Hk. apply ReadDir_names in Hr.
  apply getSSHPath_not_nil in Hs.
  eapply Forall_impl; [exact Hk|]. intros key (file & Hf & Hsuf & Hname & Hpath).
  exists (Os.Name file). split; [done|]. split; [done|].
  rewrite Forall_forall in Hr. destruct (Hr file Hf) as [Hn Hsl].
  destruct (pub_name_proper _ Hsuf). rewrite Hpath. by apply Base_Join_name.
Qed.

(** [usedKeys] holds the base names of the key paths, and nothing else. *)
Lemma usedKeys_inner (keyPaths : list gostring) (used : gmap gostring bool) n :
  foldl (λ used keyPath, <[Filepath.Base keyPath := true]> used) used keyPaths !! n
    = Some true
  ↔ used !! n = Some true ∨ ∃ keyPath, keyPath ∈ keyPaths ∧ Filepath.Base keyPath = n.
Proof.
  revert used. induction keyPaths as [|p l IH]; intros used; simpl.
  - split; [by left|]. intros [?|(? & []%elem_of_nil & _)]; done.
  - rewrite IH. split.
    + intros [H|(kp & Hkp & Hb)].
      * destruct (decide (Filepath.Base p = n)) as [<-|Hne].
        -- right. exists p. split; [left|done].
        -- left. by rewrite lookup_insert_ne in H.
      * right. exists kp. split; [by right|done].
    + intros [H|(kp & Hkp & Hb)].
      * destruct (decide (Filepath.Base p = n)) as [<-|Hne].
        -- left. apply lookup_insert_eq.
        -- left. by rewrite lookup_insert_ne.
      * apply elem_of_cons in Hkp as [->|Hkp].
        -- left. rewrite <- Hb. apply lookup_insert_eq.
        -- right. by exists kp.
Qed.

Lemma usedKeys_outer (entries : list (gostring * list gostring))
    (used : gmap gostring bool) n :
  foldl (λ used entry,
           foldl (λ used keyPath, <[Filepath.Base keyPath := true]> used)
                 used entry.2) used entries !! n = Some true
  ↔ used !! n = Some true
    ∨ ∃ entry keyPath, entry ∈ entries ∧ keyPath ∈ entry.2 ∧ Filepath.Base keyPath = n.
Proof.
  revert used. induction entries as [|e l IH]; intros used; simpl.
  - split; [by left|]. intros [?|(? & ? & []%elem_of_nil & _)]; done.
  - rewrite IH, usedKeys_inner. split.
    + intros [[H|(kp & Hkp & Hb)]|(e' & kp & He & Hkp & Hb)].
      * by left.
      * right. exists e, kp. split; [left|done].
      * right. exists e', kp. split; [by right|done].
    + intros [H|(e' & kp & He & Hkp & Hb)].
      * by left; left.
      * apply elem_of_cons in He as [->|He].
        -- left; right. by exists kp.
        -- right. by exists e', kp.
Qed.

Lemma isUsedName_referenced (seed : nat) (config : Config) n :
  isUsedName (usedKeys seed config) n = true ↔ referenced config n.
Proof.
  unfold isUsedName, usedKeys, referenced.
  transitivity (usedKeys seed config !! n = Some true).
  { fold (usedKeys seed config).
    destruct (usedKeys seed config !! n) as [[]|]; simpl; split; done. }
  unfold usedKeys.
  rewrite usedKeys_outer, lookup_empty. split.
  - intros [?|([h kps] & kp & He & Hkp & Hb)]; [done|].
    exists h, kps, kp. by apply elem_of_rangeMap in He.
  - intros (h & kps & kp & He & Hkp & Hb). right.
    exists (h, kps), kp. split; [by apply elem_of_rangeMap|done].
Qed.

Lemma isKeyUsed_referenced (seed : nat) (key : sshKey) (config : Config) :
  isKeyUsed seed key config = true
  ↔ referenced config (Strings.TrimSuffix (Filepath.Base (path key)) ".pub"%string).
Proof.
  unfold isKeyUsed, referenced. rewrite existsb_exists. split.
  - intros ([h kps] & He & Hx). apply existsb_exists in Hx as (kp & Hkp & Hb).
    apply bool_decide_eq_true in Hb.
    exists h, kps, kp. apply list_elem_of_In, elem_of_rangeMap in He.
    by apply list_elem_of_In in Hkp.
  - intros (h & kps & kp & He & Hkp & Hb).
    exists (h, kps). split; [by apply list_elem_of_In, elem_of_rangeMap|].
    apply existsb_exists. exists kp. split; [by apply list_elem_of_In|].
    by apply bool_decide_eq_true.
Qed.

Lemma filter_ext_elem {A} (P Q : A → Prop) `{!∀ x, Decision (P x)}
    `{!∀ x, Decision (Q x)} (l : list A) :
  (∀ x, x ∈ l → P x ↔ Q x) → filter P l = filter Q l.
Proof.
  induction l as [|x l IH]; intros Hext; [done|].
  rewrite !filter_cons.
  destruct (decide (P x)) as [HP|HP], (decide (Q x)) as [HQ|HQ].
  - f_equal. apply IH. intros y Hy. apply Hext. by right.
  - destruct HQ. apply Hext; [left|done].
  - destruct HP. apply Hext; [left|done].
  - apply IH. intros y Hy. apply Hext. by right.
Qed.

(** C9.  For the keys of an inventory, the test of the [unused] command
    (the key's name is among the base names of the stored key paths) and
    [isKeyUsed] of the [audit] command (the base name of the key's own path
    without [.pub] is the base name of a stored key path) give the same
    answer, whatever the mapping and the orders in which the two commands
    visit it; the two commands find the same unused keys. *)
Theorem used_computations_agree (w : World) (keys : list sshKey)
    (config : Config) (seed seed' : nat) :
  getKeys w = Ok keys →
  (∀ key, key ∈ keys →
     isUsedName (usedKeys seed config) (name key) = isKeyUsed seed' key config)
  ∧ unusedKeys seed keys config = auditUnusedKeys seed' keys config.
Proof.
  intros Hk. apply getKeys_keys in Hk. rewrite Forall_forall in Hk.
  assert (∀ key, key ∈ keys →
     isUsedName (usedKeys seed config) (name key) = isKeyUsed seed' key config) as H.
  { intros key Hkey. destruct (Hk key Hkey) as (fname & _ & Hname & Hbase).
    pose proof (isUsedName_referenced seed config (name key)) as H1.
    pose proof (isKeyUsed_referenced seed' key config) as H2.
    rewrite Hbase in H2. change (str ".pub") with keyFileExt in H2.
    rewrite <- Hname in H2.
    destruct (isUsedName _ _), (isKeyUsed _ _ _); try done.
    - symmetry. apply H2, H1. done.
    - apply H1, H2. done. }
  split; [done|]. unfold unusedKeys, auditUnusedKeys.
  apply filter_ext_elem. intros key Hkey. by rewrite (H key Hkey).
Qed.

(** C6.  The [unused] command, on an inventory and a parsed mapping,
    returns the keys of the inventory, in its order, whose name is not the
    base name of any stored key path of any host, the name of a key being
    the name of its public-key file without [.pub].  With two keys of
    different names and a mapping of one host to one key path whose base
    name is the first key's, it returns the second key alone. *)
Theorem listUnusedKeys_spec (seeds : nat → nat) (useed : nat) (w : World)
    (keys : list sshKey) (config : Config) :
  getKeys w = Ok keys → parseConfig w seeds = Ok config →
  ∃ unused,
    listUnusedKeys seeds useed w = Ok unused
    ∧ (∀ key, key ∈ keys →
         ∃ fname, Strings.HasSuffix fname ".pub"%string = true
                  ∧ Filepath.Base (path key) = fname
                  ∧ name key = Strings.TrimSuffix fname ".pub"%string)
    ∧ (∀ key, key ∈ unused ↔ key ∈ keys ∧ ¬ referenced config (name key))
    ∧ unused `sublist_of` keys
    ∧ (∀ ka kb host keyPath,
         keys = [ka; kb] → name ka ≠ name kb →
         config = {[ host := [keyPath] ]} → Filepath.Base keyPath = name ka →
         unused = [kb]).
Proof.
  intros Hk Hp. exists (unusedKeys useed keys config).
  split; [|split; [|split; [|split]]].
  - unfold listUnusedKeys. by rewrite Hk, Hp.
  - intros key Hkey. apply getKeys_keys in Hk. rewrite Forall_forall in Hk.
    destruct (Hk key Hkey) as (fname & ? & ? & ?). by exists fname.
  - intros key. unfold unusedKeys. rewrite list_elem_of_filter. split.
    + intros [Hf Hkey]. split; [done|].
      rewrite <- (isUsedName_referenced useed). by rewrite Hf.
    + intros [Hkey Hn]. split; [|done].
      rewrite <- (isUsedName_referenced useed) in Hn. by apply not_true_iff_false.
  - apply sublist_filter.
  - intros ka kb host keyPath -> Hne -> Hb. unfold unusedKeys.
    rewrite !filter_cons, filter_nil.
    assert (referenced {[host := [keyPath]]} (name ka)) as Ha.
    { exists host, [keyPath], keyPath.
      split; [apply lookup_singleton_eq|]. split; [left|done]. }
    assert (¬ referenced {[host := [keyPath]]} (name kb)) as Hb'.
    { intros (h & kps & kp & Hl & Hkp & Hbase).
      apply lookup_singleton_Some in Hl as [<- <-].
      apply list_elem_of_singleton in Hkp as ->. congruence. }
    rewrite <- (isUsedName_referenced useed) in Ha, Hb'.
    apply not_true_iff_false in Hb'.
    rewrite decide_False by congruence. by rewrite decide_True.
Qed.

(** ** Parsing what the writer wrote *)

Lemma parseLine_blank w seed config : parseLine w seed config [] = Ok config.
Proof. reflexivity. Qed.

Lemma TrimSpace_after pre s :
  s ≠ [] → Strings.TrimSpace s = s →
  Strings.trimLeftSpace (pre ++ s) = pre ++ s →
  (∀ c r, reverse pre = c :: r → (byte c < 128)%N) →
  Strings.TrimSpace (pre ++ s) = pre ++ s.
Proof.
  intros Hne Hs Hl Hpre. unfold Strings.TrimSpace. rewrite Hl.
  apply trimRightSpace_app; try done. by apply TrimSpace_fixed.
Qed.

Lemma parseLine_host w seed config host :
  hostOk host →
  parseLine w seed config (hostLine host) = Ok (<[host := []]> config).
Proof.
  intros (Hne & _ & Ht). unfold parseLine, hostLine.
  rewrite (TrimSpace_after "Host "%string host Hne Ht).
  - by rewrite HasPrefix_app, TrimPrefix_app, Ht.
  - by destruct host as [|? [|? ?]].
  - intros c r [= <- _]. by vm_compute.
Qed.

Lemma parseLine_key w seed config keyPath :
  keyPathOk w keyPath →
  parseLine w seed config (identityLine keyPath)
  = Ok (<[getLastHost seed config :=
            (config !!! getLastHost seed config) ++ [keyPath]]> config).
Proof.
  intros (Hne & _ & Ht & He). unfold parseLine, identityLine.
  assert (Strings.TrimSpace ("  IdentityFile "%string ++ keyPath)
          = "IdentityFile "%string ++ keyPath) as ->.
  { unfold Strings.TrimSpace.
    assert (Strings.trimLeftSpace ("  IdentityFile "%string ++ keyPath)
            = "IdentityFile "%string ++ keyPath) as -> by done.
    apply trimRightSpace_app; try done.
    - by apply TrimSpace_fixed.
    - intros c r [= <- _]. by vm_compute. }
  assert (Strings.HasPrefix ("IdentityFile "%string ++ keyPath) "Host "%string = false)
    as -> by done.
  by rewrite HasPrefix_app, TrimPrefix_app, Ht, He.
Qed.

Lemma bind_Ok {A B} (v : A) (k : A → Result B) : (x ← Ok v; k x) = k v.
Proof. reflexivity. Qed.

Lemma parseLines_cons w seeds i config line rest :
  parseLines w seeds i config (line :: rest)
  = config' ← parseLine w (seeds i) config line;
    parseLines w seeds (S i) config' rest.
Proof. reflexivity. Qed.

Section blocks.
Context (w : World) (seeds : nat → nat) (config : Config).

(** The identity-file lines of a block, when [getLastHost] returns the
    host of the block on each of them. *)
Lemma parseLines_keys (rest done tail : list gostring) i parsed host :
  Forall (keyPathOk w) rest →
  (∀ j, j < length rest →
     getLastHost (seeds (i + j)) (<[host := done ++ take j rest]> parsed) = host) →
  parseLines w seeds i (<[host := done]> parsed)
    ((identityLine <$> rest) ++ tail)
  = parseLines w seeds (i + length rest) (<[host := done ++ rest]> parsed) tail.
Proof.
  revert done i. induction rest as [|p rest IH]; intros done i Hk Hg.
  { simpl. by rewrite Nat.add_0_r, app_nil_r. }
  apply Forall_cons in Hk as [Hp Hk].
  rewrite fmap_cons, <- app_comm_cons, parseLines_cons.
  rewrite (parseLine_key _ _ _ _ Hp), bind_Ok.
  pose proof (Hg 0 ltac:(simpl; lia)) as H0.
  rewrite Nat.add_0_r in H0. simpl in H0. rewrite app_nil_r in H0.
  rewrite H0, lookup_total_insert_eq, insert_insert_eq.
  rewrite (IH (done ++ [p]) (S i) Hk).
  - rewrite <- app_assoc. simpl. f_equal. lia.
  - intros j Hj. specialize (Hg (S j) ltac:(simpl; lia)).
    rewrite <- app_assoc. simpl in Hg |- *.
    by replace (i + S j) with (S (i + j)) in Hg by lia.
Qed.

Lemma parseLines_block (tail : list gostring) i parsed host :
  hostOk host → Forall (keyPathOk w) (config !!! host) →
  (∀ j, j < length (config !!! host) →
     getLastHost (seeds (S i + j)) (<[host := take j (config !!! host)]> parsed)
     = host) →
  parseLines w seeds i parsed (hostLines config host ++ tail)
  = parseLines w seeds (i + length (config !!! host) + 2)
      (<[host := config !!! host]> parsed) tail.
Proof.
  intros Hh Hk Hg. unfold hostLines.
  rewrite <- app_comm_cons, parseLines_cons.
  rewrite (parseLine_host _ _ _ _ Hh), bind_Ok.
  rewrite <- app_assoc.
  rewrite (parseLines_keys (config !!! host) [] _ (S i) parsed host Hk Hg).
  rewrite app_nil_l, <- app_comm_cons, parseLines_cons, parseLine_blank, bind_Ok.
  rewrite app_nil_l. f_equal. lia.
Qed.

Lemma parseLines_blocks (hosts : list gostring) i parsed :
  Forall hostOk hosts →
  Forall (λ host, Forall (keyPathOk w) (config !!! host)) hosts →
  lastHostRun seeds config i parsed hosts →
  parseLines w seeds i parsed (hosts ≫= hostLines config)
  = Ok (foldl (λ parsed host, <[host := config !!! host]> parsed) parsed hosts).
Proof.
  revert i parsed. induction hosts as [|host hosts IH]; intros i parsed Hh Hk Hr.
  { done. }
  apply Forall_cons in Hh as [Hh Hhs]. apply Forall_cons in Hk as [Hk Hks].
  destruct Hr as [Hg Hr]. rewrite bind_cons.
  rewrite (parseLines_block _ _ _ _ Hh Hk Hg). simpl. by apply IH.
Qed.
End blocks.

(** The blocks of all hosts, in any order, build the mapping. *)
Lemma foldl_insert_hosts (config : Config) (hosts : list gostring) :
  NoDup hosts → (∀ host, host ∈ hosts ↔ is_Some (config !! host)) →
  foldl (λ parsed host, <[host := config !!! host]> parsed) ∅ hosts = config.
Proof.
  intros Hnd Hdom.
  assert (∀ hosts (parsed : Config) k,
    foldl (λ parsed host, <[host := config !!! host]> parsed) parsed hosts !! k
    = if decide (k ∈ hosts) then Some (config !!! k) else parsed !! k) as Hfold.
  { clear. intros hosts. induction hosts as [|h hosts IH]; intros parsed k;
      simpl foldl.
    - rewrite decide_False; [done|apply not_elem_of_nil].
    - rewrite IH. destruct (decide (k ∈ hosts)) as [Hin|Hin].
      + rewrite decide_True; [done|by right].
      + destruct (decide (k = h)) as [->|Hne].
        * rewrite decide_True by left. apply lookup_insert_eq.
        * rewrite decide_False by (by intros [?|?]%elem_of_cons).
          by apply lookup_insert_ne. }
  apply map_eq. intros k. rewrite Hfold, lookup_empty.
  destruct (decide (k ∈ hosts)) as [Hin|Hin].
  - apply Hdom in Hin as [v Hv]. by rewrite (lookup_total_correct _ _ _ Hv).
  - destruct (config !! k) eqn:E; [|done]. destruct Hin. apply Hdom. by eexists.
Qed.

Lemma newline_not_in_line (pre : string) (s : gostring) :
  bool_decide (newline ∈ str pre) = false → newline ∉ s → newline ∉ str pre ++ s.
Proof.
  intros Hpre%bool_decide_eq_false Hs [Hin|Hin]%elem_of_app; done.
Qed.

Lemma newline_not_in_lines (w : World) (config : Config) (hosts : list gostring) :
  readsBack w config → (∀ host, host ∈ hosts → is_Some (config !! host)) →
  Forall (λ line, newline ∉ line) (hosts ≫= hostLines config).
Proof.
  intros Hrb. induction hosts as [|h hosts IH]; intros Hdom; [constructor|].
  rewrite bind_cons. apply Forall_app. split.
  - destruct (Hdom h ltac:(left)) as [ks Hks].
    destruct (Hrb h ks Hks) as [(_ & Hn & _) Hk].
    unfold hostLines. rewrite (lookup_total_correct _ _ _ Hks).
    constructor.
    { by apply newline_not_in_line. }
    apply Forall_app. split; [|by repeat constructor; inversion 1].
    apply Forall_fmap. eapply Forall_impl; [exact Hk|].
    intros p (_ & Hp & _). by apply newline_not_in_line.
  - apply IH. intros host Hin. apply Hdom. by right.
Qed.

(** The text of a mapping is parsed back to it in the runs in which
    [getLastHost] returns the host declared last. *)
Lemma parseText_configText (w : World) (seeds : nat → nat) (wseed : nat)
    (config : Config) :
  readsBack w config →
  lastHostRun seeds config 0 ∅ (Sort.Strings ((rangeMap wseed config).*1)) →
  parseText w seeds (configText wseed config) = Ok config.
Proof.
  intros Hrb Hrun. unfold parseText, configText.
  set (hosts := Sort.Strings ((rangeMap wseed config).*1)) in *.
  assert (hosts ≡ₚ (map_to_list config).*1) as Hp.
  { unfold hosts. by rewrite Sort_Strings_Permutation, rangeMap_Permutation. }
  assert (∀ host, host ∈ hosts ↔ is_Some (config !! host)) as Hdom.
  { intros host. rewrite Hp, list_elem_of_fmap. split.
    - intros [[k v] [-> Hkv]]. exists v. by apply elem_of_map_to_list.
    - intros [v Hv]. exists (host, v). split; [done|]. by apply elem_of_map_to_list. }
  assert (NoDup hosts) as Hnd by (rewrite Hp; apply NoDup_fst_map_to_list).
  assert (parseLines w seeds 0 ∅ (hosts ≫= hostLines config) = Ok config) as Hparse.
  { assert (Forall hostOk hosts) as Hh.
    { apply Forall_forall. intros h [ks Hks]%Hdom. by destruct (Hrb h ks Hks). }
    assert (Forall (λ host, Forall (keyPathOk w) (config !!! host)) hosts) as Hk.
    { apply Forall_forall. intros h [ks Hks]%Hdom.
      rewrite (lookup_total_correct _ _ _ Hks). by destruct (Hrb h ks Hks). }
    rewrite (parseLines_blocks w seeds config hosts 0 ∅ Hh Hk Hrun).
    by rewrite foldl_insert_hosts. }
  destruct (hosts ≫= hostLines config) as [|l ls] eqn:E.
  { rewrite <- Hparse. reflexivity. }
  rewrite Split_Join; [done|done|]. rewrite <- E.
  apply (newline_not_in_lines w); [done|]. intros host. apply Hdom.
Qed.

Lemma getLastHost_singleton (seed : nat) host (keyPaths : list gostring) :
  getLastHost seed (<[host := keyPaths]> ∅) = host.
Proof.
  destruct (getLastHost_cases seed (<[host := keyPaths]> ∅)) as [[_ H]|[v H]].
  - by apply insert_non_empty in H.
  - apply lookup_insert_Some in H as [[? _]|[_ H]]; [done|].
    by rewrite lookup_empty in H.
Qed.

Lemma lastHostRun_no_keys (seeds : nat → nat) (config : Config) hosts i parsed :
  (∀ host, host ∈ hosts → config !!! host = []) →
  lastHostRun seeds config i parsed hosts.
Proof.
  revert i parsed. induction hosts as [|h hosts IH]; intros i parsed H; [done|].
  split.
  - intros j Hj. rewrite (H h) in Hj by left. simpl in Hj. lia.
  - apply IH. intros host Hin. apply H. by right.
Qed.

(** When only the least host has key paths, every run is such a run. *)
Lemma lastHostRun_first (seeds : nat → nat) (config : Config) hosts :
  keysOnFirstHost config → Sorted Sort.le hosts → NoDup hosts →
  (∀ host, host ∈ hosts → is_Some (config !! host)) →
  lastHostRun seeds config 0 ∅ hosts.
Proof.
  intros Hfirst Hs Hnd Hdom. destruct hosts as [|h hosts]; [done|]. split.
  - intros j _. apply getLastHost_singleton.
  - apply lastHostRun_no_keys. intros host Hin.
    apply (Sorted_StronglySorted _) in Hs. apply StronglySorted_inv in Hs as [_ Hle].
    rewrite Forall_forall in Hle. apply NoDup_cons in Hnd as [Hnin _].
    apply (Hfirst h host).
    + apply Hdom. left.
    + apply Hdom. by right.
    + by intros ->.
    + by apply Hle.
Qed.

(** Some order of the map ends with any given host of it. *)
Lemma getLastHost_some (config : Config) host keyPaths :
  config !! host = Some keyPaths → ∃ seed, getLastHost seed config = host.
Proof.
  intros H.
  destruct (pick_any (map_to_list config)
              (map_to_list (delete host config) ++ [(host, keyPaths)])) as [seed Hs].
  { rewrite <- Permutation_cons_append. by apply map_to_list_delete. }
  exists seed. unfold getLastHost, rangeMap. by rewrite Hs, foldl_app.
Qed.

Lemma choose_seeds (n : nat) (P : nat → nat → Prop) :
  (∀ j, j < n → ∃ seed, P j seed) → ∃ f : nat → nat, ∀ j, j < n → P j (f j).
Proof.
  induction n as [|n IH]; intros H.
  { exists (λ _, 0). intros j Hj. lia. }
  destruct IH as [f Hf]; [intros j Hj; apply H; lia|].
  destruct (H n ltac:(lia)) as [s Hs].
  exists (λ j, if decide (j = n) then s else f j). intros j Hj.
  destruct (decide (j = n)) as [->|Hne]; [done|]. apply Hf. lia.
Qed.

Lemma lastHostRun_ext (seeds seeds' : nat → nat) (config : Config) hosts i parsed :
  (∀ k, i ≤ k → seeds k = seeds' k) →
  lastHostRun seeds config i parsed hosts → lastHostRun seeds' config i parsed hosts.
Proof.
  revert i parsed. induction hosts as [|h hosts IH]; intros i parsed He; [done|].
  intros [Hg Hr]. split.
  - intros j Hj. rewrite <- He by lia. by apply Hg.
  - eapply IH; [|exact Hr]. intros k Hk. apply He. lia.
Qed.

(** Such a run always exists. *)
Lemma lastHostRun_exists (config : Config) hosts i parsed :
  ∃ seeds, lastHostRun seeds config i parsed hosts.
Proof.
  revert i parsed. induction hosts as [|h hosts IH]; intros i parsed.
  { by exists (λ _, 0). }
  set (ks := config !!! h).
  destruct (IH (i + length ks + 2) (<[h := ks]> parsed)) as [seedsR HR].
  destruct (choose_seeds (length ks)
    (λ j seed, getLastHost seed (<[h := take j ks]> parsed) = h)) as [f Hf].
  { intros j _. eapply getLastHost_some. apply lookup_insert_eq. }
  exists (λ k, if decide (k < i + length ks + 2) then f (k - S i) else seedsR k).
  split.
  - intros j Hj. fold ks in Hj |- *. rewrite decide_True by lia.
    replace (S i + j - S i) with j by lia. by apply Hf.
  - fold ks. eapply lastHostRun_ext; [|exact HR].
    intros k Hk. simpl. by rewrite decide_False by lia.
Qed.

Lemma expandPath_setFiles w fs keyPath :
  expandPath (setFiles w fs) keyPath = expandPath w keyPath.
Proof. reflexivity. Qed.

Lemma readsBack_setFiles w fs config :
  readsBack w config → readsBack (setFiles w fs) config.
Proof.
  intros H host ks Hks. destruct (H host ks Hks) as [Hh Hk]. split; [done|].
  eapply Forall_impl; [exact Hk|]. intros p (? & ? & ? & ?). done.
Qed.

(** C2, amended.  Take a mapping whose host names are not empty, hold no
    line feed and have no space at either end, and whose key paths are
    likewise and are their own expansion.  When the writer has written it
    to the config file, the parser reads the same mapping back in every
    run if no host but the least one has key paths, in particular if there
    is at most one host; in general it reads it back in some run. *)
Theorem parse_write_roundtrip (w w' : World) (wseed : nat)
    (configPath : gostring) (config : Config) :
  readsBack w config →
  getConfigPath w = Ok configPath →
  writeConfig wseed configPath config w = Ok w' →
  (keysOnFirstHost config → ∀ seeds, parseConfig w' seeds = Ok config)
  ∧ (size config ≤ 1 → ∀ seeds, parseConfig w' seeds = Ok config)
  ∧ (∃ seeds, parseConfig w' seeds = Ok config).
Proof.
  intros Hrb Hc Hw.
  assert (w' = setFiles w (<[configPath := Regular (clock w) (configText wseed config)]>
                             (files w))) as ->.
  { unfold writeConfig, Os.WriteFile in Hw.
    destruct (decide (configPath ∈ readOnly w)); [done|].
    destruct (files w !! configPath) as [[|]|]; by simplify_eq. }
  set (w' := setFiles w _).
  assert (∀ seeds, parseConfig w' seeds = parseText w' seeds (configText wseed config))
    as Hparse.
  { intros seeds. unfold parseConfig.
    change (getConfigPath w') with (getConfigPath w). rewrite Hc, bind_Ok.
    unfold Os.ReadFile, w'. simpl. by rewrite lookup_insert_eq. }
  set (hosts := Sort.Strings ((rangeMap wseed config).*1)).
  assert (hosts ≡ₚ (map_to_list config).*1) as Hp.
  { unfold hosts. by rewrite Sort_Strings_Permutation, rangeMap_Permutation. }
  assert (keysOnFirstHost config → ∀ seeds, parseConfig w' seeds = Ok config) as HA.
  { intros Hfirst seeds. rewrite Hparse.
    apply parseText_configText; [by apply readsBack_setFiles|].
    apply lastHostRun_first; [done|apply Sort_Strings_Sorted| |].
    - fold hosts. rewrite Hp. apply NoDup_fst_map_to_list.
    - intros host. fold hosts. rewrite Hp, list_elem_of_fmap.
      intros [[k v] [-> Hkv]]. exists v. by apply elem_of_map_to_list. }
  split; [done|]. split.
  - intros Hsize. apply HA. intros h h' [v Hv] [v' Hv'] Hne _.
    assert (size (delete h config) = 0) as H0.
    { rewrite map_size_delete, Hv. simpl. lia. }
    apply map_size_empty_iff in H0.
    assert (delete h config !! h' = Some v') as H1 by (by rewrite lookup_delete_ne).
    by rewrite H0, lookup_empty in H1.
  - destruct (lastHostRun_exists config hosts 0 ∅) as [seeds Hrun].
    exists seeds. rewrite Hparse.
    apply parseText_configText; [by apply readsBack_setFiles|done].
Qed.

(** ** Loops over the entries of a map *)

(** A loop over the entries of a map whose body, on the entry of [k],
    only changes what the result holds at [k]. *)
Lemma foldl_entries_lookup {V W} (step : gmap gostring W → gostring * V → gmap gostring W)
    (res : V → option W → option W) (l : list (gostring * V)) (acc : gmap gostring W) :
  (∀ acc k v k', k' ≠ k → step acc (k, v) !! k' = acc !! k') →
  (∀ acc k v, step acc (k, v) !! k = res v (acc !! k)) →
  NoDup l.*1 →
  ∀ k, foldl step acc l !! k
       = match (list_to_map l : gmap gostring V) !! k with
         | Some v => res v (acc !! k)
         | None => acc !! k
         end.
Proof.
  intros Hother Hsame. revert acc.
  induction l as [|[h v] l IH]; intros acc Hnd k; simpl.
  { by rewrite lookup_empty. }
  apply NoDup_cons in Hnd as [Hh Hnd]. rewrite (IH _ Hnd).
  destruct (decide (k = h)) as [->|Hne].
  - rewrite (not_elem_of_list_to_map_1 l h Hh), lookup_insert_eq. apply Hsame.
  - rewrite lookup_insert_ne by done. by rewrite Hother.
Qed.

Lemma list_to_map_rangeMap {V} (seed : nat) (m : gmap gostring V) :
  (list_to_map (rangeMap seed m) : gmap gostring V) = m.
Proof.
  transitivity (list_to_map (map_to_list m) : gmap gostring V).
  - apply list_to_map_proper; [apply NoDup_rangeMap_keys|apply rangeMap_Permutation].
  - apply list_to_map_to_list.
Qed.

(** What [deleteKey] leaves under each host: the list without its first
    entry equal to the path, and no host at all when that list is empty. *)
Lemma deleteConfig_lookup (seed : nat) (fullKeyPath : gostring) (config : Config)
    (host : gostring) :
  deleteConfig seed fullKeyPath config !! host
  = match config !! host with
    | None => None
    | Some keyPaths =>
        match firstIndex fullKeyPath keyPaths with
        | None => Some keyPaths
        | Some i =>
            if decide (length (removeAt i keyPaths) = 0) then None
            else Some (removeAt i keyPaths)
        end
    end.
Proof.
  unfold deleteConfig.
  rewrite (foldl_entries_lookup (deleteStep fullKeyPath)
             (λ keyPaths old,
                match firstIndex fullKeyPath keyPaths with
                | None => old
                | Some i =>
                    if decide (length (removeAt i keyPaths) = 0) then None
                    else Some (removeAt i keyPaths)
                end)).
  - rewrite list_to_map_rangeMap. destruct (config !! host) as [ks|]; [|done].
    by destruct (firstIndex fullKeyPath ks).
  - intros acc k v k' Hne. unfold deleteStep.
    destruct (firstIndex fullKeyPath v); [|done].
    destruct (decide _); [by rewrite lookup_delete_ne|by rewrite lookup_insert_ne].
  - intros acc k v. unfold deleteStep.
    destruct (firstIndex fullKeyPath v); [|done].
    destruct (decide _); [by rewrite lookup_delete_eq|by rewrite lookup_insert_eq].
  - apply NoDup_rangeMap_keys.
Qed.

Lemma firstIndex_Some key keyPaths i :
  firstIndex key keyPaths = Some i →
  ∃ before after, keyPaths = before ++ key :: after ∧ (key ∉ before)
                  ∧ i = length before.
Proof.
  revert i. induction keyPaths as [|p l IH]; intros i; simpl; [done|].
  destruct (decide (p = key)) as [->|Hne].
  - intros [= <-]. exists [], l. split; [done|]. split; [apply not_elem_of_nil|done].
  - destruct (firstIndex key l) as [j|]; simpl; [|done]. intros [= <-].
    destruct (IH j eq_refl) as (before & after & -> & Hb & ->).
    exists (p :: before), after. split; [done|]. split; [|done].
    by apply not_elem_of_cons.
Qed.

Lemma firstIndex_None_inv key keyPaths :
  firstIndex key keyPaths = None → key ∉ keyPaths.
Proof.
  induction keyPaths as [|p l IH]; simpl; [intros _; apply not_elem_of_nil|].
  destruct (decide (p = key)) as [|Hne]; [done|].
  destruct (firstIndex key l); simpl; [done|]. intros _.
  apply not_elem_of_cons. split; [done|by apply IH].
Qed.

(** In a list without repetition, removing the first entry equal to the
    key removes every entry equal to it. *)
Lemma removeAt_firstIndex_NoDup key keyPaths i :
  NoDup keyPaths → firstIndex key keyPaths = Some i →
  (key ∉ removeAt i keyPaths)
  ∧ ∀ other, other ≠ key → other ∈ removeAt i keyPaths ↔ other ∈ keyPaths.
Proof.
  intros Hnd (before & after & -> & Hb & ->)%firstIndex_Some.
  rewrite removeAt_middle. apply NoDup_app in Hnd as (_ & Hba & Ha).
  apply NoDup_cons in Ha as [Hka _]. split.
  - by intros [?|?]%elem_of_app.
  - intros other Hne. rewrite !elem_of_app, elem_of_cons. tauto.
Qed.

(** On a mapping in which no host lists a key path twice, [deleteKey]
    removes every entry equal to the path, keeps the other entries and the
    hosts that do not refer to the path, and drops the hosts that referred
    to nothing else. *)
Lemma deleteConfig_duplicateFree (seed : nat) (fullKeyPath : gostring)
    (config : Config) :
  duplicateFree config →
  (∀ host keyPaths, deleteConfig seed fullKeyPath config !! host = Some keyPaths →
     (fullKeyPath ∉ keyPaths)
     ∧ ∃ old, config !! host = Some old
              ∧ (∀ other, other ≠ fullKeyPath → other ∈ keyPaths ↔ other ∈ old)
              ∧ (fullKeyPath ∈ old → keyPaths ≠ []))
  ∧ (∀ host, deleteConfig seed fullKeyPath config !! host = None →
       config !! host = None
       ∨ ∃ old, config !! host = Some old ∧ fullKeyPath ∈ old
                ∧ ∀ other, other ∈ old → other = fullKeyPath).
Proof.
  intros Hdf. split.
  - intros host keyPaths. rewrite deleteConfig_lookup.
    destruct (config !! host) as [old|] eqn:E; [|done].
    destruct (firstIndex fullKeyPath old) as [i|] eqn:Ei.
    + destruct (decide _) as [|Hlen]; [done|]. intros [= <-].
      destruct (removeAt_firstIndex_NoDup _ _ _ (Hdf _ _ E) Ei) as [Hn Ho].
      split; [done|]. exists old. split; [done|]. split; [done|].
      intros _ Hnil. by rewrite Hnil in Hlen.
    + intros [= <-].
      assert (fullKeyPath ∉ old) as Hn by (by apply firstIndex_None_inv).
      split; [done|]. exists old. by repeat split.
  - intros host. rewrite deleteConfig_lookup.
    destruct (config !! host) as [old|] eqn:E; [|by left].
    destruct (firstIndex fullKeyPath old) as [i|] eqn:Ei; [|done].
    destruct (decide _) as [Hlen|]; [|done]. intros _. right.
    exists old. split; [done|].
    destruct (removeAt_firstIndex_NoDup _ _ _ (Hdf _ _ E) Ei) as [Hn Ho].
    apply firstIndex_Some in Ei as (before & after & -> & Hb & ->).
    split; [apply elem_of_app; right; left|].
    intros other Hin. destruct (decide (other = fullKeyPath)) as [|Hne]; [done|].
    apply Ho in Hin; [|done]. apply length_zero_iff_nil in Hlen.
    rewrite Hlen in Hin. by apply elem_of_nil in Hin.
Qed.

(** ** The reverse mapping *)

Lemma occurrences_cons keyPath entry keyPaths :
  occurrences keyPath (entry :: keyPaths)
  = (if decide (entry = keyPath) then 1 else 0) + occurrences keyPath keyPaths.
Proof.
  unfold occurrences. rewrite filter_cons. by destruct (decide (entry = keyPath)).
Qed.

Lemma occurrences_pos keyPath keyPaths :
  0 < occurrences keyPath keyPaths ↔ keyPath ∈ keyPaths.
Proof.
  induction keyPaths as [|p l IH].
  - split; [cbn; lia|by intros ?%elem_of_nil].
  - rewrite occurrences_cons, elem_of_cons.
    destruct (decide (p = keyPath)) as [->|Hne]; [split; [by left|lia]|].
    simpl. rewrite IH. split; [by right|]. by intros [?|?].
Qed.

Lemma occurrences_NoDup keyPath keyPaths :
  NoDup keyPaths → occurrences keyPath keyPaths ≤ 1.
Proof.
  induction 1 as [|p l Hp Hnd IH]; [cbn; lia|].
  rewrite occurrences_cons. destruct (decide (p = keyPath)) as [->|Hne]; [|simpl; lia].
  assert (¬ 0 < occurrences keyPath l) by (by rewrite occurrences_pos). lia.
Qed.

(** The inner loop of [findMultipleMappings] appends the host once per
    entry equal to the key path. *)
Lemma keyMappings_inner (host : gostring) (keyPaths : list gostring)
    (mappings : Config) (k : gostring) :
  let mappings' :=
    foldl (λ mappings keyPath, <[keyPath := (mappings !!! keyPath) ++ [host]]> mappings)
          mappings keyPaths in
  mappings' !!! k = mappings !!! k ++ replicate (occurrences k keyPaths) host
  ∧ (is_Some (mappings' !! k) ↔ is_Some (mappings !! k) ∨ k ∈ keyPaths).
Proof.
  revert mappings. induction keyPaths as [|p l IH]; intros mappings; simpl.
  { split; [by rewrite app_nil_r|]. split; [by left|]. by intros [?|?%elem_of_nil]. }
  destruct (IH (<[p := (mappings !!! p) ++ [host]]> mappings)) as [IH1 IH2].
  simpl in IH1, IH2. rewrite IH1, IH2, occurrences_cons, elem_of_cons.
  destruct (decide (p = k)) as [->|Hne].
  - rewrite lookup_total_insert_eq, lookup_insert_eq, <- app_assoc. split; [done|].
    split; [by right; left|by left].
  - rewrite lookup_total_insert_ne, lookup_insert_ne by done. split; [done|].
    split; [intros [?|?]; auto|]. intros [?|[?|?]]; auto. by subst.
Qed.

Lemma keyMappings_outer (entries : list (gostring * list gostring))
    (mappings : Config) (k : gostring) :
  let mappings' :=
    foldl (λ mappings entry,
             foldl (λ mappings keyPath,
                      <[keyPath := (mappings !!! keyPath) ++ [entry.1]]> mappings)
                   mappings entry.2)
          mappings entries in
  mappings' !!! k = mappings !!! k ++ referencesOf k entries
  ∧ (is_Some (mappings' !! k)
     ↔ is_Some (mappings !! k) ∨ ∃ entry, entry ∈ entries ∧ k ∈ entry.2).
Proof.
  revert mappings. induction entries as [|e l IH]; intros mappings; simpl.
  { split; [by rewrite app_nil_r|]. split; [by left|].
    by intros [?|(? & ?%elem_of_nil & _)]. }
  destruct (keyMappings_inner e.1 e.2 mappings k) as [H1 H2]. simpl in H1, H2.
  match goal with |- context [foldl _ ?m l] => destruct (IH m) as [IH1 IH2] end.
  simpl in IH1, IH2. rewrite IH1, IH2, H1, H2, <- app_assoc. split; [done|]. split.
  - intros [[?|?]|(e' & He' & Hk)]; [by left| |].
    + right. exists e. split; [left|done].
    + right. exists e'. split; [by right|done].
  - intros [?|(e' & [->|He']%elem_of_cons & Hk)]; [by left; left|by left; right|].
    right. by exists e'.
Qed.

Lemma elem_of_referencesOf k entries host :
  host ∈ referencesOf k entries
  ↔ ∃ keyPaths, (host, keyPaths) ∈ entries ∧ k ∈ keyPaths.
Proof.
  unfold referencesOf. rewrite list_elem_of_bind. split.
  - intros ([h ks] & [-> Hn]%elem_of_replicate & He). simpl in *.
    exists ks. split; [done|]. apply occurrences_pos. lia.
  - intros (ks & He & Hk). exists (host, ks). split; [|done].
    apply elem_of_replicate. split; [done|]. simpl.
    apply occurrences_pos in Hk. lia.
Qed.

(** The reverse mapping holds, for each key path that occurs, the hosts
    in the order of the visit, once per occurrence. *)
Lemma keyMappings_lookup (seed : nat) (config : Config) (k : gostring)
    (hosts : list gostring) :
  keyMappings seed config !! k = Some hosts
  ↔ hosts = referencesOf k (rangeMap seed config) ∧ hosts ≠ [].
Proof.
  unfold keyMappings.
  destruct (keyMappings_outer (rangeMap seed config) ∅ k) as [H1 H2].
  simpl in H1, H2. rewrite lookup_total_empty in H1. simpl in H1. split.
  - intros H. pose proof (lookup_total_correct _ _ _ H) as Ht.
    rewrite H1 in Ht. subst hosts. split; [done|].
    destruct (proj1 H2 (mk_is_Some _ _ H)) as [[? Hx]|([h ks] & He & Hk)].
    { by rewrite lookup_empty in Hx. }
    intros Hnil.
    assert (h ∈ referencesOf k (rangeMap seed config)) as Hin
      by (apply elem_of_referencesOf; by exists ks).
    rewrite Hnil in Hin. by apply elem_of_nil in Hin.
  - intros [-> Hne].
    assert (∃ h, h ∈ referencesOf k (rangeMap seed config)) as [h Hin].
    { destruct (referencesOf k (rangeMap seed config)) as [|h r]; [done|].
      exists h. left. }
    apply elem_of_referencesOf in Hin as (ks & He & Hk).
    destruct (proj2 H2) as [v Hv]; [right; by exists (h, ks)|].
    rewrite Hv. f_equal. rewrite <- H1. symmetry.
    by apply lookup_total_correct.
Qed.

(** [findMultipleMappings] reports the key paths with more than one
    occurrence, with the hosts of the reverse mapping. *)
Lemma findMultipleMappings_lookup (seed seed' : nat) (config : Config)
    (k : gostring) (hosts : list gostring) :
  findMultipleMappings seed seed' config !! k = Some hosts
  ↔ hosts = referencesOf k (rangeMap seed config) ∧ 1 < length hosts.
Proof.
  unfold findMultipleMappings.
  rewrite (foldl_entries_lookup
             (λ (multiple : Config) (entry : gostring * list gostring),
                if decide (1 < length entry.2) then <[entry.1 := entry.2]> multiple
                else multiple)
             (λ v old, if decide (1 < length v) then Some v else old)).
  - rewrite list_to_map_rangeMap, lookup_empty.
    destruct (keyMappings seed config !! k) as [v|] eqn:E.
    + apply keyMappings_lookup in E as [Hv Hne].
      destruct (decide (1 < length v)); split.
      * intros [= <-]. done.
      * intros [-> _]. by rewrite Hv.
      * done.
      * intros [-> Hl]. rewrite <- Hv in Hl. lia.
    + split; [done|]. intros [-> Hl].
      assert (keyMappings seed config !! k
              = Some (referencesOf k (rangeMap seed config))) as E'.
      { apply keyMappings_lookup. split; [done|]. intros Hnil.
        rewrite Hnil in Hl. simpl in Hl. lia. }
      by rewrite E in E'.
  - intros acc h v k' Hne. simpl. destruct (decide _); [|done].
    by rewrite lookup_insert_ne.
  - intros acc h v. simpl. destruct (decide _); [|done]. by rewrite lookup_insert_eq.
  - apply NoDup_rangeMap_keys.
Qed.

Lemma NoDup_referencesOf k entries :
  NoDup entries.*1 → Forall (λ entry, NoDup entry.2) entries →
  NoDup (referencesOf k entries).
Proof.
  induction entries as [|[h ks] l IH]; intros Hnd Hks; [constructor|].
  apply NoDup_cons in Hnd as [Hh Hnd]. apply Forall_cons in Hks as [Hk Hks].
  unfold referencesOf. rewrite bind_cons. apply NoDup_app. split; [|split].
  - simpl in *. pose proof (occurrences_NoDup k ks Hk).
    destruct (occurrences k ks) as [|[|n]]; [constructor| |lia].
    apply NoDup_singleton.
  - intros x [-> _]%elem_of_replicate Hin.
    apply elem_of_referencesOf in Hin as (ks' & He & _).
    apply Hh. apply list_elem_of_fmap. by exists (h, ks').
  - by apply IH.
Qed.

Lemma two_elements {A} (l : list A) x y :
  x ∈ l → y ∈ l → x ≠ y → 1 < length l.
Proof.
  intros Hx Hy Hne.
  assert ([x; y] ⊆+ l) as Hs.
  { apply NoDup_submseteq.
    - apply NoDup_cons. split; [by intros ?%list_elem_of_singleton|apply NoDup_singleton].
    - intros z [->|[->|?%elem_of_nil]%elem_of_cons]%elem_of_cons; done. }
  apply submseteq_length in Hs. simpl in Hs. lia.
Qed.

(** On a mapping in which no host lists a key path twice, the analysis
    reports exactly the key paths that more than one host refers to, each
    with the hosts that refer to it, without repetition. *)
Lemma findMultipleMappings_duplicateFree (seed seed' : nat) (config : Config)
    (k : gostring) :
  duplicateFree config →
  (∀ hosts, findMultipleMappings seed seed' config !! k = Some hosts →
     NoDup hosts ∧ 1 < length hosts
     ∧ ∀ host, host ∈ hosts ↔ ∃ keyPaths, config !! host = Some keyPaths ∧ k ∈ keyPaths)
  ∧ (findMultipleMappings seed seed' config !! k = None →
     ∀ host host' keyPaths keyPaths',
       config !! host = Some keyPaths → k ∈ keyPaths →
       config !! host' = Some keyPaths' → k ∈ keyPaths' → host = host').
Proof.
  intros Hdf.
  assert (∀ host, host ∈ referencesOf k (rangeMap seed config)
                  ↔ ∃ keyPaths, config !! host = Some keyPaths ∧ k ∈ keyPaths) as Hmem.
  { intros host. rewrite elem_of_referencesOf.
    split; intros (ks & He & Hk); exists ks; split; try done.
    - by apply elem_of_rangeMap in He.
    - by apply elem_of_rangeMap. }
  split.
  - intros hosts [-> Hl]%findMultipleMappings_lookup. split; [|done].
    apply NoDup_referencesOf; [apply NoDup_rangeMap_keys|].
    apply Forall_forall. intros [h ks] He%elem_of_rangeMap. by apply (Hdf h).
  - intros Hnone host host' ks ks' Hh Hk Hh' Hk'.
    destruct (decide (host = host')) as [|Hne]; [done|].
    assert (1 < length (referencesOf k (rangeMap seed config))) as Hl.
    { apply (two_elements _ host host'); [apply Hmem; eauto|apply Hmem; eauto|done]. }
    assert (findMultipleMappings seed seed' config !! k
            = Some (referencesOf k (rangeMap seed config))) as E
      by (by apply findMultipleMappings_lookup).
    by rewrite Hnone in E.
Qed.

(** ** Mappings in which a host lists a key twice *)

Lemma pick_singleton {A} (seed : nat) (x : A) : pick seed [x] = [x].
Proof.
  unfold pick. change (permutations [x]) with [[x]].
  change (length [[x]]) with 1. by rewrite Nat.mod_1_r.
Qed.

Lemma rangeMap_singleton {V} (seed : nat) (k : gostring) (v : V) :
  rangeMap seed ({[ k := v ]} : gmap gostring V) = [(k, v)].
Proof. unfold rangeMap. by rewrite map_to_list_singleton, pick_singleton. Qed.

(** C7.  The config file in which host [h] lists the same key path twice
    parses to a mapping with the one host [h]; in every run the analysis
    reports that key path, with [h] twice as its hosts, although a single
    host refers to it.  (Without such repetitions the analysis reports the
    key paths of more than one host and no other:
    [findMultipleMappings_duplicateFree].) *)
Theorem findMultipleMappings_duplicate :
  parseConfig duplicateWorld seeds0 = Ok duplicateConfig
  ∧ (∀ host keyPaths, duplicateConfig !! host = Some keyPaths → host = str "h")
  ∧ ∀ seed seed',
      findMultipleMappings seed seed' duplicateConfig
      = {[ str "/home/u/.ssh/k" := [str "h"; str "h"] ]}.
Proof.
  split; [vm_compute; reflexivity|]. split.
  - intros host keyPaths H. unfold duplicateConfig in H.
    by apply lookup_singleton_Some in H as [<- _].
  - intros seed seed'. unfold findMultipleMappings.
    assert (keyMappings seed duplicateConfig
            = {[ str "/home/u/.ssh/k" := [str "h"; str "h"] ]}) as ->.
    { unfold keyMappings, duplicateConfig. rewrite rangeMap_singleton.
      vm_compute. reflexivity. }
    rewrite rangeMap_singleton. vm_compute. reflexivity.
Qed.

(** C8.  In the world whose config lists the key [k] twice under host
    [h], [delete k] removes both key files and ends normally, and the config
    it leaves still maps [h] to the deleted key.  (Without such repetitions
    no entry equal to the path is left: [deleteConfig_duplicateFree].) *)
Theorem deleteKey_duplicate_remains :
  ∃ w',
    deleteKey seeds0 0 0 (str "k") duplicateWorld = Done w' [deletedMsg (str "k")]
    ∧ files w' !! str "/home/u/.ssh/k" = None
    ∧ files w' !! str "/home/u/.ssh/k.pub" = None
    ∧ parseConfig w' seeds0 = Ok {[ str "h" := [str "/home/u/.ssh/k"] ]}.
Proof.
  eexists. split; [vm_compute; reflexivity|].
  repeat split; vm_compute; reflexivity.
Qed.

(** ** Concrete runs *)

(** The example file is parsed to the mapping of the example in the run
    whose [range] statements all take seed [1]. *)
Lemma parseConfig_example_expected_run :
  parseConfig exampleWorld (λ _, 1) = Ok exampleExpected.
Proof. vm_compute. reflexivity. Qed.

(** C2, as stated, fails: the mapping of host [foo] to the key path
    [id_rsa] is written as it is, and parsed back, in every run, with the
    key path expanded under the working directory. *)
Lemma parse_write_relative_path :
  ∃ w',
    writeConfig 0 (str "/home/u/.ssh/config") relativeConfig oneHostWorld = Ok w'
    ∧ ∀ seeds,
        parseConfig w' seeds = Ok {[ str "foo" := [str "/tmp/id_rsa"] ]}
        ∧ parseConfig w' seeds ≠ Ok relativeConfig.
Proof.
  eexists. split; [vm_compute; reflexivity|]. intros seeds.
  match goal with |- ?p = _ ∧ _ =>
    assert (p = Ok {[ str "foo" := [str "/tmp/id_rsa"] ]}) as E end.
  { unfold parseConfig.
    match goal with |- context [getConfigPath ?w] =>
      change (getConfigPath w) with (Ok (A:=gostring) (str "/home/u/.ssh/config")) end.
    rewrite bind_Ok.
    match goal with |- context [Os.ReadFile ?w ?p] =>
      assert (Os.ReadFile w p
              = Ok (hostLine (str "foo") ++ [newline]
                    ++ identityLine (str "id_rsa") ++ [newline])) as ->
        by (vm_compute; reflexivity) end.
    rewrite bind_Ok. unfold parseText.
    match goal with |- context [Strings.Split ?t newline] =>
      assert (Strings.Split t newline
              = [hostLine (str "foo"); identityLine (str "id_rsa"); []]) as ->
        by (vm_compute; reflexivity) end.
    rewrite parseLines_cons, parseLine_host, bind_Ok by (unfold hostOk; compute_done).
    rewrite parseLines_cons, parseLine_identity by (by vm_compute).
    match goal with |- context [expandPath ?w ?p] =>
      assert (expandPath w p = Ok (str "/tmp/id_rsa")) as ->
        by (vm_compute; reflexivity) end.
    rewrite !bind_Ok, getLastHost_singleton, lookup_total_insert_eq, insert_insert_eq.
    reflexivity. }
  split; [done|]. rewrite E. intros H. vm_compute in H. discriminate H.
Qed.

Lemma readsBack_oneHost : readsBack oneHostWorld oneHostConfig.
Proof.
  intros host keyPaths H. unfold oneHostConfig in H.
  apply lookup_singleton_Some in H as [<- <-]. split.
  - unfold hostOk. compute_done.
  - constructor; [|constructor]. unfold keyPathOk. repeat split; compute_done.
Defined.

Lemma parse_write_roundtrip_witness :
  readsBack oneHostWorld oneHostConfig
  ∧ getConfigPath oneHostWorld = Ok (str "/home/u/.ssh/config")
  ∧ writeConfig 0 (str "/home/u/.ssh/config") oneHostConfig oneHostWorld
    = Ok oneHostWritten
  ∧ ((keysOnFirstHost oneHostConfig →
      ∀ seeds, parseConfig oneHostWritten seeds = Ok oneHostConfig)
     ∧ (size oneHostConfig ≤ 1 →
        ∀ seeds, parseConfig oneHostWritten seeds = Ok oneHostConfig)
     ∧ (∃ seeds, parseConfig oneHostWritten seeds = Ok oneHostConfig)).
Proof.
  assert (getConfigPath oneHostWorld = Ok (str "/home/u/.ssh/config")) as H2
    by (vm_compute; reflexivity).
  assert (writeConfig 0 (str "/home/u/.ssh/config") oneHostConfig oneHostWorld
          = Ok oneHostWritten) as H3 by (vm_compute; reflexivity).
  exact (conj readsBack_oneHost (conj H2 (conj H3
    (parse_write_roundtrip _ _ _ _ _ readsBack_oneHost H2 H3)))).
Defined.

Lemma mapKey_spec_witness :
  parseConfig oneHostWorld seeds0 = Ok oneHostConfig
  ∧ ∃ configPath,
      getConfigPath oneHostWorld = Ok configPath
      ∧ (1 ≤ length (oneHostConfig !!! str "bar") →
         mapKey seeds0 0 (str "id_b") (str "bar") oneHostWorld
         = Done oneHostWorld [alreadyMappedMsg (str "bar")])
      ∧ (length (oneHostConfig !!! str "bar") = 0 →
         let config' :=
           <[str "bar" := (oneHostConfig !!! str "bar") ++ [str "id_b"]]> oneHostConfig in
         config' !! str "bar" = Some [str "id_b"]
         ∧ mapKey seeds0 0 (str "id_b") (str "bar") oneHostWorld
           = if decide (configPath ∈ readOnly oneHostWorld)
             then Fatal oneHostWorld (ErrPermission configPath)
             else Done (setFiles oneHostWorld
                          (<[configPath := Regular (clock oneHostWorld)
                                             (configText 0 config')]>
                             (files oneHostWorld)))
                       [mappedMsg (str "id_b") (str "bar")]).
Proof.
  assert (parseConfig oneHostWorld seeds0 = Ok oneHostConfig) as H
    by (vm_compute; reflexivity).
  exact (conj H (mapKey_spec seeds0 0 (str "id_b") (str "bar") oneHostWorld
                   oneHostConfig H)).
Defined.

Lemma unmapKey_spec_witness :
  parseConfig oneHostWorld seeds0 = Ok oneHostConfig
  ∧ ∃ (configPath : gostring) (config' : Config),
      getConfigPath oneHostWorld = Ok configPath
      ∧ (∀ before after,
           oneHostConfig !!! str "foo" = before ++ str "/abs/id_a" :: after →
           str "/abs/id_a" ∉ before →
           config' = <[str "foo" := before ++ after]> oneHostConfig)
      ∧ (str "/abs/id_a" ∉ oneHostConfig !!! str "foo" → config' = oneHostConfig)
      ∧ (∀ other, other ≠ str "foo" → config' !! other = oneHostConfig !! other)
      ∧ unmapKey seeds0 0 (str "/abs/id_a") (str "foo") oneHostWorld
        = if decide (configPath ∈ readOnly oneHostWorld)
          then Fatal oneHostWorld (ErrPermission configPath)
          else Done (setFiles oneHostWorld
                       (<[configPath := Regular (clock oneHostWorld)
                                          (configText 0 config')]>
                          (files oneHostWorld)))
                    [unmappedMsg (str "/abs/id_a") (str "foo")].
Proof.
  assert (parseConfig oneHostWorld seeds0 = Ok oneHostConfig) as H
    by (vm_compute; reflexivity).
  exact (conj H (unmapKey_spec seeds0 0 (str "/abs/id_a") (str "foo") oneHostWorld
                   oneHostConfig H)).
Defined.

Lemma listUnusedKeys_spec_witness :
  getKeys inventoryWorld = Ok [inventoryKeyA; inventoryKeyB]
  ∧ parseConfig inventoryWorld seeds0 = Ok inventoryConfig
  ∧ ∃ unused,
      listUnusedKeys seeds0 0 inventoryWorld = Ok unused
      ∧ (∀ key, key ∈ [inventoryKeyA; inventoryKeyB] →
           ∃ fname, Strings.HasSuffix fname ".pub"%string = true
                    ∧ Filepath.Base (path key) = fname
                    ∧ name key = Strings.TrimSuffix fname ".pub"%string)
      ∧ (∀ key, key ∈ unused
                ↔ key ∈ [inventoryKeyA; inventoryKeyB]
                  ∧ ¬ referenced inventoryConfig (name key))
      ∧ unused `sublist_of` [inventoryKeyA; inventoryKeyB]
      ∧ (∀ ka kb host keyPath,
           [inventoryKeyA; inventoryKeyB] = [ka; kb] → name ka ≠ name kb →
           inventoryConfig = {[ host := [keyPath] ]} →
           Filepath.Base keyPath = name ka →
           unused = [kb]).
Proof.
  assert (getKeys inventoryWorld = Ok [inventoryKeyA; inventoryKeyB]) as H1
    by (vm_compute; reflexivity).
  assert (parseConfig inventoryWorld seeds0 = Ok inventoryConfig) as H2
    by (vm_compute; reflexivity).
  exact (conj H1 (conj H2 (listUnusedKeys_spec seeds0 0 inventoryWorld
                             [inventoryKeyA; inventoryKeyB] inventoryConfig H1 H2))).
Defined.

Lemma used_computations_agree_witness :
  getKeys inventoryWorld = Ok [inventoryKeyA; inventoryKeyB]
  ∧ (∀ key, key ∈ [inventoryKeyA; inventoryKeyB] →
       isUsedName (usedKeys 0 inventoryConfig) (name key)
       = isKeyUsed 1 key inventoryConfig)
  ∧ unusedKeys 0 [inventoryKeyA; inventoryKeyB] inventoryConfig
    = auditUnusedKeys 1 [inventoryKeyA; inventoryKeyB] inventoryConfig.
Proof.
  assert (getKeys inventoryWorld = Ok [inventoryKeyA; inventoryKeyB]) as H1
    by (vm_compute; reflexivity).
  exact (conj H1 (used_computations_agree inventoryWorld
                    [inventoryKeyA; inventoryKeyB] inventoryConfig 0 1 H1)).
Defined.

Lemma parseConfig_identity_before_host_witness :
  homeDir orphanWorld = Some (str "/home/u")
  ∧ workDir orphanWorld = Some (str "/tmp")
  ∧ Os.ReadFile orphanWorld
      (Filepath.Join (Filepath.Join (str "/home/u") sshDir) configFile)
    = Ok orphanText
  ∧ Strings.Split orphanText newline
    = [] ++ str "IdentityFile /abs/k" :: [str "Host a"]
  ∧ Forall (λ l, isHostLine l = false) []
  ∧ isIdentityLine (str "IdentityFile /abs/k") = true
  ∧ ∃ (keyPath : gostring) (earlier : list gostring) (config1 config : Config),
      expandPath orphanWorld (identityArg (str "IdentityFile /abs/k")) = Ok keyPath
      ∧ parseLines orphanWorld seeds0 0 ∅ ([] ++ [str "IdentityFile /abs/k"])
        = Ok config1
      ∧ config1 !! [] = Some (earlier ++ [keyPath])
      ∧ dom config1 = {[ [] ]}
      ∧ parseConfig orphanWorld seeds0 = Ok config
      ∧ is_Some (config !! []).
Proof.
  assert (Os.ReadFile orphanWorld
            (Filepath.Join (Filepath.Join (str "/home/u") sshDir) configFile)
          = Ok orphanText) as H3 by (vm_compute; reflexivity).
  assert (Strings.Split orphanText newline
          = [] ++ str "IdentityFile /abs/k" :: [str "Host a"]) as H4
    by (vm_compute; reflexivity).
  assert (isIdentityLine (str "IdentityFile /abs/k") = true) as H6
    by (vm_compute; reflexivity).
  exact (conj eq_refl (conj eq_refl (conj H3 (conj H4 (conj (Forall_nil_2 _) (conj H6
    (parseConfig_identity_before_host orphanWorld seeds0 (str "/home/u") (str "/tmp")
       orphanText [] (str "IdentityFile /abs/k") [str "Host a"]
       eq_refl eq_refl H3 H4 (Forall_nil_2 _) H6))))))).
Defined.

(** ** What a parsed mapping holds *)

Lemma parseLine_hostLine w seed config line :
  isHostLine line = true →
  parseLine w seed config line = Ok (<[hostArg line := []]> config).
Proof. unfold isHostLine, parseLine, hostArg. by intros ->. Qed.

Lemma parseLine_other w seed config line :
  isHostLine line = false → isIdentityLine line = false →
  parseLine w seed config line = Ok config.
Proof.
  unfold isIdentityLine, isHostLine, parseLine. intros Hh Hi.
  rewrite Hh in Hi |- *.
  by destruct (Strings.HasPrefix (Strings.TrimSpace line) "IdentityFile "%string).
Qed.

(** The three kinds of lines. *)
Lemma line_kind line :
  isHostLine line = true
  ∨ isIdentityLine line = true
  ∨ (isHostLine line = false ∧ isIdentityLine line = false).
Proof. destruct (isHostLine line), (isIdentityLine line); auto. Qed.

(** Every key path that the loop of the parser adds is the expansion of
    the argument of an identity-file line. *)
Lemma parseLines_listed w seeds lines i config config' keyPath :
  parseLines w seeds i config lines = Ok config' →
  listed config' keyPath →
  listed config keyPath
  ∨ ∃ line, line ∈ lines ∧ isIdentityLine line = true
            ∧ expandPath w (identityArg line) = Ok keyPath.
Proof.
  revert i config. induction lines as [|l lines IH]; intros i config; simpl.
  { intros [= <-]. by left. }
  destruct (parseLine w (seeds i) config l) as [c|e] eqn:E; simpl; [|done].
  intros Hp Hl. destruct (IH _ _ Hp Hl) as [Hc|(line & Hin & Hi & He)].
  2:{ right. exists line. split; [by right|done]. }
  destruct (line_kind l) as [Hk|[Hk|[Hk1 Hk2]]].
  - rewrite (parseLine_hostLine _ _ _ _ Hk) in E. injection E as <-.
    destruct Hc as (h & ks & Hh & Hks). left.
    destruct (decide (h = hostArg l)) as [->|Hne].
    + rewrite lookup_insert_eq in Hh. injection Hh as <-. by apply elem_of_nil in Hks.
    + rewrite lookup_insert_ne in Hh by done. by exists h, ks.
  - rewrite (parseLine_identity _ _ _ _ Hk) in E.
    destruct (expandPath w (identityArg l)) as [p|] eqn:Ep; simpl in E; [|done].
    injection E as <-. destruct Hc as (h & ks & Hh & Hks).
    destruct (decide (h = getLastHost (seeds i) config)) as [->|Hne].
    + rewrite lookup_insert_eq in Hh. injection Hh as <-.
      apply elem_of_app in Hks as [Hks|Hks%list_elem_of_singleton].
      * left. exists (getLastHost (seeds i) config), (config !!! getLastHost (seeds i) config).
        split; [|done]. unfold lookup_total, map_lookup_total in *.
        destruct (config !! getLastHost (seeds i) config); [done|].
        by apply elem_of_nil in Hks.
      * subst. right. exists l. split; [left|done].
    + rewrite lookup_insert_ne in Hh by done. left. by exists h, ks.
  - rewrite (parseLine_other _ _ _ _ Hk1 Hk2) in E. injection E as <-. by left.
Qed.

Lemma IsAbs_app a b : Filepath.IsAbs a = true → Filepath.IsAbs (a ++ b) = true.
Proof. by destruct a. Qed.

Lemma IsAbs_Clean path : Filepath.IsAbs path = true → Filepath.IsAbs (Filepath.Clean path) = true.
Proof.
  intros H. unfold Filepath.Clean. destruct path as [|c path]; [done|].
  rewrite H. unfold Filepath.IsAbs. by apply bool_decide_eq_true.
Qed.

Lemma IsAbs_Join a b : Filepath.IsAbs a = true → Filepath.IsAbs (Filepath.Join a b) = true.
Proof.
  intros H. unfold Filepath.Join. destruct a as [|c a]; [done|].
  by apply IsAbs_Clean, IsAbs_app.
Qed.

Lemma expandPath_absolute w path keyPath :
  absoluteEnv w → expandPath w path = Ok keyPath → Filepath.IsAbs keyPath = true.
Proof.
  intros [Hh Hw]. unfold expandPath, Abs, Os.userCurrent, Os.Getwd.
  destruct (Strings.HasPrefix path "~"%string).
  - destruct (homeDir w) as [home|]; simpl; [|done]. intros [= <-].
    by apply IsAbs_Join, Hh.
  - destruct (Filepath.IsAbs path) eqn:E.
    + intros [= <-]. by apply IsAbs_Clean.
    + destruct (workDir w) as [wd|]; simpl; [|done]. intros [= <-].
      by apply IsAbs_Join, Hw.
Qed.

(** X1.  Every key path of a parsed mapping is the expansion of the
    argument of an identity-file line of the config file; with an absolute
    home and working directory it is an absolute path. *)
Theorem parseConfig_key_paths (w : World) (seeds : nat → nat) (config : Config)
    (keyPath : gostring) :
  parseConfig w seeds = Ok config → listed config keyPath →
  ∃ configPath content line,
    getConfigPath w = Ok configPath
    ∧ Os.ReadFile w configPath = Ok content
    ∧ line ∈ Strings.Split content newline
    ∧ isIdentityLine line = true
    ∧ expandPath w (identityArg line) = Ok keyPath
    ∧ (absoluteEnv w → Filepath.IsAbs keyPath = true).
Proof.
  unfold parseConfig. intros Hp Hl.
  destruct (getConfigPath w) as [configPath|] eqn:Hc; simpl in Hp; [|done].
  destruct (Os.ReadFile w configPath) as [content|] eqn:Hr; simpl in Hp; [|done].
  destruct (parseLines_listed _ _ _ _ _ _ _ Hp Hl) as [Hc'|(line & Hin & Hi & He)].
  { destruct Hc' as (h & ks & Hh & _). by rewrite lookup_empty in Hh. }
  exists configPath, content, line. repeat split; try done.
  intros Ha. by eapply expandPath_absolute.
Qed.

(** ** Hosts of a parsed mapping *)

Lemma parseLines_app_Ok w seeds i config lines1 lines2 config' :
  parseLines w seeds i config (lines1 ++ lines2) = Ok config' →
  ∃ config1, parseLines w seeds i config lines1 = Ok config1
             ∧ parseLines w seeds (i + length lines1) config1 lines2 = Ok config'.
Proof.
  rewrite parseLines_app.
  destruct (parseLines w seeds i config lines1) as [c|]; simpl; [|done].
  intros H. by exists c.
Qed.

Lemma parseLines_hosts_declared w seeds lines i config config' line :
  parseLines w seeds i config lines = Ok config' →
  line ∈ lines → isHostLine line = true → is_Some (config' !! hostArg line).
Proof.
  revert i config. induction lines as [|l lines IH]; intros i config Hp Hin Hh.
  { by apply elem_of_nil in Hin. }
  rewrite parseLines_cons in Hp.
  destruct (parseLine w (seeds i) config l) as [c|] eqn:E; simpl in Hp; [|done].
  apply elem_of_cons in Hin as [->|Hin]; [|by eapply IH].
  rewrite (parseLine_hostLine _ _ _ _ Hh) in E. injection E as <-.
  apply parseLines_dom in Hp. apply elem_of_dom, Hp, elem_of_dom.
  rewrite lookup_insert_eq. by eexists.
Qed.

Lemma parseLines_hosts_origin w seeds lines i config config' host :
  parseLines w seeds i config lines = Ok config' →
  is_Some (config' !! host) →
  is_Some (config !! host)
  ∨ (∃ line, line ∈ lines ∧ isHostLine line = true ∧ hostArg line = host)
  ∨ (host = [] ∧ config = ∅ ∧ ∃ line, line ∈ lines ∧ isIdentityLine line = true).
Proof.
  revert i config. induction lines as [|l lines IH]; intros i config Hp Hs.
  { injection Hp as <-. by left. }
  rewrite parseLines_cons in Hp.
  destruct (parseLine w (seeds i) config l) as [c|] eqn:E; simpl in Hp; [|done].
  destruct (IH _ _ Hp Hs) as [Hc|[(line & Hin & Hh & Ha)|(-> & -> & line & Hin & Hi)]].
  - destruct (line_kind l) as [Hk|[Hk|[Hk1 Hk2]]].
    + rewrite (parseLine_hostLine _ _ _ _ Hk) in E. injection E as <-.
      destruct (decide (host = hostArg l)) as [->|Hne].
      * right; left. exists l. split; [left|done].
      * left. by rewrite lookup_insert_ne in Hc.
    + rewrite (parseLine_identity _ _ _ _ Hk) in E.
      destruct (expandPath w (identityArg l)) as [p|]; simpl in E; [|done].
      injection E as <-.
      destruct (decide (host = getLastHost (seeds i) config)) as [->|Hne].
      * destruct (getLastHost_cases (seeds i) config) as [[-> ->]|Hg]; [|by left].
        right; right. split; [done|]. split; [done|]. exists l. split; [left|done].
      * left. by rewrite lookup_insert_ne in Hc.
    + rewrite (parseLine_other _ _ _ _ Hk1 Hk2) in E. injection E as <-. by left.
  - right; left. exists line. split; [by right|done].
  - destruct (line_kind l) as [Hk|[Hk|[Hk1 Hk2]]].
    + rewrite (parseLine_hostLine _ _ _ _ Hk) in E. injection E as E.
      by apply insert_non_empty in E.
    + rewrite (parseLine_identity _ _ _ _ Hk) in E.
      destruct (expandPath w (identityArg l)) as [p|]; simpl in E; [|done].
      injection E as E. by apply insert_non_empty in E.
    + rewrite (parseLine_other _ _ _ _ Hk1 Hk2) in E. injection E as <-.
      right; right. split; [done|]. split; [done|]. exists line. split; [by right|done].
Qed.

(** X2.  The hosts of a parsed mapping are the names of the host lines
    of the config file: every host line gives a host, and every host comes
    from a host line, or is the empty name, which only a file with an
    identity-file line can give. *)
Theorem parseConfig_hosts (w : World) (seeds : nat → nat) (config : Config) :
  parseConfig w seeds = Ok config →
  ∃ configPath content,
    getConfigPath w = Ok configPath
    ∧ Os.ReadFile w configPath = Ok content
    ∧ (∀ line, line ∈ Strings.Split content newline → isHostLine line = true →
         is_Some (config !! hostArg line))
    ∧ (∀ host, is_Some (config !! host) →
         (∃ line, line ∈ Strings.Split content newline
                  ∧ isHostLine line = true ∧ hostArg line = host)
         ∨ (host = []
            ∧ ∃ line, line ∈ Strings.Split content newline
                      ∧ isIdentityLine line = true)).
Proof.
  unfold parseConfig. intros Hp.
  destruct (getConfigPath w) as [configPath|] eqn:Hc; simpl in Hp; [|done].
  destruct (Os.ReadFile w configPath) as [content|] eqn:Hr; simpl in Hp; [|done].
  exists configPath, content. repeat split; try done.
  - intros line Hin Hh. by eapply parseLines_hosts_declared.
  - intros host Hs.
    destruct (parseLines_hosts_origin _ _ _ _ _ _ _ Hp Hs) as [He|[?|(-> & _ & ?)]].
    + by rewrite lookup_empty in He; destruct He.
    + by left.
    + by right.
Qed.

(** Lines that are not identity-file lines keep a host without keys so. *)
Lemma parseLines_keeps_empty w seeds lines i config config' host :
  Forall (λ line, isIdentityLine line = false) lines →
  config !! host = Some [] →
  parseLines w seeds i config lines = Ok config' → config' !! host = Some [].
Proof.
  intros Hl. revert i config. induction Hl as [|l lines Hi Hl' IH]; intros i config Hh.
  { by intros [= <-]. }
  rewrite parseLines_cons.
  destruct (line_kind l) as [Hk|[Hk|[Hk1 Hk2]]].
  - rewrite (parseLine_hostLine _ _ _ _ Hk). apply IH.
    destruct (decide (host = hostArg l)) as [->|Hne].
    + apply lookup_insert_eq.
    + by rewrite lookup_insert_ne.
  - by rewrite Hk in Hi.
  - rewrite (parseLine_other _ _ _ _ Hk1 Hk2). by apply IH.
Qed.

(** X3.  A host line empties the key list of its host: when it is
    followed by no identity-file line, the host has no key path in the parsed
    mapping, whatever identity-file lines it had collected before. *)
Theorem parseText_host_redeclared (w : World) (seeds : nat → nat)
    (content : gostring) (before : list gostring) (line : gostring)
    (after : list gostring) (config : Config) :
  Strings.Split content newline = before ++ line :: after →
  isHostLine line = true →
  Forall (λ l, isIdentityLine l = false) after →
  parseText w seeds content = Ok config →
  config !! hostArg line = Some [].
Proof.
  unfold parseText. intros -> Hh Ha Hp.
  apply parseLines_app_Ok in Hp as (config1 & _ & Hp).
  rewrite parseLines_cons, (parseLine_hostLine _ _ _ _ Hh) in Hp.
  eapply parseLines_keeps_empty; [exact Ha| |exact Hp]. apply lookup_insert_eq.
Qed.

(** ** Files with one host, and lines that are skipped *)

Lemma parseLines_others w seeds lines i config :
  Forall (λ line, isHostLine line = false ∧ isIdentityLine line = false) lines →
  parseLines w seeds i config lines = Ok config.
Proof.
  intros Hl. revert i. induction Hl as [|l lines [Hh Hi] Hl' IH]; intros i; [done|].
  by rewrite parseLines_cons, (parseLine_other _ _ _ _ Hh Hi), bind_Ok.
Qed.

(** After the line of the only host, every identity-file line adds its
    path to that host. *)
Lemma parseLines_one_host w seeds lines i host (done : list gostring) :
  Forall (λ line, isHostLine line = false) lines →
  parseLines w seeds i (<[host := done]> ∅) lines
  = keyPaths ← expandLines w lines; Ok (<[host := done ++ keyPaths]> ∅).
Proof.
  intros Hl. revert i done.
  induction Hl as [|l lines Hh Hl' IH]; intros i done.
  { simpl. by rewrite app_nil_r. }
  rewrite parseLines_cons. simpl expandLines.
  destruct (isIdentityLine l) eqn:Hi.
  - rewrite (parseLine_identity _ _ _ _ Hi).
    destruct (expandPath w (identityArg l)) as [p|]; simpl; [|done].
    rewrite getLastHost_singleton, lookup_total_insert_eq, insert_insert_eq, IH.
    destruct (expandLines w lines) as [ps|]; simpl; [|done].
    by rewrite <- app_assoc.
  - by rewrite (parseLine_other _ _ _ _ Hh Hi), bind_Ok, IH.
Qed.

(** X4.  A config file with a single host line, before which there is
    no identity-file line, is parsed in every run to the mapping of that
    host to the expanded paths of the identity-file lines, in the order of
    the file; it fails exactly when one of the expansions does. *)
Theorem parseText_one_host (w : World) (seeds : nat → nat) (content : gostring)
    (before : list gostring) (line : gostring) (after : list gostring) :
  Strings.Split content newline = before ++ line :: after →
  Forall (λ l, isHostLine l = false ∧ isIdentityLine l = false) before →
  isHostLine line = true →
  Forall (λ l, isHostLine l = false) after →
  parseText w seeds content
  = keyPaths ← expandLines w after; Ok {[ hostArg line := keyPaths ]}.
Proof.
  unfold parseText. intros -> Hb Hh Ha.
  rewrite parseLines_app, (parseLines_others _ _ _ _ _ Hb), bind_Ok.
  rewrite parseLines_cons, (parseLine_hostLine _ _ _ _ Hh), bind_Ok.
  by rewrite (parseLines_one_host _ _ _ _ _ [] Ha).
Qed.

Lemma parseLines_ext w seeds seeds' lines i config :
  (∀ k, i ≤ k < i + length lines → seeds k = seeds' k) →
  parseLines w seeds i config lines = parseLines w seeds' i config lines.
Proof.
  revert i config. induction lines as [|l lines IH]; intros i config He; [done|].
  rewrite !parseLines_cons, <- (He i) by (simpl; lia).
  destruct (parseLine w (seeds i) config l) as [c|]; simpl; [|done].
  apply IH. intros k Hk. apply He. simpl. lia.
Qed.

Lemma parseLines_shift w seeds lines i config :
  parseLines w seeds (S i) config lines
  = parseLines w (λ k, seeds (S k)) i config lines.
Proof.
  revert i config. induction lines as [|l lines IH]; intros i config; [done|].
  rewrite !parseLines_cons.
  destruct (parseLine w (seeds (S i)) config l) as [c|]; simpl; [|done].
  apply IH.
Qed.

(** X5.  A line that is neither a host line nor an identity-file line
    (a comment, another option, an empty line) does not count: the text
    without it is parsed to the same result, in the run that makes the same
    choices on the remaining lines. *)
Theorem parseText_skipped_line (w : World) (seeds : nat → nat)
    (content content' : gostring) (before : list gostring) (line : gostring)
    (after : list gostring) :
  Strings.Split content newline = before ++ line :: after →
  Strings.Split content' newline = before ++ after →
  isHostLine line = false → isIdentityLine line = false →
  parseText w seeds content
  = parseText w (skipSeed (length before) seeds) content'.
Proof.
  unfold parseText. intros -> -> Hh Hi. rewrite !parseLines_app.
  rewrite (parseLines_ext w seeds (skipSeed (length before) seeds) before).
  2:{ intros k Hk. unfold skipSeed. by rewrite decide_True by lia. }
  destruct (parseLines w (skipSeed (length before) seeds) 0 ∅ before) as [c|];
    [|done].
  rewrite !bind_Ok, parseLines_cons, (parseLine_other _ _ _ _ Hh Hi), bind_Ok.
  rewrite parseLines_shift. apply parseLines_ext.
  intros k Hk. unfold skipSeed. by rewrite decide_False by lia.
Qed.

(** ** More on the mapping commands *)

Lemma parseConfig_listed_absolute w seeds config keyPath :
  absoluteEnv w → parseConfig w seeds = Ok config → listed config keyPath →
  Filepath.IsAbs keyPath = true.
Proof.
  unfold parseConfig. intros Ha Hp Hl.
  destruct (getConfigPath w) as [configPath|]; simpl in Hp; [|done].
  destruct (Os.ReadFile w configPath) as [content|]; simpl in Hp; [|done].
  destruct (parseLines_listed _ _ _ _ _ _ _ Hp Hl) as [Hc|(line & _ & _ & He)].
  - destruct Hc as (h & ks & Hh & _). by rewrite lookup_empty in Hh.
  - by eapply expandPath_absolute.
Qed.

Lemma lookup_total_listed (config : Config) host keyPath :
  keyPath ∈ config !!! host → listed config keyPath.
Proof.
  unfold lookup_total, map_lookup_total. intros H.
  destruct (config !! host) as [ks|] eqn:E; simpl in H.
  - by exists host, ks.
  - by apply elem_of_nil in H.
Qed.

(** X6.  With an absolute home and working directory, [unmap] with a key
    that is not an absolute path (a bare file name, a path with a tilde)
    matches no stored entry, the parser having expanded them all: the mapping
    is written back as it was parsed and the success message is printed. *)
Theorem unmapKey_not_absolute (w : World) (seeds : nat → nat) (wseed : nat)
    (key host : gostring) (config : Config) :
  absoluteEnv w → parseConfig w seeds = Ok config →
  Filepath.IsAbs key = false →
  unmapConfig key host config = config
  ∧ ∃ configPath,
      getConfigPath w = Ok configPath
      ∧ unmapKey seeds wseed key host w
        = if decide (configPath ∈ readOnly w) then Fatal w (ErrPermission configPath)
          else Done (setFiles w (<[configPath := Regular (clock w) (configText wseed config)]>
                                   (files w)))
                    [unmappedMsg key host].
Proof.
  intros Ha Hp Hk.
  assert (unmapConfig key host config = config) as Hu.
  { unfold unmapConfig. rewrite firstIndex_None; [done|].
    intros Hin%lookup_total_listed.
    rewrite (parseConfig_listed_absolute _ _ _ _ Ha Hp Hin) in Hk. done. }
  split; [done|].
  destruct (parseConfig_inv _ _ _ Hp) as (configPath & t & content & Hc & Hf & _).
  exists configPath. split; [done|]. unfold unmapKey. rewrite Hc, Hp. simpl.
  rewrite Hu, (writeConfig_regular _ _ _ _ _ _ Hf).
  by destruct (decide (configPath ∈ readOnly w)).
Qed.

Lemma orFatal_Ok {A} (w : World) (v : A) (k : A → Outcome) :
  orFatal w (Ok v) k = k v.
Proof. reflexivity. Qed.


(** X8.  When the private key file exists and the public one does not,
    [delete] is fatal after it has removed the private key file: the key
    file is gone, every other file, the config among them, is as it was. *)
Theorem deleteKey_missing_public (seeds : nat → nat) (dseed wseed : nat)
    (key fullKeyPath : gostring) (t : Z) (content : gostring) (w : World) :
  getFullKeyPath w key = Ok fullKeyPath →
  files w !! fullKeyPath = Some (Regular t content) →
  files w !! (fullKeyPath ++ ".pub"%string) = None →
  ∃ w', deleteKey seeds dseed wseed key w
        = Fatal w' (ErrNotExist (fullKeyPath ++ ".pub"%string))
        ∧ files w' !! fullKeyPath = None
        ∧ ∀ other, other ≠ fullKeyPath → files w' !! other = files w !! other.
Proof.
  intros Hf Hr Hn.
  assert (Os.Remove w fullKeyPath
          = Ok (setFiles w (delete fullKeyPath (files w)))) as H1.
  { unfold Os.Remove. by rewrite Hr. }
  assert (Os.Remove (setFiles w (delete fullKeyPath (files w)))
            (fullKeyPath ++ ".pub"%string)
          = Err (ErrNotExist (fullKeyPath ++ ".pub"%string))) as H2.
  { unfold Os.Remove.
    change (files (setFiles w (delete fullKeyPath (files w))))
      with (delete fullKeyPath (files w)).
    rewrite lookup_delete_ne, Hn; [done|].
    intros E. apply (f_equal length) in E. rewrite length_app in E.
    change (length (str ".pub")) with 4 in E. lia. }
  exists (setFiles w (delete fullKeyPath (files w))). split; [|split].
  - unfold deleteKey. by rewrite Hf, orFatal_Ok, H1, orFatal_Ok, H2.
  - apply lookup_delete_eq.
  - intros other Hne.
    change (files (setFiles w (delete fullKeyPath (files w))))
      with (delete fullKeyPath (files w)).
    by rewrite lookup_delete_ne.
Qed.

(** ** The loops of [delete] and [audit], and the one-key invariant *)

Lemma removeAt_sublist key keyPaths i :
  firstIndex key keyPaths = Some i → removeAt i keyPaths `sublist_of` keyPaths.
Proof.
  intros (before & after & -> & _ & ->)%firstIndex_Some.
  rewrite removeAt_middle. apply sublist_app; [done|]. by apply sublist_cons.
Qed.

Lemma deleteConfig_sublist (seed : nat) (fullKeyPath : gostring) (config : Config)
    (host : gostring) (keyPaths' : list gostring) :
  deleteConfig seed fullKeyPath config !! host = Some keyPaths' →
  ∃ keyPaths, config !! host = Some keyPaths ∧ keyPaths' `sublist_of` keyPaths.
Proof.
  rewrite deleteConfig_lookup.
  destruct (config !! host) as [ks|]; [|done].
  destruct (firstIndex fullKeyPath ks) as [i|] eqn:E.
  - destruct (decide _); [done|]. intros [= <-].
    exists ks. split; [done|]. by eapply removeAt_sublist.
  - intros [= <-]. by exists ks.
Qed.

(** X9.  The mapping that the loop of [delete] leaves does not depend on
    the order in which the hosts are visited; a host that does not list the
    path keeps its list, and no host or entry is ever added. *)
Theorem deleteConfig_order (seed seed' : nat) (fullKeyPath : gostring)
    (config : Config) :
  deleteConfig seed fullKeyPath config = deleteConfig seed' fullKeyPath config
  ∧ (∀ host keyPaths,
       config !! host = Some keyPaths → fullKeyPath ∉ keyPaths →
       deleteConfig seed fullKeyPath config !! host = Some keyPaths)
  ∧ (∀ host keyPaths',
       deleteConfig seed fullKeyPath config !! host = Some keyPaths' →
       ∃ keyPaths, config !! host = Some keyPaths
                   ∧ keyPaths' `sublist_of` keyPaths).
Proof.
  split; [|split].
  - apply map_eq. intros host. by rewrite !deleteConfig_lookup.
  - intros host ks Hh Hn. rewrite deleteConfig_lookup, Hh.
    by rewrite firstIndex_None.
  - intros host ks'. apply deleteConfig_sublist.
Qed.

Lemma referencesOf_Permutation k entries entries' :
  entries ≡ₚ entries' → referencesOf k entries ≡ₚ referencesOf k entries'.
Proof. intros H. unfold referencesOf. by rewrite H. Qed.

(** X10.  [findMultipleMappings] reports a key path exactly when it
    occurs more than once over all the lists of the mapping, with the hosts
    in the order of the visit, each once per occurrence in its list.  Which
    key paths are reported does not depend on the run, and the hosts
    reported for a key path are the same up to their order. *)
Theorem findMultipleMappings_exact (seed seed' : nat) (config : Config) :
  (∀ k hosts,
     findMultipleMappings seed seed' config !! k = Some hosts
     ↔ hosts = referencesOf k (rangeMap seed config) ∧ 1 < length hosts)
  ∧ (∀ seed2 seed2' k hosts,
       findMultipleMappings seed seed' config !! k = Some hosts →
       ∃ hosts2, findMultipleMappings seed2 seed2' config !! k = Some hosts2
                 ∧ hosts ≡ₚ hosts2).
Proof.
  split; [intros k hosts; apply findMultipleMappings_lookup|].
  intros seed2 seed2' k hosts [-> Hl]%findMultipleMappings_lookup.
  assert (referencesOf k (rangeMap seed config)
          ≡ₚ referencesOf k (rangeMap seed2 config)) as Hp.
  { apply referencesOf_Permutation. by rewrite !rangeMap_Permutation. }
  exists (referencesOf k (rangeMap seed2 config)). split; [|done].
  apply findMultipleMappings_lookup. split; [done|]. by rewrite <- Hp.
Qed.

(** [mapKey] in terms of [mapConfig]. *)
Lemma mapKey_mapConfig seeds wseed key host w configPath config :
  getConfigPath w = Ok configPath → parseConfig w seeds = Ok config →
  mapKey seeds wseed key host w
  = match mapConfig key host config with
    | None => Done w [alreadyMappedMsg host]
    | Some config' =>
        orFatal w (writeConfig wseed configPath config' w)
          (λ w', Done w' [mappedMsg key host])
    end.
Proof.
  intros Hc Hp. unfold mapKey, mapConfig. rewrite Hc, Hp, !orFatal_Ok.
  by destruct (decide _).
Qed.

(** X11.  The mappings that [map], [unmap] and [delete] write back keep
    the rule of one key per host: when no host of the parsed mapping has more
    than one key path, none has in the mapping written back; [map] writes
    one only to give a host without key its single key. *)
Theorem commands_keep_one_key (seed : nat) (key host : gostring) (config : Config) :
  atMostOneKey config →
  (∀ config', mapConfig key host config = Some config' →
     atMostOneKey config' ∧ config' !! host = Some [key])
  ∧ atMostOneKey (unmapConfig key host config)
  ∧ atMostOneKey (deleteConfig seed key config).
Proof.
  intros Hone. split; [|split].
  - unfold mapConfig. intros config'. destruct (decide _) as [|Hl]; [done|].
    intros [= <-].
    assert (config !!! host = []) as -> by (apply length_zero_iff_nil; lia).
    split; [|apply lookup_insert_eq].
    intros h ks. destruct (decide (h = host)) as [->|Hne].
    + rewrite lookup_insert_eq. by intros [= <-].
    + rewrite lookup_insert_ne by done. apply Hone.
  - unfold unmapConfig.
    destruct (firstIndex key (config !!! host)) as [i|] eqn:E; [|done].
    intros h ks. destruct (decide (h = host)) as [->|Hne].
    + rewrite lookup_insert_eq. intros [= <-].
      apply removeAt_sublist, sublist_length in E.
      assert (length (config !!! host) ≤ 1); [|lia].
      unfold lookup_total, map_lookup_total.
      destruct (config !! host) as [ks|] eqn:Eh; simpl; [by eapply Hone|lia].
    + rewrite lookup_insert_ne by done. apply Hone.
  - intros h ks' H.
    destruct (deleteConfig_sublist _ _ _ _ _ H) as (ks & Hk & Hs).
    apply sublist_length in Hs. specialize (Hone h ks Hk). lia.
Qed.

(** ** The inventory and the paths of its keys *)

Lemma HasPrefix_inv s prefix :
  Strings.HasPrefix s prefix = true → ∃ rest, s = prefix ++ rest.
Proof.
  revert s. induction prefix as [|p prefix IH]; intros s; [by exists s|].
  destruct s as [|c s]; simpl; [done|].
  destruct (decide (c = p)) as [->|]; [|done].
  intros [rest ->]%IH. by exists rest.
Qed.

Lemma TrimSuffix_app s suffix :
  Strings.HasSuffix s suffix = true → Strings.TrimSuffix s suffix ++ suffix = s.
Proof.
  intros H. unfold Strings.TrimSuffix. rewrite H.
  apply HasPrefix_inv in H as [rest H].
  apply (f_equal reverse) in H. rewrite reverse_involutive, reverse_app,
    reverse_involutive in H. subst s.
  rewrite length_app, Nat.add_sub, take_app_length. done.
Qed.

(** The keys of the inventory, with the file each comes from. *)
Lemma getKeys_files w keys :
  getKeys w = Ok keys →
  ∃ sshPath, getSSHPath w = Ok sshPath
    ∧ Forall (λ key, ∃ fname,
                (slash ∉ fname)
                ∧ fname = name key ++ ".pub"%string
                ∧ path key = Filepath.Join sshPath fname) keys.
Proof.
  unfold getKeys. destruct (getSSHPath w) as [sshPath|] eqn:Hs; simpl; [|done].
  destruct (Os.ReadDir w sshPath) as [entries|] eqn:Hr; simpl; [|done].
  intros Hk. apply scanKeys_keys in Hk. apply ReadDir_names in Hr.
  exists sshPath. split; [done|].
  eapply Forall_impl; [exact Hk|]. intros key (file & Hf & Hsuf & Hname & Hpath).
  exists (Os.Name file). rewrite Forall_forall in Hr. destruct (Hr file Hf) as [_ Hsl].
  split; [done|]. split; [|done].
  rewrite Hname. symmetry. by apply TrimSuffix_app.
Qed.

(** The cleaned path of a proper name under a directory is the name after
    a prefix that only depends on the directory. *)
Lemma Clean_name_prefix dir :
  dir ≠ [] →
  ∃ pre, ∀ name,
    name ≠ [] → slash ∉ name → name ≠ str "." → name ≠ str ".." →
    Filepath.Clean (dir ++ [slash] ++ name) = pre ++ name.
Proof.
  intros Hdir.
  set (kept := foldl (Filepath.cleanStep (Filepath.IsAbs dir)) []
                 (Strings.Split dir slash)).
  exists ((if Filepath.IsAbs dir then [slash] else [])
          ++ match reverse kept with
             | [] => []
             | k :: ks => Strings.Join (k :: ks) [slash] ++ [slash]
             end).
  intros name Hn Hs Hd Hdd. unfold Filepath.Clean.
  destruct (dir ++ [slash] ++ name) as [|x l] eqn:E.
  { by destruct dir. }
  rewrite <- E.
  assert (Filepath.IsAbs (dir ++ [slash] ++ name) = Filepath.IsAbs dir) as ->
    by (by destruct dir).
  change (dir ++ [slash] ++ name) with (dir ++ slash :: name).
  rewrite Split_app, (Split_no_sep name) by done.
  rewrite foldl_app. simpl foldl. fold kept.
  assert (Filepath.cleanStep (Filepath.IsAbs dir) kept name = name :: kept) as ->.
  { unfold Filepath.cleanStep. by rewrite !decide_False by done. }
  rewrite reverse_cons, Join_snoc.
  assert (∀ out : gostring, out ≠ [] →
            match out with [] => str "." | _ => out end = out) as Hout
    by (by intros [|? ?]).
  destruct (Filepath.IsAbs dir), (reverse kept) as [|k ks].
  - done.
  - simpl. by rewrite <- app_assoc.
  - by rewrite Hout.
  - rewrite Hout.
    + simpl. by rewrite <- app_assoc.
    + intros E'. apply app_eq_nil in E' as [_ E']. by apply app_eq_nil in E' as [? _].
Qed.

Lemma proper_pub_name keyName :
  slash ∉ keyName ++ str ".pub" →
  keyName ++ str ".pub" ≠ [] ∧ keyName ++ str ".pub" ≠ str "."
  ∧ keyName ++ str ".pub" ≠ str "..".
Proof.
  intros _. repeat split; intros E; apply (f_equal length) in E;
    rewrite length_app in E; change (length (str ".pub")) with 4 in E;
    simpl in E; lia.
Qed.

(** X12.  For every key of the inventory, the base name of its path is
    its name followed by [.pub], and its name holds no separator.  When the
    name is a proper file name (not empty, [.] or [..]), [delete] with that
    name resolves to the path next to it: that path followed by [.pub], which
    is the public key file that [delete] removes, is the path of the key. *)
Theorem getKeys_paths (w : World) (keys : list sshKey) (key : sshKey) :
  getKeys w = Ok keys → key ∈ keys →
  Filepath.Base (path key) = name key ++ ".pub"%string
  ∧ (slash ∉ name key)
  ∧ (name key ≠ [] → name key ≠ str "." → name key ≠ str ".." →
     ∃ fullKeyPath, getFullKeyPath w (name key) = Ok fullKeyPath
                    ∧ fullKeyPath ++ ".pub"%string = path key).
Proof.
  intros Hk Hin.
  destruct (getKeys_files _ _ Hk) as (sshPath & Hs & Hf).
  rewrite Forall_forall in Hf. destruct (Hf key Hin) as (fname & Hsl & -> & Hpath).
  pose proof (getSSHPath_not_nil _ _ Hs) as Hne.
  destruct (proper_pub_name _ Hsl) as (Hp1 & Hp2 & Hp3).
  assert (slash ∉ name key) as Hsn.
  { intros Hx. apply Hsl, elem_of_app. by left. }
  split; [|split; [done|]].
  - rewrite Hpath. by apply Base_Join_name.
  - intros Hn Hd Hdd. unfold getFullKeyPath. rewrite Hs. simpl.
    assert (Filepath.IsAbs (name key) = false) as ->.
    { destruct (name key) as [|c r] eqn:E; [done|]. simpl.
      apply bool_decide_eq_false. intros ->. apply Hsn. left. }
    eexists. split; [done|]. rewrite Hpath. unfold Filepath.Join.
    destruct sshPath as [|c sshPath]; [done|].
    destruct (Clean_name_prefix (c :: sshPath) Hne) as [pre Hpre].
    rewrite (Hpre (name key)), (Hpre (name key ++ str ".pub")) by done.
    by rewrite app_assoc.
Qed.

Lemma firstComment_cons line rest :
  firstComment (line :: rest)
  = if Strings.HasPrefix line commentLine then Strings.TrimPrefix line commentLine
    else firstComment rest.
Proof. reflexivity. Qed.

(** X13.  The comment of a key file is what follows [Comment: ] on the
    first line that starts with these bytes; lines before it that do not
    start so are passed over, and a file without such a line has the empty
    comment. *)
Theorem getKeyComment_first (w : World) (path content : gostring) :
  Os.ReadFile w path = Ok content →
  (∀ before text after,
     Strings.Split content newline = before ++ (commentLine ++ text) :: after →
     Forall (λ line, Strings.HasPrefix line commentLine = false) before →
     getKeyComment w path = Ok text)
  ∧ (Forall (λ line, Strings.HasPrefix line commentLine = false)
       (Strings.Split content newline) →
     getKeyComment w path = Ok []).
Proof.
  intros Hr. unfold getKeyComment. rewrite Hr, bind_Ok. split.
  - intros before text after -> Hb. f_equal.
    induction Hb as [|l before Hl Hb IH].
    + by rewrite app_nil_l, firstComment_cons, HasPrefix_app, TrimPrefix_app.
    + by rewrite <- app_comm_cons, firstComment_cons, Hl.
  - intros Hn. f_equal. induction Hn as [|l lines Hl Hn IH]; [done|].
    by rewrite firstComment_cons, Hl.
Qed.

(** ** Commands in sequence *)

Lemma TrimSpace_hostLine host :
  hostOk host → Strings.TrimSpace (hostLine host) = hostLine host.
Proof.
  intros (Hne & _ & Ht). unfold hostLine.
  apply TrimSpace_after; [done|done|by destruct host as [|? [|? ?]]|].
  intros c r [= <- _]. by vm_compute.
Qed.

Lemma hostLine_kind host :
  hostOk host → isHostLine (hostLine host) = true ∧ hostArg (hostLine host) = host.
Proof.
  intros Hh. unfold isHostLine, hostArg. rewrite (TrimSpace_hostLine _ Hh).
  unfold hostLine. rewrite HasPrefix_app, TrimPrefix_app.
  by destruct Hh as (_ & _ & ->).
Qed.

Lemma TrimSpace_identityLine key :
  lineSafe key →
  Strings.TrimSpace (identityLine key) = "IdentityFile "%string ++ key.
Proof.
  intros (Hne & _ & Ht). unfold identityLine, Strings.TrimSpace.
  assert (Strings.trimLeftSpace ("  IdentityFile "%string ++ key)
          = "IdentityFile "%string ++ key) as -> by done.
  apply trimRightSpace_app; try done.
  - by apply TrimSpace_fixed.
  - intros c r [= <- _]. by vm_compute.
Qed.

Lemma identityLine_kind key :
  lineSafe key →
  isHostLine (identityLine key) = false
  ∧ isIdentityLine (identityLine key) = true
  ∧ identityArg (identityLine key) = key.
Proof.
  intros Hk. unfold isIdentityLine, isHostLine, identityArg.
  rewrite (TrimSpace_identityLine _ Hk).
  assert (Strings.HasPrefix ("IdentityFile "%string ++ key) "Host "%string = false)
    as -> by done.
  rewrite HasPrefix_app, TrimPrefix_app. by destruct Hk as (_ & _ & ->).
Qed.

Lemma blank_kind : isHostLine [] = false ∧ isIdentityLine [] = false.
Proof. done. Qed.

(** The text of a mapping with one host. *)
Lemma configText_singleton (seed : nat) host (keyPaths : list gostring) :
  configText seed {[ host := keyPaths ]}
  = Strings.Join (hostLine host :: (identityLine <$> keyPaths) ++ [[]]) [newline].
Proof.
  unfold configText. rewrite rangeMap_singleton.
  change ([(host, keyPaths)].*1) with [host].
  assert (Sort.Strings [host] = [host]) as ->.
  { apply Permutation_singleton_r, Sort_Strings_Permutation. }
  change ([host] ≫= hostLines {[host := keyPaths]})
    with (hostLines {[host := keyPaths]} host ++ []).
  rewrite app_nil_r. unfold hostLines.
  by rewrite lookup_total_singleton_eq.
Qed.

Lemma parseLines_setFiles w fs seeds lines i config :
  parseLines (setFiles w fs) seeds i config lines = parseLines w seeds i config lines.
Proof.
  revert i config. induction lines as [|l lines IH]; intros i config; [done|].
  rewrite !parseLines_cons.
  change (parseLine (setFiles w fs) (seeds i) config l)
    with (parseLine w (seeds i) config l).
  destruct (parseLine w (seeds i) config l); [|done]. by rewrite !bind_Ok, IH.
Qed.


(** The text of a mapping with one host and at most one key, parsed: the
    host with the expansion of the key, in every run. *)
Lemma parseText_singleton w seeds seed host :
  hostOk host →
  parseText w seeds (configText seed {[ host := [] ]}) = Ok {[ host := [] ]}
  ∧ ∀ key, lineSafe key →
      parseText w seeds (configText seed {[ host := [key] ]})
      = keyPath ← expandPath w key; Ok {[ host := [keyPath] ]}.
Proof.
  intros Hh. destruct (hostLine_kind _ Hh) as [Hk Ha].
  assert (newline ∉ hostLine host) as Hnl.
  { destruct Hh as (_ & Hn & _). by apply newline_not_in_line. }
  split.
  - unfold parseText. rewrite configText_singleton, Split_Join; [|done|].
    + change ((identityLine <$> []) ++ [[]]) with [[] : gostring].
      rewrite parseLines_cons, (parseLine_hostLine _ _ _ _ Hk), bind_Ok, Ha.
      by rewrite parseLines_cons, parseLine_blank.
    + repeat constructor; [done|]. apply not_elem_of_nil.
  - intros key Hs. destruct (identityLine_kind _ Hs) as (Hi1 & Hi2 & Hi3).
    unfold parseText. rewrite configText_singleton, Split_Join; [|done|].
    + change ((identityLine <$> [key]) ++ [[]]) with [identityLine key; []].
      rewrite parseLines_cons, (parseLine_hostLine _ _ _ _ Hk), bind_Ok, Ha.
      rewrite parseLines_cons, (parseLine_identity _ _ _ _ Hi2), Hi3.
      destruct (expandPath w key) as [p|]; [|done].
      rewrite !bind_Ok, getLastHost_singleton, lookup_total_insert_eq, insert_insert_eq.
      by rewrite parseLines_cons, parseLine_blank.
    + destruct Hs as (_ & Hn & _).
      repeat constructor; [done|by apply newline_not_in_line|apply not_elem_of_nil].
Qed.

(** Parsing the config that was just written. *)
Lemma parseConfig_written w seeds configPath t text :
  getConfigPath w = Ok configPath →
  parseConfig (setFiles w (<[configPath := Regular t text]> (files w))) seeds
  = parseText w seeds text.
Proof.
  intros Hc. unfold parseConfig.
  change (getConfigPath (setFiles w _)) with (getConfigPath w). rewrite Hc, bind_Ok.
  unfold Os.ReadFile.
  change (files (setFiles w ?fs)) with fs. rewrite lookup_insert_eq, bind_Ok.
  apply parseLines_setFiles.
Qed.

(** A mapping with no host but [host], after [host] is set. *)
Lemma only_host (config : Config) host (keyPaths : list gostring) :
  (∀ other, is_Some (config !! other) → other = host) →
  <[host := keyPaths]> config = {[ host := keyPaths ]}.
Proof.
  intros Ho. apply map_eq. intros k.
  destruct (decide (k = host)) as [->|Hne].
  - by rewrite lookup_insert_eq, lookup_singleton_eq.
  - rewrite lookup_insert_ne, lookup_singleton_ne by done.
    destruct (config !! k) eqn:E; [|done]. destruct Hne. apply Ho. by eexists.
Qed.

(** X14.  [map] twice on the same host: when the parsed mapping has no
    other host and the host has no key, [map] writes the key, the config is
    then parsed in every run to the host with the expanded key, and a second
    [map] on that host, with any key, prints the conflict and changes
    nothing. *)
Theorem mapKey_twice (w : World) (seeds : nat → nat) (wseed : nat)
    (key host keyPath configPath : gostring) (config : Config) :
  parseConfig w seeds = Ok config →
  (∀ other, is_Some (config !! other) → other = host) →
  config !!! host = [] →
  hostOk host → lineSafe key → expandPath w key = Ok keyPath →
  getConfigPath w = Ok configPath → configPath ∉ readOnly w →
  ∃ w',
    mapKey seeds wseed key host w = Done w' [mappedMsg key host]
    ∧ (∀ seeds', parseConfig w' seeds' = Ok {[ host := [keyPath] ]})
    ∧ ∀ seeds' wseed' key',
        mapKey seeds' wseed' key' host w' = Done w' [alreadyMappedMsg host].
Proof.
  intros Hp Ho He Hh Hs Hx Hc Hro.
  destruct (parseConfig_inv _ _ _ Hp) as (cp & t & content & Hc' & Hf & _).
  rewrite Hc in Hc'. injection Hc' as <-.
  assert (<[host := (config !!! host) ++ [key]]> config = {[ host := [key] ]}) as Hm.
  { rewrite He. by apply only_host. }
  exists (setFiles w (<[configPath := Regular (clock w)
                          (configText wseed {[ host := [key] ]})]> (files w))).
  split; [|split].
  - unfold mapKey. rewrite Hc, Hp, !orFatal_Ok.
    rewrite decide_False by (rewrite He; simpl; lia).
    rewrite Hm, (writeConfig_regular _ _ _ _ _ _ Hf).
    rewrite decide_False by done. by rewrite orFatal_Ok.
  - intros seeds'. rewrite (parseConfig_written _ _ _ _ _ Hc).
    rewrite (proj2 (parseText_singleton w seeds' wseed host Hh) key Hs), Hx. done.
  - intros seeds' wseed' key'. unfold mapKey.
    change (getConfigPath (setFiles w ?fs)) with (getConfigPath w).
    rewrite Hc, orFatal_Ok, (parseConfig_written _ _ _ _ _ Hc).
    rewrite (proj2 (parseText_singleton w seeds' wseed host Hh) key Hs), Hx.
    rewrite bind_Ok, orFatal_Ok, lookup_total_singleton_eq. simpl length.
    by rewrite decide_True by lia.
Qed.

(** X15.  [unmap] then [map]: when the parsed mapping is one host with
    one key, [unmap] of that key leaves the host without key in the config,
    and a [map] that follows gives it the new key: the config is then parsed
    in every run to the host with the expansion of the new key. *)
Theorem unmapKey_then_mapKey (w : World) (seeds : nat → nat) (wseed : nat)
    (key key' host keyPath' configPath : gostring) :
  parseConfig w seeds = Ok {[ host := [key] ]} →
  hostOk host → lineSafe key' → expandPath w key' = Ok keyPath' →
  getConfigPath w = Ok configPath → configPath ∉ readOnly w →
  ∃ w1 w2,
    unmapKey seeds wseed key host w = Done w1 [unmappedMsg key host]
    ∧ (∀ seeds1, parseConfig w1 seeds1 = Ok {[ host := [] ]})
    ∧ (∀ seeds1, mapKey seeds1 wseed key' host w1 = Done w2 [mappedMsg key' host])
    ∧ ∀ seeds2, parseConfig w2 seeds2 = Ok {[ host := [keyPath'] ]}.
Proof.
  intros Hp Hh Hs Hx Hc Hro.
  destruct (parseConfig_inv _ _ _ Hp) as (cp & t & content & Hc' & Hf & _).
  rewrite Hc in Hc'. injection Hc' as <-.
  assert (unmapConfig key host {[ host := [key] ]} = ({[ host := [] ]} : Config)) as Hu.
  { unfold unmapConfig. rewrite lookup_total_singleton_eq. simpl.
    rewrite decide_True by done. apply insert_singleton_eq. }
  set (w1 := setFiles w (<[configPath := Regular (clock w)
                             (configText wseed {[ host := [] ]})]> (files w))).
  assert (∀ seeds1, parseConfig w1 seeds1 = Ok {[ host := [] ]}) as Hp1.
  { intros seeds1. unfold w1. rewrite (parseConfig_written _ _ _ _ _ Hc).
    apply (parseText_singleton w seeds1 wseed host Hh). }
  assert (getConfigPath w1 = Ok configPath) as Hc1 by exact Hc.
  assert (files w1 !! configPath
          = Some (Regular (clock w) (configText wseed {[ host := [] ]}))) as Hf1.
  { unfold w1. change (files (setFiles w ?fs)) with fs. apply lookup_insert_eq. }
  exists w1, (setFiles w1 (<[configPath := Regular (clock w1)
                              (configText wseed {[ host := [key'] ]})]> (files w1))).
  split; [|split; [done|split]].
  - unfold unmapKey. rewrite Hc, Hp, !orFatal_Ok, Hu.
    rewrite (writeConfig_regular _ _ _ _ _ _ Hf), decide_False by done.
    by rewrite orFatal_Ok.
  - intros seeds1. unfold mapKey. rewrite Hc1, Hp1, !orFatal_Ok.
    rewrite lookup_total_singleton_eq. simpl length. rewrite decide_False by lia.
    simpl app. rewrite insert_singleton_eq.
    rewrite (writeConfig_regular _ _ _ _ _ _ Hf1), decide_False by done.
    by rewrite orFatal_Ok.
  - intros seeds2. rewrite (parseConfig_written _ _ _ _ _ Hc1).
    change (parseText w1 seeds2 ?x) with (parseLines w1 seeds2 0 ∅ (Strings.Split x newline)).
    unfold w1 at 1. rewrite parseLines_setFiles.
    change (parseLines w seeds2 0 ∅ (Strings.Split ?x newline)) with (parseText w seeds2 x).
    rewrite (proj2 (parseText_singleton w seeds2 wseed host Hh) key' Hs), Hx. done.
Qed.
(** ** What every run keeps of a written mapping *)

Lemma listed_insert_new (parsed : Config) host keyPath :
  parsed !! host = None →
  listed (<[host := []]> parsed) keyPath ↔ listed parsed keyPath.
Proof.
  intros Hn. split; intros (h & ks & Hh & Hk).
  - destruct (decide (h = host)) as [->|Hne].
    + rewrite lookup_insert_eq in Hh. injection Hh as <-. by apply elem_of_nil in Hk.
    + rewrite lookup_insert_ne in Hh by done. by exists h, ks.
  - exists h, ks. split; [|done]. rewrite lookup_insert_ne; [done|].
    intros <-. by rewrite Hn in Hh.
Qed.

Lemma listed_append (parsed : Config) host keyPath p :
  is_Some (parsed !! host) →
  listed (<[host := (parsed !!! host) ++ [keyPath]]> parsed) p
  ↔ listed parsed p ∨ p = keyPath.
Proof.
  intros [ks0 H0]. rewrite (lookup_total_correct _ _ _ H0). split.
  - intros (h & ks & Hh & Hk). destruct (decide (h = host)) as [->|Hne].
    + rewrite lookup_insert_eq in Hh. injection Hh as <-.
      apply elem_of_app in Hk as [Hk|Hk%list_elem_of_singleton]; [|by right].
      left. by exists host, ks0.
    + rewrite lookup_insert_ne in Hh by done. left. by exists h, ks.
  - intros [(h & ks & Hh & Hk)| ->].
    + destruct (decide (h = host)) as [->|Hne].
      * exists host, (ks0 ++ [keyPath]). rewrite lookup_insert_eq. split; [done|].
        rewrite H0 in Hh. injection Hh as <-. apply elem_of_app. by left.
      * exists h, ks. by rewrite lookup_insert_ne.
    + exists host, (ks0 ++ [keyPath]). rewrite lookup_insert_eq. split; [done|].
      apply elem_of_app. right. left.
Qed.

Section any_run.
Context (w : World) (seeds : nat → nat) (config : Config).

(** The identity-file lines of a block, in any run: each path goes to
    some host that is declared. *)
Lemma parseLines_keys_any (keyPaths tail : list gostring) (i : nat) (parsed : Config) :
  parsed ≠ ∅ → Forall (keyPathOk w) keyPaths →
  ∃ parsed1,
    parseLines w seeds i parsed ((identityLine <$> keyPaths) ++ tail)
    = parseLines w seeds (i + length keyPaths) parsed1 tail
    ∧ dom parsed1 = (dom parsed : gset gostring)
    ∧ ∀ p, listed parsed1 p ↔ listed parsed p ∨ p ∈ keyPaths.
Proof.
  revert i parsed. induction keyPaths as [|k ks IH]; intros i parsed Hne Hk.
  { exists parsed. rewrite Nat.add_0_r. split; [done|]. split; [done|].
    intros p. split; [by left|]. by intros [?|?%elem_of_nil]. }
  apply Forall_cons in Hk as [Hk Hks].
  rewrite fmap_cons, <- app_comm_cons, parseLines_cons.
  rewrite (parseLine_key _ _ _ _ Hk), bind_Ok.
  destruct (getLastHost_cases (seeds i) parsed) as [[_ ?]|Hg]; [done|].
  set (g := getLastHost (seeds i) parsed) in *.
  destruct (IH (S i) (<[g := (parsed !!! g) ++ [k]]> parsed)) as (parsed1 & Hp & Hd & Hl).
  { apply insert_non_empty. }
  { done. }
  exists parsed1. split; [|split].
  - rewrite Hp. f_equal. simpl. lia.
  - rewrite Hd, dom_insert_L. apply elem_of_dom in Hg.
    apply subseteq_union_1_L. by apply singleton_subseteq_l.
  - intros p. rewrite Hl, (listed_append _ _ _ _ Hg), elem_of_cons. tauto.
Qed.

(** The blocks of hosts that are not declared yet, in any run. *)
Lemma parseLines_blocks_any (hosts : list gostring) (i : nat) (parsed : Config) :
  Forall hostOk hosts →
  Forall (λ host, Forall (keyPathOk w) (config !!! host)) hosts →
  NoDup hosts → (∀ host, host ∈ hosts → parsed !! host = None) →
  ∃ parsed',
    parseLines w seeds i parsed (hosts ≫= hostLines config) = Ok parsed'
    ∧ (∀ host, is_Some (parsed' !! host) ↔ is_Some (parsed !! host) ∨ host ∈ hosts)
    ∧ ∀ p, listed parsed' p
           ↔ listed parsed p ∨ ∃ host, host ∈ hosts ∧ p ∈ config !!! host.
Proof.
  revert i parsed. induction hosts as [|h hosts IH]; intros i parsed Hh Hk Hnd Hnew.
  { exists parsed. split; [done|]. split.
    - intros host. split; [by left|]. by intros [?|?%elem_of_nil].
    - intros p. split; [by left|]. by intros [?|(? & ?%elem_of_nil & _)]. }
  apply Forall_cons in Hh as [Hh Hhs]. apply Forall_cons in Hk as [Hk Hks].
  apply NoDup_cons in Hnd as [Hnin Hnd].
  rewrite bind_cons. unfold hostLines at 1.
  rewrite <- app_comm_cons, parseLines_cons, (parseLine_host _ _ _ _ Hh), bind_Ok.
  rewrite <- app_assoc.
  destruct (parseLines_keys_any (config !!! h) ([[]] ++ (hosts ≫= hostLines config))
              (S i) (<[h := []]> parsed)) as (parsed1 & Hp & Hd & Hl).
  { apply insert_non_empty. }
  { done. }
  rewrite Hp. rewrite <- app_comm_cons, app_nil_l, parseLines_cons, parseLine_blank, bind_Ok.
  assert (∀ host, is_Some (parsed1 !! host) ↔ is_Some (parsed !! host) ∨ host = h) as Hd1.
  { intros host. rewrite <- !elem_of_dom, Hd, dom_insert_L, elem_of_union,
      elem_of_singleton. tauto. }
  destruct (IH (S (S i + length (config !!! h))) parsed1 Hhs Hks Hnd)
    as (parsed' & Hp' & Hd' & Hl').
  { intros host Hin. apply eq_None_not_Some. rewrite Hd1.
    intros [Hs| ->]; [|done]. rewrite Hnew in Hs by (by right). by destruct Hs. }
  exists parsed'. split; [done|]. split.
  - intros host. rewrite Hd', Hd1, elem_of_cons. tauto.
  - intros p. rewrite Hl', Hl, (listed_insert_new _ _ _ (Hnew h ltac:(left))).
    split.
    + intros [[?|?]|(host & Hin & Hp0)]; [by left| |].
      * right. exists h. split; [left|done].
      * right. exists host. split; [by right|done].
    + intros [?|(host & [->|Hin]%elem_of_cons & Hp0)]; [by left; left|by left; right|].
      right. by exists host.
Qed.
End any_run.

(** The text of a mapping, in any run. *)
Lemma parseText_configText_any (w : World) (seeds : nat → nat) (wseed : nat)
    (config : Config) :
  readsBack w config →
  ∃ config',
    parseText w seeds (configText wseed config) = Ok config'
    ∧ (∀ host, is_Some (config' !! host) ↔ is_Some (config !! host))
    ∧ ∀ keyPath, listed config' keyPath ↔ listed config keyPath.
Proof.
  intros Hrb. unfold parseText, configText.
  set (hosts := Sort.Strings ((rangeMap wseed config).*1)).
  assert (hosts ≡ₚ (map_to_list config).*1) as Hp.
  { unfold hosts. by rewrite Sort_Strings_Permutation, rangeMap_Permutation. }
  assert (∀ host, host ∈ hosts ↔ is_Some (config !! host)) as Hdom.
  { intros host. rewrite Hp, list_elem_of_fmap. split.
    - intros [[k v] [-> Hkv]]. exists v. by apply elem_of_map_to_list.
    - intros [v Hv]. exists (host, v). split; [done|]. by apply elem_of_map_to_list. }
  assert (NoDup hosts) as Hnd by (rewrite Hp; apply NoDup_fst_map_to_list).
  assert (Forall hostOk hosts) as Hh.
  { apply Forall_forall. intros h [ks Hks]%Hdom. by destruct (Hrb h ks Hks). }
  assert (Forall (λ host, Forall (keyPathOk w) (config !!! host)) hosts) as Hk.
  { apply Forall_forall. intros h [ks Hks]%Hdom.
    rewrite (lookup_total_correct _ _ _ Hks). by destruct (Hrb h ks Hks). }
  destruct (parseLines_blocks_any w seeds config hosts 0 ∅ Hh Hk Hnd)
    as (config' & Hparse & Hd & Hl).
  { intros host _. apply lookup_empty. }
  assert (∀ host, is_Some (config' !! host) ↔ is_Some (config !! host)) as Hd'.
  { intros host. rewrite Hd, Hdom, lookup_empty. split; [|by right].
    intros [[? ?]|?]; done. }
  assert (∀ p, listed config' p ↔ listed config p) as Hl'.
  { intros p. rewrite Hl. split.
    - intros [(h & ks & Hx & _)|(h & Hin & Hp0)]; [by rewrite lookup_empty in Hx|].
      by apply lookup_total_listed in Hp0.
    - intros (h & ks & Hx & Hp0). right. exists h. split; [apply Hdom; by eexists|].
      by rewrite (lookup_total_correct _ _ _ Hx). }
  exists config'. split; [|done].
  destruct (hosts ≫= hostLines config) as [|l ls] eqn:E.
  { rewrite <- Hparse. reflexivity. }
  rewrite Split_Join; [done|done|]. rewrite <- E.
  apply (newline_not_in_lines w); [done|]. intros host. apply Hdom.
Qed.

(** X19.  Take a mapping whose host names and key paths the parser reads
    back as written.  When the writer has written it to the config file,
    the parser succeeds in every run, and what it returns has the same hosts
    and, over all hosts together, the same key paths: a run can only change
    the host under which a key path is listed. *)
Theorem parse_write_any_run (w w' : World) (wseed : nat)
    (configPath : gostring) (config : Config) (seeds : nat → nat) :
  readsBack w config →
  getConfigPath w = Ok configPath →
  writeConfig wseed configPath config w = Ok w' →
  ∃ config',
    parseConfig w' seeds = Ok config'
    ∧ (∀ host, is_Some (config' !! host) ↔ is_Some (config !! host))
    ∧ ∀ keyPath, listed config' keyPath ↔ listed config keyPath.
Proof.
  intros Hrb Hc Hw.
  assert (w' = setFiles w (<[configPath := Regular (clock w) (configText wseed config)]>
                             (files w))) as ->.
  { unfold writeConfig, Os.WriteFile in Hw.
    destruct (decide (configPath ∈ readOnly w)); [done|].
    destruct (files w !! configPath) as [[|]|]; by simplify_eq. }
  set (w' := setFiles w _).
  assert (parseConfig w' seeds = parseText w' seeds (configText wseed config)) as ->.
  { unfold parseConfig.
    change (getConfigPath w') with (getConfigPath w). rewrite Hc, bind_Ok.
    unfold Os.ReadFile, w'. simpl. by rewrite lookup_insert_eq. }
  apply parseText_configText_any. by apply readsBack_setFiles.
Qed.

(** ** A key that is mapped by its resolved path *)

(** The expansion of an absolute path that ends with a proper name after a
    separator ends with that name. *)
Lemma expandPath_name (w : World) dir keyName keyPath :
  Filepath.IsAbs (dir ++ [slash] ++ keyName) = true →
  keyName ≠ [] → slash ∉ keyName → keyName ≠ str "." → keyName ≠ str ".." →
  expandPath w (dir ++ [slash] ++ keyName) = Ok keyPath →
  Filepath.Base keyPath = keyName.
Proof.
  intros Habs Hn Hs Hd Hdd. unfold expandPath, Abs. rewrite Habs.
  assert (Strings.HasPrefix (dir ++ [slash] ++ keyName) "~"%string = false) as ->.
  { destruct (dir ++ [slash] ++ keyName) as [|c r]; [done|].
    simpl in Habs. apply bool_decide_eq_true in Habs as ->. done. }
  intros H. injection H as <-.
  destruct (Clean_name dir keyName Hn Hs Hd Hdd) as (pre & Hc & Hpre).
  change (dir ++ [slash] ++ keyName) with (dir ++ slash :: keyName) in Hc.
  rewrite Hc. by apply Base_name.
Qed.

(** X20.  With an absolute home directory, a key of the inventory whose
    name is a proper file name, and whose private key path as [delete]
    resolves it from that name is listed in the config in its expanded form
    (as [map] stores it), counts as used in both computations: the base name
    of the stored path is the name of the key, and neither [unused] nor the
    unused section of [audit] reports it. *)
Theorem listed_key_is_used (w : World) (seeds : nat → nat) (seed seed' : nat)
    (keys : list sshKey) (key : sshKey) (fullKeyPath keyPath : gostring)
    (config : Config) :
  absoluteEnv w →
  getKeys w = Ok keys → key ∈ keys →
  name key ≠ [] → name key ≠ str "." → name key ≠ str ".." →
  getFullKeyPath w (name key) = Ok fullKeyPath →
  expandPath w fullKeyPath = Ok keyPath →
  parseConfig w seeds = Ok config → listed config keyPath →
  Filepath.Base keyPath = name key
  ∧ isKeyUsed seed' key config = true
  ∧ (key ∉ auditUnusedKeys seed' keys config)
  ∧ ∃ unused, listUnusedKeys seeds seed w = Ok unused ∧ key ∉ unused.
Proof.
  intros [Hhome _] Hk Hin Hn Hd Hdd Hfull Hexp Hparse (host & keyPaths & Hh & Hkp).
  destruct (getKeys_files _ _ Hk) as (sshPath & Hs & Hf).
  rewrite Forall_forall in Hf. destruct (Hf key Hin) as (fname & Hsl & -> & Hpath).
  pose proof (getKeys_keys _ _ Hk) as Hb. rewrite Forall_forall in Hb.
  destruct (Hb key Hin) as (fname & _ & Hname & Hbase).
  assert (slash ∉ name key) as Hsn.
  { intros Hx. apply Hsl, elem_of_app. by left. }
  assert (Filepath.IsAbs sshPath = true) as Habs.
  { unfold getSSHPath, Os.userCurrent in Hs.
    destruct (homeDir w) as [home|] eqn:E; simpl in Hs; [|done].
    injection Hs as <-. by apply IsAbs_Join, Hhome. }
  assert (Filepath.Base keyPath = name key) as Hbk.
  { unfold getFullKeyPath in Hfull. rewrite Hs, bind_Ok in Hfull.
    assert (Filepath.IsAbs (name key) = false) as E.
    { destruct (name key) as [|c r] eqn:E; [done|]. simpl.
      apply bool_decide_eq_false. intros ->. apply Hsn. left. }
    rewrite E in Hfull. injection Hfull as <-.
    pose proof (IsAbs_Join sshPath (name key) Habs) as Hfa.
    unfold Filepath.Join in Hfa, Hexp.
    destruct sshPath as [|c sshPath]; [done|].
    destruct (Clean_name (c :: sshPath) (name key) Hn Hsn Hd Hdd)
      as (pre & Hc & [->|[pre' ->]]).
    - rewrite Hc, app_nil_l in Hfa. destruct (name key) as [|x r]; [done|].
      simpl in Hfa. apply bool_decide_eq_true in Hfa as ->.
      exfalso. apply Hsn. left.
    - rewrite Hc, <- app_assoc in Hexp, Hfa.
      by apply (expandPath_name w pre' (name key) keyPath). }
  assert (referenced config (name key)) as Hr by (by exists host, keyPaths, keyPath).
  assert (isKeyUsed seed' key config = true) as Hu.
  { apply isKeyUsed_referenced. rewrite Hbase.
    change (str ".pub") with keyFileExt. by rewrite <- Hname. }
  split; [done|]. split; [done|]. split.
  - unfold auditUnusedKeys. rewrite list_elem_of_filter. intros [Hx _].
    by rewrite Hu in Hx.
  - unfold listUnusedKeys. rewrite Hk, bind_Ok, Hparse, bind_Ok.
    eexists. split; [done|]. unfold unusedKeys. rewrite list_elem_of_filter.
    intros [Hx _]. apply (isUsedName_referenced seed) in Hr. by rewrite Hr in Hx.
Qed.

(** ** The records of the inventory *)

(** The creation time and the comment of a key of the inventory are those
    that were read at its path. *)
Lemma scanKeys_records w sshPath entries keys :
  scanKeys w sshPath entries = Ok keys →
  Forall (λ key, getFileCreationTime w (path key) = Ok (created key)
                 ∧ getKeyComment w (path key) = Ok (comment key)) keys.
Proof.
  revert keys. induction entries as [|file rest IH]; intros keys; simpl.
  { intros [= <-]. constructor. }
  destruct (negb (Os.IsDir file) && Strings.HasSuffix (Os.Name file) keyFileExt).
  - destruct (getFileCreationTime w _) as [t|] eqn:Et; simpl; [|done].
    destruct (getKeyComment w _) as [c|] eqn:Ec; simpl; [|done].
    destruct (scanKeys w sshPath rest) as [keys'|]; simpl; [|done].
    intros [= <-]. constructor; [done|]. by apply IH.
  - apply IH.
Qed.

(** No entry that is a file with the extension is passed over. *)
Lemma scanKeys_complete w sshPath entries keys file :
  scanKeys w sshPath entries = Ok keys →
  file ∈ entries → Os.IsDir file = false →
  Strings.HasSuffix (Os.Name file) keyFileExt = true →
  ∃ key, key ∈ keys
         ∧ name key = Strings.TrimSuffix (Os.Name file) keyFileExt
         ∧ path key = Filepath.Join sshPath (Os.Name file).
Proof.
  revert keys. induction entries as [|f rest IH]; intros keys Hk Hin Hd Hs.
  { by apply elem_of_nil in Hin. }
  simpl in Hk.
  destruct (negb (Os.IsDir f) && Strings.HasSuffix (Os.Name f) keyFileExt) eqn:E.
  - destruct (getFileCreationTime w _) as [t|]; simpl in Hk; [|done].
    destruct (getKeyComment w _) as [c|]; simpl in Hk; [|done].
    destruct (scanKeys w sshPath rest) as [keys'|]; simpl in Hk; [|done].
    injection Hk as <-. apply elem_of_cons in Hin as [->|Hin].
    + eexists. split; [left|]. done.
    + destruct (IH keys' eq_refl Hin Hd Hs) as (key & Hkey & H).
      exists key. split; [by right|done].
  - apply elem_of_cons in Hin as [->|Hin].
    + by rewrite Hd, Hs in E.
    + by apply IH.
Qed.

(** A regular file right under a directory is one of its entries. *)
Lemma ReadDir_regular w dir entries fname t content :
  Os.ReadDir w dir = Ok entries →
  files w !! (Os.entryPrefix dir ++ fname) = Some (Regular t content) →
  fname ≠ [] → slash ∉ fname →
  {| Os.Name := fname; Os.IsDir := false |} ∈ entries.
Proof.
  unfold Os.ReadDir. destruct (files w !! dir) as [[?|? ?]|]; try done.
  intros [= <-] Hf Hn Hs. rewrite merge_sort_Permutation.
  apply list_elem_of_omap. exists (Os.entryPrefix dir ++ fname, Regular t content).
  split; [by apply elem_of_map_to_list|].
  unfold Os.entryOf, Os.entryName. simpl.
  rewrite HasPrefix_app, drop_app_length, decide_True by done. done.
Qed.

(** X21.  The inventory against the files.  Every key of the inventory
    is a regular file: its creation time is the modification time of that
    file, and its comment is the first comment line of its content.  And
    every regular file right under the SSH directory whose name ends with
    [.pub] has its key in the inventory. *)
Theorem getKeys_inventory (w : World) (sshPath : gostring) (keys : list sshKey) :
  getSSHPath w = Ok sshPath → getKeys w = Ok keys →
  (∀ key, key ∈ keys →
     ∃ t content,
       files w !! path key = Some (Regular t content)
       ∧ created key = t
       ∧ comment key = firstComment (Strings.Split content newline))
  ∧ (∀ fname t content,
       files w !! (Os.entryPrefix sshPath ++ fname) = Some (Regular t content) →
       fname ≠ [] → slash ∉ fname → Strings.HasSuffix fname ".pub"%string = true →
       ∃ key, key ∈ keys
              ∧ name key = Strings.TrimSuffix fname ".pub"%string
              ∧ path key = Filepath.Join sshPath fname).
Proof.
  intros Hs. unfold getKeys. rewrite Hs, bind_Ok.
  destruct (Os.ReadDir w sshPath) as [entries|] eqn:Hr; [|done].
  rewrite bind_Ok. intros Hk. split.
  - intros key Hin. apply scanKeys_records in Hk. rewrite Forall_forall in Hk.
    destruct (Hk key Hin) as [Ht Hc].
    unfold getFileCreationTime, Os.StatModTime in Ht.
    unfold getKeyComment, Os.ReadFile in Hc.
    destruct (files w !! path key) as [[t|t content]|]; try done.
    exists t, content. split; [done|]. simpl in Hc. by simplify_eq.
  - intros fname t content Hf Hn Hsl Hsuf.
    pose proof (ReadDir_regular _ _ _ _ _ _ Hr Hf Hn Hsl) as Hin.
    apply (scanKeys_complete _ _ _ _ _ Hk Hin); done.
Qed.


(** ** The whole of [delete], and commands without a config file *)

(** The parser only reads the config file. *)
Lemma parseConfig_frame w fs seeds configPath :
  getConfigPath w = Ok configPath →
  fs !! configPath = files w !! configPath →
  parseConfig (setFiles w fs) seeds = parseConfig w seeds.
Proof.
  intros Hc Hf. unfold parseConfig.
  change (getConfigPath (setFiles w fs)) with (getConfigPath w). rewrite Hc, !bind_Ok.
  unfold Os.ReadFile. change (files (setFiles w fs)) with fs. rewrite Hf.
  destruct (files w !! configPath) as [[|t c]|]; try done.
  rewrite !bind_Ok. apply parseLines_setFiles.
Qed.

Lemma pub_path_ne (fullKeyPath : gostring) : fullKeyPath ++ str ".pub" ≠ fullKeyPath.
Proof.
  intros E. apply (f_equal length) in E. rewrite length_app in E.
  change (length (str ".pub")) with 4 in E. lia.
Qed.

(** X16.  [delete], when the two key files exist, the config parses and
    can be written: both files are removed, the config file then holds the
    text of the parsed mapping without, under each host, its first entry
    equal to the full path of the key (hosts left without entry are dropped),
    every other file is as it was, and the command prints its message. *)
Theorem deleteKey_done (seeds : nat → nat) (dseed wseed : nat)
    (key fullKeyPath configPath : gostring) (t t' : Z) (content content' : gostring)
    (config : Config) (w : World) :
  getFullKeyPath w key = Ok fullKeyPath →
  files w !! fullKeyPath = Some (Regular t content) →
  files w !! (fullKeyPath ++ ".pub"%string) = Some (Regular t' content') →
  getConfigPath w = Ok configPath →
  configPath ≠ fullKeyPath → configPath ≠ fullKeyPath ++ ".pub"%string →
  parseConfig w seeds = Ok config →
  configPath ∉ readOnly w →
  ∃ w',
    deleteKey seeds dseed wseed key w = Done w' [deletedMsg key]
    ∧ files w' !! fullKeyPath = None
    ∧ files w' !! (fullKeyPath ++ ".pub"%string) = None
    ∧ Os.ReadFile w' configPath
      = Ok (configText wseed (deleteConfig dseed fullKeyPath config))
    ∧ ∀ other, other ≠ fullKeyPath → other ≠ fullKeyPath ++ ".pub"%string →
        other ≠ configPath → files w' !! other = files w !! other.
Proof.
  intros Hf Hk Hpub Hc Hne1 Hne2 Hp Hro.
  set (fs1 := delete fullKeyPath (files w)).
  set (fs2 := delete (fullKeyPath ++ ".pub"%string) fs1).
  assert (Os.Remove w fullKeyPath = Ok (setFiles w fs1)) as H1.
  { unfold Os.Remove. by rewrite Hk. }
  assert (Os.Remove (setFiles w fs1) (fullKeyPath ++ ".pub"%string)
          = Ok (setFiles w fs2)) as H2.
  { unfold Os.Remove. change (files (setFiles w fs1)) with fs1. unfold fs1 at 1.
    by rewrite lookup_delete_ne, Hpub by (symmetry; apply pub_path_ne). }
  assert (fs2 !! configPath = files w !! configPath) as Hcf.
  { unfold fs2, fs1. by rewrite !lookup_delete_ne. }
  destruct (parseConfig_inv _ _ _ Hp) as (cp & tc & cc & Hc' & Hfc & _).
  rewrite Hc in Hc'. injection Hc' as <-.
  set (text := configText wseed (deleteConfig dseed fullKeyPath config)).
  exists (setFiles w (<[configPath := Regular (clock w) text]> fs2)).
  split; [|split; [|split; [|split]]].
  - unfold deleteKey. rewrite Hf, orFatal_Ok, H1, orFatal_Ok, H2, orFatal_Ok.
    change (getConfigPath (setFiles w fs2)) with (getConfigPath w).
    rewrite Hc, orFatal_Ok, (parseConfig_frame _ _ _ _ Hc Hcf), Hp, orFatal_Ok.
    unfold writeConfig, Os.WriteFile.
    change (readOnly (setFiles w fs2)) with (readOnly w).
    change (files (setFiles w fs2)) with fs2.
    rewrite decide_False by done. rewrite Hcf, Hfc. reflexivity.
  - change (files (setFiles w ?fs)) with fs.
    rewrite lookup_insert_ne by done. unfold fs2, fs1.
    rewrite lookup_delete_ne by apply pub_path_ne. apply lookup_delete_eq.
  - change (files (setFiles w ?fs)) with fs.
    rewrite lookup_insert_ne by done. apply lookup_delete_eq.
  - unfold Os.ReadFile. change (files (setFiles w ?fs)) with fs.
    by rewrite lookup_insert_eq.
  - intros other Ho1 Ho2 Ho3. change (files (setFiles w ?fs)) with fs.
    rewrite lookup_insert_ne by done. unfold fs2, fs1.
    by rewrite !lookup_delete_ne.
Qed.




(** ** Instances on the concrete worlds *)

Ltac by_computation := vm_compute; reflexivity.

Lemma absoluteEnv_oneHost : absoluteEnv oneHostWorld.
Proof. split; intros x [= <-]; reflexivity. Defined.

Lemma hostOk_foo : hostOk (str "foo").
Proof. unfold hostOk. compute_done. Defined.

Lemma lineSafe_abs_k : lineSafe (str "/abs/k").
Proof. unfold lineSafe. compute_done. Defined.

Lemma lineSafe_abs_id_b : lineSafe (str "/abs/id_b").
Proof. unfold lineSafe. compute_done. Defined.

Lemma parseConfig_key_paths_witness :
  parseConfig oneHostWorld seeds0 = Ok oneHostConfig
  ∧ listed oneHostConfig (str "/abs/id_a")
  ∧ ∃ configPath content line,
      getConfigPath oneHostWorld = Ok configPath
      ∧ Os.ReadFile oneHostWorld configPath = Ok content
      ∧ line ∈ Strings.Split content newline
      ∧ isIdentityLine line = true
      ∧ expandPath oneHostWorld (identityArg line) = Ok (str "/abs/id_a")
      ∧ (absoluteEnv oneHostWorld → Filepath.IsAbs (str "/abs/id_a") = true).
Proof.
  assert (parseConfig oneHostWorld seeds0 = Ok oneHostConfig) as H1 by by_computation.
  assert (listed oneHostConfig (str "/abs/id_a")) as H2.
  { exists (str "foo"), [str "/abs/id_a"]. split; [by_computation|left]. }
  exact (conj H1 (conj H2 (parseConfig_key_paths _ _ _ _ H1 H2))).
Defined.

Lemma parseConfig_hosts_witness :
  parseConfig oneHostWorld seeds0 = Ok oneHostConfig
  ∧ ∃ configPath content,
      getConfigPath oneHostWorld = Ok configPath
      ∧ Os.ReadFile oneHostWorld configPath = Ok content
      ∧ (∀ line, line ∈ Strings.Split content newline → isHostLine line = true →
           is_Some (oneHostConfig !! hostArg line))
      ∧ (∀ host, is_Some (oneHostConfig !! host) →
           (∃ line, line ∈ Strings.Split content newline
                    ∧ isHostLine line = true ∧ hostArg line = host)
           ∨ (host = []
              ∧ ∃ line, line ∈ Strings.Split content newline
                        ∧ isIdentityLine line = true)).
Proof.
  assert (parseConfig oneHostWorld seeds0 = Ok oneHostConfig) as H1 by by_computation.
  exact (conj H1 (parseConfig_hosts _ _ _ H1)).
Defined.

Lemma parseText_host_redeclared_witness :
  Strings.Split redeclaredText newline
    = [str "Host a"; str "  IdentityFile /x"] ++ str "Host a" :: []
  ∧ isHostLine (str "Host a") = true
  ∧ Forall (λ l, isIdentityLine l = false) []
  ∧ parseText oneHostWorld seeds0 redeclaredText = Ok {[ str "a" := [] ]}
  ∧ ({[ str "a" := [] ]} : Config) !! hostArg (str "Host a") = Some [].
Proof.
  assert (Strings.Split redeclaredText newline
          = [str "Host a"; str "  IdentityFile /x"] ++ str "Host a" :: []) as H1
    by by_computation.
  assert (isHostLine (str "Host a") = true) as H2 by by_computation.
  assert (parseText oneHostWorld seeds0 redeclaredText = Ok {[ str "a" := [] ]}) as H4
    by by_computation.
  exact (conj H1 (conj H2 (conj (Forall_nil_2 _) (conj H4
    (parseText_host_redeclared _ _ _ _ _ _ _ H1 H2 (Forall_nil_2 _) H4))))).
Defined.

Lemma parseText_one_host_witness :
  Strings.Split oneHostText newline
    = [] ++ str "Host foo" :: [str "  IdentityFile /abs/id_a"; []]
  ∧ Forall (λ l, isHostLine l = false ∧ isIdentityLine l = false) []
  ∧ isHostLine (str "Host foo") = true
  ∧ Forall (λ l, isHostLine l = false) [str "  IdentityFile /abs/id_a"; []]
  ∧ parseText oneHostWorld seeds0 oneHostText
    = keyPaths ← expandLines oneHostWorld [str "  IdentityFile /abs/id_a"; []];
      Ok {[ hostArg (str "Host foo") := keyPaths ]}.
Proof.
  assert (Strings.Split oneHostText newline
          = [] ++ str "Host foo" :: [str "  IdentityFile /abs/id_a"; []]) as H1
    by by_computation.
  assert (isHostLine (str "Host foo") = true) as H3 by by_computation.
  assert (Forall (λ l, isHostLine l = false) [str "  IdentityFile /abs/id_a"; []]) as H4.
  { constructor; [by_computation|]. constructor; [by_computation|]. constructor. }
  exact (conj H1 (conj (Forall_nil_2 _) (conj H3 (conj H4
    (parseText_one_host oneHostWorld seeds0 _ _ _ _ H1 (Forall_nil_2 _) H3 H4))))).
Defined.

Lemma parseText_skipped_line_witness :
  Strings.Split commentedText newline
    = [] ++ str "# keys" :: [str "Host foo"; str "  IdentityFile /abs/id_a"; []]
  ∧ Strings.Split oneHostText newline
    = [] ++ [str "Host foo"; str "  IdentityFile /abs/id_a"; []]
  ∧ isHostLine (str "# keys") = false
  ∧ isIdentityLine (str "# keys") = false
  ∧ parseText oneHostWorld seeds0 commentedText
    = parseText oneHostWorld (skipSeed (length ([] : list gostring)) seeds0) oneHostText.
Proof.
  assert (Strings.Split commentedText newline
          = [] ++ str "# keys" :: [str "Host foo"; str "  IdentityFile /abs/id_a"; []])
    as H1 by by_computation.
  assert (Strings.Split oneHostText newline
          = [] ++ [str "Host foo"; str "  IdentityFile /abs/id_a"; []]) as H2
    by by_computation.
  assert (isHostLine (str "# keys") = false) as H3 by by_computation.
  assert (isIdentityLine (str "# keys") = false) as H4 by by_computation.
  exact (conj H1 (conj H2 (conj H3 (conj H4
    (parseText_skipped_line oneHostWorld seeds0 _ _ _ _ _ H1 H2 H3 H4))))).
Defined.

Lemma unmapKey_not_absolute_witness :
  absoluteEnv oneHostWorld
  ∧ parseConfig oneHostWorld seeds0 = Ok oneHostConfig
  ∧ Filepath.IsAbs (str "id_a") = false
  ∧ (unmapConfig (str "id_a") (str "foo") oneHostConfig = oneHostConfig
     ∧ ∃ configPath,
         getConfigPath oneHostWorld = Ok configPath
         ∧ unmapKey seeds0 0 (str "id_a") (str "foo") oneHostWorld
           = if decide (configPath ∈ readOnly oneHostWorld)
             then Fatal oneHostWorld (ErrPermission configPath)
             else Done (setFiles oneHostWorld
                          (<[configPath := Regular (clock oneHostWorld)
                                             (configText 0 oneHostConfig)]>
                             (files oneHostWorld)))
                       [unmappedMsg (str "id_a") (str "foo")]).
Proof.
  assert (parseConfig oneHostWorld seeds0 = Ok oneHostConfig) as H2 by by_computation.
  exact (conj absoluteEnv_oneHost (conj H2 (conj eq_refl
    (unmapKey_not_absolute oneHostWorld seeds0 0 (str "id_a") (str "foo") oneHostConfig
       absoluteEnv_oneHost H2 eq_refl)))).
Defined.


Lemma deleteKey_missing_public_witness :
  getFullKeyPath halfKeyWorld (str "k") = Ok (str "/home/u/.ssh/k")
  ∧ files halfKeyWorld !! str "/home/u/.ssh/k" = Some (Regular 0 (str "private"))
  ∧ files halfKeyWorld !! (str "/home/u/.ssh/k" ++ ".pub"%string) = None
  ∧ ∃ w', deleteKey seeds0 0 0 (str "k") halfKeyWorld
          = Fatal w' (ErrNotExist (str "/home/u/.ssh/k" ++ ".pub"%string))
          ∧ files w' !! str "/home/u/.ssh/k" = None
          ∧ ∀ other, other ≠ str "/home/u/.ssh/k" →
              files w' !! other = files halfKeyWorld !! other.
Proof.
  assert (getFullKeyPath halfKeyWorld (str "k") = Ok (str "/home/u/.ssh/k")) as H1
    by by_computation.
  assert (files halfKeyWorld !! str "/home/u/.ssh/k"
          = Some (Regular 0 (str "private"))) as H2 by by_computation.
  assert (files halfKeyWorld !! (str "/home/u/.ssh/k" ++ ".pub"%string) = None) as H3
    by by_computation.
  exact (conj H1 (conj H2 (conj H3
    (deleteKey_missing_public seeds0 0 0 _ _ _ _ _ H1 H2 H3)))).
Defined.

Lemma atMostOneKey_oneHost : atMostOneKey oneHostConfig.
Proof.
  intros host keyPaths H. unfold oneHostConfig in H.
  apply lookup_singleton_Some in H as [_ <-]. simpl. lia.
Defined.

Lemma commands_keep_one_key_witness :
  atMostOneKey oneHostConfig
  ∧ ((∀ config', mapConfig (str "/abs/id_a") (str "foo") oneHostConfig = Some config' →
        atMostOneKey config' ∧ config' !! str "foo" = Some [str "/abs/id_a"])
     ∧ atMostOneKey (unmapConfig (str "/abs/id_a") (str "foo") oneHostConfig)
     ∧ atMostOneKey (deleteConfig 0 (str "/abs/id_a") oneHostConfig)).
Proof.
  exact (conj atMostOneKey_oneHost
    (commands_keep_one_key 0 (str "/abs/id_a") (str "foo") oneHostConfig
       atMostOneKey_oneHost)).
Defined.

Lemma getKeys_paths_witness :
  getKeys inventoryWorld = Ok [inventoryKeyA; inventoryKeyB]
  ∧ inventoryKeyA ∈ [inventoryKeyA; inventoryKeyB]
  ∧ (Filepath.Base (path inventoryKeyA) = name inventoryKeyA ++ ".pub"%string
     ∧ (slash ∉ name inventoryKeyA)
     ∧ (name inventoryKeyA ≠ [] → name inventoryKeyA ≠ str "." →
        name inventoryKeyA ≠ str ".." →
        ∃ fullKeyPath, getFullKeyPath inventoryWorld (name inventoryKeyA) = Ok fullKeyPath
                       ∧ fullKeyPath ++ ".pub"%string = path inventoryKeyA)).
Proof.
  assert (getKeys inventoryWorld = Ok [inventoryKeyA; inventoryKeyB]) as H1
    by by_computation.
  assert (inventoryKeyA ∈ [inventoryKeyA; inventoryKeyB]) as H2 by left.
  exact (conj H1 (conj H2 (getKeys_paths _ _ _ H1 H2))).
Defined.

Lemma getKeyComment_first_witness :
  Os.ReadFile inventoryWorld (str "/home/u/.ssh/id_a.pub")
    = Ok ("ssh-ed25519 AAAA"%string ++ [newline] ++ "Comment: work"%string)
  ∧ ((∀ before text after,
        Strings.Split ("ssh-ed25519 AAAA"%string ++ [newline] ++ "Comment: work"%string)
          newline = before ++ (commentLine ++ text) :: after →
        Forall (λ line, Strings.HasPrefix line commentLine = false) before →
        getKeyComment inventoryWorld (str "/home/u/.ssh/id_a.pub") = Ok text)
     ∧ (Forall (λ line, Strings.HasPrefix line commentLine = false)
          (Strings.Split ("ssh-ed25519 AAAA"%string ++ [newline]
                          ++ "Comment: work"%string) newline) →
        getKeyComment inventoryWorld (str "/home/u/.ssh/id_a.pub") = Ok [])).
Proof.
  assert (Os.ReadFile inventoryWorld (str "/home/u/.ssh/id_a.pub")
          = Ok ("ssh-ed25519 AAAA"%string ++ [newline] ++ "Comment: work"%string)) as H1
    by by_computation.
  exact (conj H1 (getKeyComment_first _ _ _ H1)).
Defined.

Lemma only_foo (keyPaths : list gostring) :
  ∀ other, is_Some (({[ str "foo" := keyPaths ]} : Config) !! other) → other = str "foo".
Proof. intros other [v H]. by apply lookup_singleton_Some in H as [<- _]. Defined.

Lemma mapKey_twice_witness :
  parseConfig emptyHostWorld seeds0 = Ok {[ str "foo" := [] ]}
  ∧ (∀ other, is_Some (({[ str "foo" := [] ]} : Config) !! other) → other = str "foo")
  ∧ ({[ str "foo" := [] ]} : Config) !!! str "foo" = []
  ∧ hostOk (str "foo")
  ∧ lineSafe (str "/abs/k")
  ∧ expandPath emptyHostWorld (str "/abs/k") = Ok (str "/abs/k")
  ∧ getConfigPath emptyHostWorld = Ok (str "/home/u/.ssh/config")
  ∧ (str "/home/u/.ssh/config" ∉ readOnly emptyHostWorld)
  ∧ ∃ w',
      mapKey seeds0 0 (str "/abs/k") (str "foo") emptyHostWorld
        = Done w' [mappedMsg (str "/abs/k") (str "foo")]
      ∧ (∀ seeds', parseConfig w' seeds' = Ok {[ str "foo" := [str "/abs/k"] ]})
      ∧ ∀ seeds' wseed' key',
          mapKey seeds' wseed' key' (str "foo") w'
          = Done w' [alreadyMappedMsg (str "foo")].
Proof.
  assert (parseConfig emptyHostWorld seeds0 = Ok {[ str "foo" := [] ]}) as H1
    by by_computation.
  assert (({[ str "foo" := [] ]} : Config) !!! str "foo" = []) as H3 by by_computation.
  assert (expandPath emptyHostWorld (str "/abs/k") = Ok (str "/abs/k")) as H6
    by by_computation.
  assert (getConfigPath emptyHostWorld = Ok (str "/home/u/.ssh/config")) as H7
    by by_computation.
  assert (str "/home/u/.ssh/config" ∉ readOnly emptyHostWorld) as H8
    by apply not_elem_of_empty.
  exact (conj H1 (conj (only_foo []) (conj H3 (conj hostOk_foo (conj lineSafe_abs_k
    (conj H6 (conj H7 (conj H8
      (mapKey_twice emptyHostWorld seeds0 0 _ _ _ _ _ H1 (only_foo []) H3 hostOk_foo
         lineSafe_abs_k H6 H7 H8))))))))).
Defined.

Lemma unmapKey_then_mapKey_witness :
  parseConfig oneHostWorld seeds0 = Ok {[ str "foo" := [str "/abs/id_a"] ]}
  ∧ hostOk (str "foo")
  ∧ lineSafe (str "/abs/id_b")
  ∧ expandPath oneHostWorld (str "/abs/id_b") = Ok (str "/abs/id_b")
  ∧ getConfigPath oneHostWorld = Ok (str "/home/u/.ssh/config")
  ∧ (str "/home/u/.ssh/config" ∉ readOnly oneHostWorld)
  ∧ ∃ w1 w2,
      unmapKey seeds0 0 (str "/abs/id_a") (str "foo") oneHostWorld
        = Done w1 [unmappedMsg (str "/abs/id_a") (str "foo")]
      ∧ (∀ seeds1, parseConfig w1 seeds1 = Ok {[ str "foo" := [] ]})
      ∧ (∀ seeds1, mapKey seeds1 0 (str "/abs/id_b") (str "foo") w1
                   = Done w2 [mappedMsg (str "/abs/id_b") (str "foo")])
      ∧ ∀ seeds2, parseConfig w2 seeds2 = Ok {[ str "foo" := [str "/abs/id_b"] ]}.
Proof.
  assert (parseConfig oneHostWorld seeds0 = Ok {[ str "foo" := [str "/abs/id_a"] ]})
    as H1 by by_computation.
  assert (expandPath oneHostWorld (str "/abs/id_b") = Ok (str "/abs/id_b")) as H4
    by by_computation.
  assert (getConfigPath oneHostWorld = Ok (str "/home/u/.ssh/config")) as H5
    by by_computation.
  assert (str "/home/u/.ssh/config" ∉ readOnly oneHostWorld) as H6
    by apply not_elem_of_empty.
  exact (conj H1 (conj hostOk_foo (conj lineSafe_abs_id_b (conj H4 (conj H5 (conj H6
    (unmapKey_then_mapKey oneHostWorld seeds0 0 _ _ _ _ _ H1 hostOk_foo
       lineSafe_abs_id_b H4 H5 H6))))))).
Defined.

Lemma deleteKey_done_witness :
  getFullKeyPath duplicateWorld (str "k") = Ok (str "/home/u/.ssh/k")
  ∧ files duplicateWorld !! str "/home/u/.ssh/k" = Some (Regular 0 (str "private"))
  ∧ files duplicateWorld !! (str "/home/u/.ssh/k" ++ ".pub"%string)
    = Some (Regular 0 (str "public"))
  ∧ getConfigPath duplicateWorld = Ok (str "/home/u/.ssh/config")
  ∧ str "/home/u/.ssh/config" ≠ str "/home/u/.ssh/k"
  ∧ str "/home/u/.ssh/config" ≠ str "/home/u/.ssh/k" ++ ".pub"%string
  ∧ parseConfig duplicateWorld seeds0 = Ok duplicateConfig
  ∧ (str "/home/u/.ssh/config" ∉ readOnly duplicateWorld)
  ∧ ∃ w',
      deleteKey seeds0 0 0 (str "k") duplicateWorld = Done w' [deletedMsg (str "k")]
      ∧ files w' !! str "/home/u/.ssh/k" = None
      ∧ files w' !! (str "/home/u/.ssh/k" ++ ".pub"%string) = None
      ∧ Os.ReadFile w' (str "/home/u/.ssh/config")
        = Ok (configText 0 (deleteConfig 0 (str "/home/u/.ssh/k") duplicateConfig))
      ∧ ∀ other, other ≠ str "/home/u/.ssh/k" →
          other ≠ str "/home/u/.ssh/k" ++ ".pub"%string →
          other ≠ str "/home/u/.ssh/config" →
          files w' !! other = files duplicateWorld !! other.
Proof.
  assert (getFullKeyPath duplicateWorld (str "k") = Ok (str "/home/u/.ssh/k")) as H1
    by by_computation.
  assert (files duplicateWorld !! str "/home/u/.ssh/k"
          = Some (Regular 0 (str "private"))) as H2 by by_computation.
  assert (files duplicateWorld !! (str "/home/u/.ssh/k" ++ ".pub"%string)
          = Some (Regular 0 (str "public"))) as H3 by by_computation.
  assert (getConfigPath duplicateWorld = Ok (str "/home/u/.ssh/config")) as H4
    by by_computation.
  assert (str "/home/u/.ssh/config" ≠ str "/home/u/.ssh/k") as H5 by discriminate.
  assert (str "/home/u/.ssh/config" ≠ str "/home/u/.ssh/k" ++ ".pub"%string) as H6
    by discriminate.
  assert (parseConfig duplicateWorld seeds0 = Ok duplicateConfig) as H7
    by by_computation.
  assert (str "/home/u/.ssh/config" ∉ readOnly duplicateWorld) as H8
    by apply not_elem_of_empty.
  exact (conj H1 (conj H2 (conj H3 (conj H4 (conj H5 (conj H6 (conj H7 (conj H8
    (deleteKey_done seeds0 0 0 _ _ _ _ _ _ _ _ _ H1 H2 H3 H4 H5 H6 H7 H8))))))))).
Defined.



Lemma readsBack_twoHost : readsBack oneHostWorld twoHostConfig.
Proof.
  intros host keyPaths H. unfold twoHostConfig, oneHostConfig in H.
  apply lookup_insert_Some in H as [[<- <-]|[_ H]].
  - split; [unfold hostOk; compute_done|].
    repeat constructor; unfold keyPathOk; repeat split; compute_done.
  - apply lookup_singleton_Some in H as [<- <-]. split; [unfold hostOk; compute_done|].
    repeat constructor; unfold keyPathOk; repeat split; compute_done.
Defined.

Lemma parse_write_any_run_witness :
  ∃ config',
    parseConfig twoHostWritten seeds0 = Ok config'
    ∧ (∀ host, is_Some (config' !! host) ↔ is_Some (twoHostConfig !! host))
    ∧ ∀ keyPath, listed config' keyPath ↔ listed twoHostConfig keyPath.
Proof.
  apply (parse_write_any_run oneHostWorld twoHostWritten 0
           (str "/home/u/.ssh/config") twoHostConfig seeds0).
  - exact readsBack_twoHost.
  - vm_compute; reflexivity.
  - vm_compute; reflexivity.
Defined.

Lemma listed_key_is_used_witness :
  Filepath.Base (str "/home/u/.ssh/id_a") = name inventoryKeyA
  ∧ isKeyUsed 0 inventoryKeyA inventoryConfig = true
  ∧ (inventoryKeyA ∉ auditUnusedKeys 0 [inventoryKeyA; inventoryKeyB] inventoryConfig)
  ∧ ∃ unused, listUnusedKeys seeds0 0 inventoryWorld = Ok unused
              ∧ inventoryKeyA ∉ unused.
Proof.
  apply (listed_key_is_used inventoryWorld seeds0 0 0 [inventoryKeyA; inventoryKeyB]
           inventoryKeyA (str "/home/u/.ssh/id_a") (str "/home/u/.ssh/id_a")
           inventoryConfig).
  - split; intros p [= <-]; reflexivity.
  - vm_compute; reflexivity.
  - left.
  - discriminate.
  - discriminate.
  - discriminate.
  - vm_compute; reflexivity.
  - vm_compute; reflexivity.
  - vm_compute; reflexivity.
  - exists (str "h"), [str "/home/u/.ssh/id_a"]. split; [reflexivity|left].
Defined.

Lemma getKeys_inventory_witness :
  (∀ key, key ∈ [inventoryKeyA; inventoryKeyB] →
     ∃ t content,
       files inventoryWorld !! path key = Some (Regular t content)
       ∧ created key = t
       ∧ comment key = firstComment (Strings.Split content newline))
  ∧ (∀ fname t content,
       files inventoryWorld !! (Os.entryPrefix (str "/home/u/.ssh") ++ fname)
       = Some (Regular t content) →
       fname ≠ [] → slash ∉ fname → Strings.HasSuffix fname ".pub"%string = true →
       ∃ key, key ∈ [inventoryKeyA; inventoryKeyB]
              ∧ name key = Strings.TrimSuffix fname ".pub"%string
              ∧ path key = Filepath.Join (str "/home/u/.ssh") fname).
Proof.
  apply (getKeys_inventory inventoryWorld (str "/home/u/.ssh")
           [inventoryKeyA; inventoryKeyB]).
  - vm_compute; reflexivity.
  - vm_compute; reflexivity.
Defined.
